(** * capa.render.proto: translation of a pydantic JSON schema to protobuf

    A shallow embedding of [capa/render/proto/__init__.py] and the
    properties of its output: field numbering, property order, enum and
    message emission, deferred wrapper types and failure modes. *)

From Stdlib Require Import String Ascii List ZArith Lia Bool Arith.
From Stdlib Require Import Sorting.Permutation Sorting.Sorted.
From Stdlib Require Import DecimalString.
Import ListNotations.
Local Open Scope list_scope.
Local Open Scope string_scope.

Set Implicit Arguments.

(** ** Python exceptions and results *)

(** The exceptions the translator can raise.  [ValueError] keeps its
    message, which tells a title mismatch from an unexpected shape; the
    text that ["unexpected type: %s" % prop] appends for the offending
    description is left out of the message. *)
Inductive error : Type :=
| KeyError (key : string)
| ValueError (msg : string)
| NotImplementedError
| AssertionError
| AttributeError
| TypeError.

Inductive result (A : Type) : Type :=
| Ok (a : A)
| Err (e : error).
Arguments Ok {A} a.
Arguments Err {A} e.

Definition bind_result {A B} (r : result A) (k : A -> result B) : result B :=
  match r with
  | Ok a => k a
  | Err e => Err e
  end.

Declare Scope result_scope.
Delimit Scope result_scope with result.
Notation "x <- r ;; k" := (bind_result r (fun x => k))
  (at level 61, r at next level, right associativity) : result_scope.

Definition is_err {A} (r : result A) : Prop :=
  match r with
  | Ok _ => False
  | Err _ => True
  end.

(** [[f(x) for x in l]], stopping at the first exception. *)
Fixpoint map_result {A B} (f : A -> result B) (l : list A) : result (list B) :=
  match l with
  | [] => Ok []
  | x :: l' =>
      match f x with
      | Err e => Err e
      | Ok y =>
          match map_result f l' with
          | Err e => Err e
          | Ok ys => Ok (y :: ys)
          end
      end
  end.

(** [d[key]] on a key that may be absent. *)
Definition getitem {A} (key : string) (v : option A) : result A :=
  match v with
  | Some a => Ok a
  | None => Err (KeyError key)
  end.

Definition contains {A} (v : option A) : bool :=
  match v with
  | Some _ => true
  | None => false
  end.

(** ** Strings *)

(** [s.startswith(p)] *)
Fixpoint startswith (p s : string) : bool :=
  match p, s with
  | EmptyString, _ => true
  | String a p', String b s' => Ascii.eqb a b && startswith p' s'
  | String _ _, EmptyString => false
  end.

(** [s[n:]] *)
Fixpoint drop (n : nat) (s : string) : string :=
  match n, s with
  | O, _ => s
  | S n', String _ s' => drop n' s'
  | S _, EmptyString => EmptyString
  end.

Fixpoint map_string (f : ascii -> ascii) (s : string) : string :=
  match s with
  | EmptyString => EmptyString
  | String a s' => String (f a) (map_string f s')
  end.

(** [s.replace(old, new)] for one-character [old] and [new]. *)
Definition replace (old new : ascii) (s : string) : string :=
  map_string (fun a => if Ascii.eqb a old then new else a) s.

Fixpoint forallb_string (f : ascii -> bool) (s : string) : bool :=
  match s with
  | EmptyString => true
  | String a s' => f a && forallb_string f s'
  end.

(** A string is kept as the bytes of its UTF-8 text.  On ASCII text, one
    byte below 128 for every character, the bytes are the characters;
    [str.upper] follows the characters and not the bytes, so the
    statements that depend on it are about ASCII text. *)
Definition is_ascii_text (s : string) : bool :=
  forallb_string (fun a => Nat.ltb (nat_of_ascii a) 128) s.

(** [s.upper()] on ASCII text: Python's [upper] shifts the letters
    [a]..[z] and leaves every other ASCII character alone.  (On other
    text [str.upper] follows Unicode, which this function does not.) *)
Definition upper_ascii (a : ascii) : ascii :=
  let n := nat_of_ascii a in
  if (97 <=? n)%nat && (n <=? 122)%nat then ascii_of_nat (n - 32) else a.

Definition upper (s : string) : string := map_string upper_ascii s.

(** [pat in text] on strings. *)
Definition occurs (pat text : string) : bool :=
  match String.index 0 pat text with
  | Some _ => true
  | None => false
  end.

(** [sep.join(l)] *)
Definition join (sep : string) (l : list string) : string := String.concat sep l.

(** [str(n)] for a non-negative integer. *)
Definition str_nat (n : nat) : string := NilZero.string_of_uint (Nat.to_uint n).

(** [l.index(x)] as an option; Python raises [ValueError] where this is
    [None]. *)
Fixpoint index_of (x : string) (l : list string) : option nat :=
  match l with
  | [] => None
  | y :: l' => if String.eqb y x then Some O else option_map S (index_of x l')
  end.

(** [d[key]] on a dict kept as an association list in insertion order. *)
Fixpoint lookup {A} (key : string) (d : list (string * A)) : option A :=
  match d with
  | [] => None
  | (k, v) :: d' => if String.eqb k key then Some v else lookup key d'
  end.

(** [enumerate(l)] *)
Fixpoint enumerate_from {A} (n : nat) (l : list A) : list (nat * A) :=
  match l with
  | [] => []
  | x :: l' => (n, x) :: enumerate_from (S n) l'
  end.

Definition enumerate {A} (l : list A) : list (nat * A) := enumerate_from 0 l.

(** ** Sorting *)

(** Python's [sorted] is stable.  A list has one stable sorted
    arrangement, which insertion from the right computes: an element goes
    in front of the first element that is not smaller than it. *)
Section Sorted.
Variables (A K : Type) (leb : K -> K -> bool) (key : A -> K).

Fixpoint insert_by (x : A) (l : list A) : list A :=
  match l with
  | [] => [x]
  | y :: l' => if leb (key x) (key y) then x :: y :: l' else y :: insert_by x l'
  end.

Fixpoint sorted_by (l : list A) : list A :=
  match l with
  | [] => []
  | x :: l' => insert_by x (sorted_by l')
  end.

End Sorted.

(** [sorted(l)] on strings; Python compares strings by code point. *)
Definition sorted_strings (l : list string) : list string :=
  sorted_by String.leb (fun s => s) l.

(** [sorted(l, key=f)] with integer keys: the keys are computed first, for
    every element, and an exception from [f] ends the call. *)
Definition sorted_key {A} (f : A -> result nat) (l : list A) : result (list A) :=
  match map_result f l with
  | Err e => Err e
  | Ok ks => Ok (map snd (sorted_by Nat.leb fst (combine ks l)))
  end.

(** ** The schema *)

(** A schema object as [pydantic.schema_of] produces it: a definition, a
    property description, an array item, a map value or a union
    alternative.  The source has it as a dict and reads the values of
    these keys and of no other, so the dict is kept as one optional field
    per key, [None] for a key that is absent, with the type JSON Schema
    gives its value.  [items] is a single description or a list of
    descriptions; [properties] keeps the declaration order of the dict.
    [keys] are the keys of the dict in the order in which a loop over the
    dict meets them: the source loops over a description where the
    [items] of a tuple are a single description.  Whether one of the keys
    above is in the dict is read off its field; [keys] is read by that
    loop only. *)
#[warnings="-register-all"]
Inductive description : Type :=
| Description
    (keys : list string)
    (ref : option string)
    (type : option string)
    (title : option string)
    (enum : option (list string))
    (properties : option (list (string * description)))
    (items : option (description + list description))
    (minItems maxItems : option Z)
    (additionalProperties : option description)
    (anyOf : option (list description)).

Definition d_keys (p : description) := let 'Description k _ _ _ _ _ _ _ _ _ _ := p in k.
Definition d_ref (p : description) := let 'Description _ r _ _ _ _ _ _ _ _ _ := p in r.
Definition d_type (p : description) := let 'Description _ _ t _ _ _ _ _ _ _ _ := p in t.
Definition d_title (p : description) := let 'Description _ _ _ t _ _ _ _ _ _ _ := p in t.
Definition d_enum (p : description) := let 'Description _ _ _ _ e _ _ _ _ _ _ := p in e.
Definition d_properties (p : description) :=
  let 'Description _ _ _ _ _ ps _ _ _ _ _ := p in ps.
Definition d_items (p : description) := let 'Description _ _ _ _ _ _ i _ _ _ _ := p in i.
Definition d_minItems (p : description) := let 'Description _ _ _ _ _ _ _ m _ _ _ := p in m.
Definition d_maxItems (p : description) := let 'Description _ _ _ _ _ _ _ _ m _ _ := p in m.
Definition d_additionalProperties (p : description) :=
  let 'Description _ _ _ _ _ _ _ _ _ a _ := p in a.
Definition d_anyOf (p : description) := let 'Description _ _ _ _ _ _ _ _ _ _ a := p in a.

(** [schema["definitions"]]: a dict from title to definition. *)
Record schema : Type := Schema { definitions : list (string * description) }.

(** ** Shape predicates and type names *)

Definition is_ref (prop : description) : bool := contains (d_ref prop).

Definition definitions_prefix : string := "#/definitions/".

Definition get_ref_type_name (prop : description) : result string :=
  if negb (is_ref prop) then Err AssertionError else
  (r <- getitem "$ref" (d_ref prop) ;;
   if negb (startswith definitions_prefix r) then Err AssertionError else
   Ok (drop (String.length definitions_prefix) r))%result.

Definition is_primitive_type (prop : description) : bool :=
  match d_type prop with
  | Some t => negb (String.eqb t "object")
  | None => false
  end.

Definition is_custom_type (prop : description) : bool :=
  match d_type prop with
  | Some t => String.eqb t "object" && negb (contains (d_additionalProperties prop))
  | None => false
  end.

Definition get_custom_type_name (prop : description) : result string :=
  getitem "title" (d_title prop).

Definition is_tuple (prop : description) : bool :=
  match d_type prop with
  | None => false
  | Some t =>
      if negb (String.eqb t "array") then false else
      match d_maxItems prop, d_minItems prop with
      | Some mx, Some mn => Z.eqb mx mn
      | _, _ => false
      end
  end.

Definition is_array (prop : description) : result bool :=
  match d_type prop with
  | None => Ok false
  | Some t =>
      if negb (String.eqb t "array") then Ok false else
      if match d_maxItems prop, d_minItems prop with
         | Some mx, Some mn => Z.eqb mx mn
         | _, _ => false
         end
      then Ok false else
      (i <- getitem "items" (d_items prop) ;;
       match i with
       | inl _ => Ok true
       | inr _ => Ok false
       end)%result
  end.

Definition is_map (prop : description) : bool :=
  match d_type prop with
  | Some t => String.eqb t "object" && contains (d_additionalProperties prop)
  | None => false
  end.

Definition is_union (prop : description) : bool := contains (d_anyOf prop).

(** [get_primitive_type_name], with [get_tuple_type_name] and
    [get_type_name] which it calls and which call it back on the items
    of the description.  The two helpers take the function they call
    back as an argument, so that the recursion is on the description. *)
Definition type_name_with (primitive : description -> result string)
    (prop : description) : result string :=
  if is_primitive_type prop then primitive prop
  else if is_custom_type prop then get_custom_type_name prop
  else if is_ref prop then get_ref_type_name prop
  else Err NotImplementedError.

(** [get_type_name(key)] on a key of a dict, a string.  On a string
    ["type" in key] and ["$ref" in key] look for a substring; where one
    is found the source goes on to index the string by a string, a
    [TypeError]: in [is_primitive_type] for ["type"], and otherwise in
    [get_ref_type_name] for ["$ref"].  A key with neither is of no type
    the source knows. *)
Definition get_type_name_of_key (key : string) : result string :=
  if occurs "type" key then Err TypeError
  else if occurs "$ref" key then Err TypeError
  else Err NotImplementedError.

(** [get_tuple_type_name].  The loop [for item in prop["items"]] goes
    over the descriptions of a list and over the keys of a single
    description: a description without keys gives no name to join, and
    the first key of another ends the call with its exception. *)
Definition tuple_type_name_with (type_name : description -> result string)
    (prop : description) : result string :=
  if negb (is_tuple prop) then Err AssertionError else
  match d_maxItems prop with
  | None => Err (KeyError "maxItems")
  | Some mx =>
      let base := if Z.eqb mx 2 then "Pair" else "Tuple" in
      match d_items prop with
      | None => Err (KeyError "items")
      | Some (inl item) =>
          match map_result get_type_name_of_key (d_keys item) with
          | Err e => Err e
          | Ok names => Ok (base ++ "_" ++ join "_" names)
          end
      | Some (inr items) =>
          match map_result type_name items with
          | Err e => Err e
          | Ok names => Ok (base ++ "_" ++ join "_" names)
          end
      end
  end.

Fixpoint get_primitive_type_name (prop : description) : result string :=
  if negb (is_primitive_type prop) then Err AssertionError else
  match d_type prop with
  | None => Err (KeyError "type")
  | Some t =>
      if String.eqb t "string" then Ok "string"
      else if String.eqb t "boolean" then Ok "bool"
      else if String.eqb t "integer" then Ok "Integer"
      else if String.eqb t "number" then Ok "Number"
      else if is_tuple prop then
        tuple_type_name_with (type_name_with get_primitive_type_name) prop
      else
        match is_array prop with
        | Err e => Err e
        | Ok false => Err NotImplementedError
        | Ok true =>
            match d_items prop with
            | None => Err (KeyError "items")
            | Some (inr _) => Err TypeError
            | Some (inl aitem) =>
                (atype <-
                   (if is_primitive_type aitem then get_primitive_type_name aitem
                    else if is_ref aitem then get_ref_type_name aitem
                    else if is_custom_type aitem then get_custom_type_name aitem
                    else Err NotImplementedError) ;;
                 Ok ("repeated " ++ atype))%result
            end
        end
  end.

Definition get_type_name (prop : description) : result string :=
  type_name_with get_primitive_type_name prop.

Definition get_tuple_type_name (prop : description) : result string :=
  tuple_type_name_with get_type_name prop.

Definition sanitize_prop_name (name : string) : string :=
  replace " " "_" (replace "/" "_" (replace "&" "a" (replace "-" "_" name))).

(** ** The canonical property order *)

(** Modelled from the spec: the modules [capa.render.result_document],
    [capa.features.freeze] and [capa.features.freeze.features], which are
    not among the sources.  The spec has them as a configured table from
    definition title to canonical field order; here each module is the
    table of its attributes, an attribute being given by the parameter
    names of its [__signature__] ([None] for an attribute that has no
    signature). *)
Record capa_modules : Type := CapaModules {
  result_document : list (string * option (list string));
  freeze : list (string * option (list string));
  freeze_features : list (string * option (list string))
}.

Definition _find_capa_class (capa : capa_modules) (name : string)
    : result (option (list string)) :=
  match lookup name (result_document capa) with
  | Some cls => Ok cls
  | None =>
      match lookup name (freeze capa) with
      | Some cls => Ok cls
      | None =>
          match lookup name (freeze_features capa) with
          | Some cls => Ok cls
          | None => Err NotImplementedError
          end
      end
  end.

(** The local function [get_property_index] of [_enum_properties]; the
    lists it closes over are arguments here. *)
Definition get_property_index (property_order properties : list string)
    (n_properties : nat) (name : string) : result nat :=
  match index_of (sanitize_prop_name name) property_order with
  | Some i => Ok i
  | None =>
      match index_of name properties with
      | Some j => Ok (n_properties + j)
      | None => Err (ValueError "not in list")
      end
  end.

Definition _enum_properties (capa : capa_modules) (message : description)
    : result (list (string * description)) :=
  (title <- getitem "title" (d_title message) ;;
   cls <- _find_capa_class capa title ;;
   property_order <- match cls with
                     | Some params => Ok params
                     | None => Err AttributeError
                     end ;;
   props <- getitem "properties" (d_properties message) ;;
   let properties := map fst props in
   sorted_key
     (fun p => get_property_index property_order properties (length props) (fst p))
     props)%result.

(** ** Emission *)

Inductive deferred : Type :=
| DeferredArrayType (name : string) (item : description)
| DeferredTupleType (name : string) (count : Z)
    (items : description + list description).

(** [deferred_types]: a dict from derived name to deferred type. *)
Definition registry : Type := list (string * deferred).

(** [d[key] = v] on a dict: the value of a key that is present is
    replaced where it stands, a new key goes to the end. *)
Fixpoint setitem {A} (key : string) (v : A) (d : list (string * A))
    : list (string * A) :=
  match d with
  | [] => [(key, v)]
  | (k, v') :: d' =>
      if String.eqb k key then (key, v) :: d' else (k, v') :: setitem key v d'
  end.

(** Modelled from the spec: [capa.render.utils.StringIO], which is not
    among the sources.  The translator only appends to [out], with
    [writeln], and reads it once at the end, with [getvalue]; the spec has
    the output accumulated into one document.  [writeln(s)] is taken to
    append [s] and a newline.

    A command of the translator is a function of the deferred types that
    returns its value, the arguments of its [writeln] calls in order, and
    the deferred types it leaves, or the exception it raises. *)
Definition emit (A : Type) : Type :=
  registry -> result (A * list string * registry).

Definition ret {A} (a : A) : emit A := fun d => Ok (a, [], d).

Definition bind {A B} (m : emit A) (k : A -> emit B) : emit B :=
  fun d =>
    match m d with
    | Err e => Err e
    | Ok (a, w1, d1) =>
        match k a d1 with
        | Err e => Err e
        | Ok (b, w2, d2) => Ok (b, (w1 ++ w2)%list, d2)
        end
    end.

Definition raise {A} (e : error) : emit A := fun _ => Err e.

Definition lift {A} (r : result A) : emit A :=
  fun d =>
    match r with
    | Ok a => Ok (a, [], d)
    | Err e => Err e
    end.

Definition writeln (s : string) : emit unit := fun d => Ok (tt, [s], d).

Definition register (key : string) (v : deferred) : emit unit :=
  fun d => Ok (tt, [], setitem key v d).

Definition deferred_items : emit registry := fun d => Ok (d, [], d).

Declare Scope emit_scope.
Delimit Scope emit_scope with emit.
Notation "x <- m ;; k" := (bind m (fun x => k))
  (at level 61, m at next level, right associativity) : emit_scope.
Notation "m ;; k" := (bind m (fun _ => k))
  (at level 61, right associativity) : emit_scope.

(** [for x in l: body(x)], with the local variables the body updates
    passed from one round to the next. *)
Fixpoint fold_emit {S X} (body : S -> X -> emit S) (s : S) (l : list X) : emit S :=
  match l with
  | [] => ret s
  | x :: l' => bind (body s x) (fun s' => fold_emit body s' l')
  end.

Definition for_each {X} (l : list X) (body : X -> emit unit) : emit unit :=
  fold_emit (fun _ x => body x) tt l.

Definition newline : string := String (ascii_of_nat 10) EmptyString.
Definition quote : string := String (ascii_of_nat 34) EmptyString.

(** [out.getvalue()] *)
Definition getvalue (written : list string) : string :=
  String.concat "" (map (fun s => s ++ newline) written).

Definition render_value (prefix value : string) : string :=
  prefix ++ "_" ++ replace " " "_" (upper value).

Definition emit_proto_enum (enum : description) : emit unit :=
  (title <- lift (getitem "title" (d_title enum)) ;;
   let prefix := upper title in
   writeln ("enum " ++ title ++ " {") ;;
   writeln ("  " ++ render_value prefix "unspecified" ++ " = 0;") ;;
   values <- lift (getitem "enum" (d_enum enum)) ;;
   for_each (enumerate values)
     (fun iv => writeln ("  " ++ render_value prefix (snd iv) ++ " = "
                           ++ str_nat (fst iv + 1) ++ ";")) ;;
   writeln "}" ;;
   writeln "")%emit.

(** [prop["items"]] where [is_array] has held: a single description. *)
Definition array_item (prop : description) : result description :=
  (i <- getitem "items" (d_items prop) ;;
   match i with
   | inl aitem => Ok aitem
   | inr _ => Err TypeError
   end)%result.

(** [deferred_types[name] = DeferredTupleType(name, prop["minItems"], prop["items"])] *)
Definition register_tuple (name : string) (prop : description) : emit unit :=
  (count <- lift (getitem "minItems" (d_minItems prop)) ;;
   items <- lift (getitem "items" (d_items prop)) ;;
   register name (DeferredTupleType name count items))%emit.

Definition field_line (indent ptype name : string) (i : nat) : string :=
  indent ++ ptype ++ " " ++ name ++ " = " ++ str_nat i ++ ";".

(** One round of the loop over [prop["anyOf"]].  The local state is [i]
    and the counter, given by the number [next(counter)] returns next. *)
Definition emit_alternative (ic : nat * nat) (jof : nat * description)
    : emit (nat * nat) :=
  let '(i, counter) := ic in
  let '(j, of_) := jof in
  ((if is_ref of_ then
      ptype <- lift (get_ref_type_name of_) ;;
      writeln (field_line "    " ptype ("v" ++ str_nat j) i)
    else if is_primitive_type of_ then
      ptype <- lift (get_primitive_type_name of_) ;;
      writeln (field_line "    " ptype ("v" ++ str_nat j) i) ;;
      if is_tuple of_ then register_tuple ptype of_ else ret tt
    else raise NotImplementedError) ;;
   ret (counter, S counter))%emit.

(** One round of the loop over the properties of a message.  The counter
    is [iter(range(1, sys.maxsize))], given by the number it returns
    next; no message has [sys.maxsize] fields and the end of the range is
    not modelled. *)
Definition emit_property (counter : nat) (np : string * description) : emit nat :=
  let '(raw_name, prop) := np in
  let i := counter in
  let counter := S counter in
  let name := sanitize_prop_name raw_name in
  (if is_ref prop then
     ptype <- lift (get_ref_type_name prop) ;;
     writeln (field_line "  " ptype name i) ;;
     ret counter
   else if is_primitive_type prop then
     ptype <- lift (get_primitive_type_name prop) ;;
     writeln (field_line "  " ptype name i) ;;
     (if is_tuple prop then register_tuple ptype prop
      else
        b <- lift (is_array prop) ;;
        if b : bool then
          aitem <- lift (array_item prop) ;;
          if is_tuple aitem then
            atype <- lift (get_tuple_type_name aitem) ;;
            register_tuple atype aitem
          else ret tt
        else ret tt) ;;
     ret counter
   else if is_custom_type prop then
     ptype <- lift (get_custom_type_name prop) ;;
     writeln (field_line "  " ptype name i) ;;
     ret counter
   else if is_union prop then
     writeln ("  oneof " ++ name ++ " {") ;;
     alternatives <- lift (getitem "anyOf" (d_anyOf prop)) ;;
     ic <- fold_emit emit_alternative (i, counter) (enumerate alternatives) ;;
     writeln "  };" ;;
     ret (snd ic)
   else if is_map prop then
     values <- lift (getitem "additionalProperties" (d_additionalProperties prop)) ;;
     b <- lift (is_array values) ;;
     vtype <- (if b : bool then
                 item_def <- lift (array_item values) ;;
                 item_type <- lift (get_type_name item_def) ;;
                 let vtype := "Array_" ++ item_type in
                 register vtype (DeferredArrayType vtype item_def) ;;
                 ret vtype
               else lift (get_type_name values)) ;;
     writeln ("  map <string, " ++ vtype ++ "> " ++ name ++ " = " ++ str_nat i ++ ";") ;;
     ret counter
   else raise (ValueError "unexpected type"))%emit.

Definition emit_proto_message (capa : capa_modules) (message : description)
    : emit unit :=
  (title <- lift (getitem "title" (d_title message)) ;;
   writeln ("message " ++ title ++ " {") ;;
   props <- lift (_enum_properties capa message) ;;
   _ <- fold_emit emit_property 1 props ;;
   writeln "}" ;;
   writeln "")%emit.

Definition emit_proto_entry (capa : capa_modules) (schema : schema)
    (name : string) : emit unit :=
  if negb (startswith definitions_prefix name)
  then raise (ValueError ("unexpected name: " ++ name))
  else
    let title := drop (String.length definitions_prefix) name in
    (definition <- lift (getitem title (lookup title (definitions schema))) ;;
     stored <- lift (getitem "title" (d_title definition)) ;;
     if negb (String.eqb stored title)
     then raise (ValueError ("title mismatch: " ++ stored))
     else
       type <- lift (getitem "type" (d_type definition)) ;;
       if String.eqb type "string" && contains (d_enum definition)
       then emit_proto_enum definition
       else if String.eqb type "object"
       then emit_proto_message capa definition
       else raise NotImplementedError)%emit.

(** One round of the loop over [sorted(deferred_types.items())].  The
    loop over the items of a tuple goes over the descriptions of a list
    and over the keys of a single description. *)
Definition emit_deferred (entry : string * deferred) : emit unit :=
  let '(name, deferred_type) := entry in
  match deferred_type with
  | DeferredArrayType _ item =>
      (vtype <- lift (get_type_name item) ;;
       writeln ("message " ++ name ++ " { repeated " ++ vtype
                  ++ " values = 1; }" ++ newline))%emit
  | DeferredTupleType _ _ (inl item) =>
      (writeln ("message " ++ name ++ " {") ;;
       for_each (enumerate (d_keys item))
         (fun ik =>
            vtype <- lift (get_type_name_of_key (snd ik)) ;;
            writeln (field_line "  " vtype ("v" ++ str_nat (fst ik)) (fst ik + 1))) ;;
       writeln ("}" ++ newline))%emit
  | DeferredTupleType _ _ (inr items) =>
      (writeln ("message " ++ name ++ " {") ;;
       for_each (enumerate items)
         (fun ii =>
            vtype <- lift (get_type_name (snd ii)) ;;
            writeln (field_line "  " vtype ("v" ++ str_nat (fst ii)) (fst ii + 1))) ;;
       writeln ("}" ++ newline))%emit
  end.

Definition header : list string :=
  [ "// Generated by the capa.render.proto translator. DO NOT EDIT!";
    "syntax = " ++ quote ++ "proto3" ++ quote ++ ";";
    "" ].

Definition helper_types : list string :=
  [ "message Integer { oneof value { uint64 u = 1; int64 i = 2; } }" ++ newline;
    "message Number { oneof value { uint64 u = 1; int64 i = 2; double f = 3; } }"
      ++ newline ].

(** The entries of a dict have distinct keys, so that [sorted] on its
    items orders them by key and never compares two values. *)
Definition sorted_items {A} (d : list (string * A)) : list (string * A) :=
  sorted_by String.leb fst d.

(** The body of [generate_proto_from_pydantic] up to [getvalue]. *)
Definition generate_commands (capa : capa_modules) (schema : schema) : emit unit :=
  (for_each header writeln ;;
   for_each (sorted_strings (map fst (definitions schema)))
     (fun name => emit_proto_entry capa schema (definitions_prefix ++ name)) ;;
   deferred_types <- deferred_items ;;
   for_each (sorted_items deferred_types) emit_deferred ;;
   for_each helper_types writeln)%emit.

Definition generate_proto_from_pydantic (capa : capa_modules) (schema : schema)
    : result string :=
  match generate_commands capa schema [] with
  | Err e => Err e
  | Ok (_, written, _) => Ok (getvalue written)
  end.

(** ** Schemas for the examples *)

Definition no_keys : description :=
  Description [] None None None None None None None None None None.

(** [{"$ref": "#/definitions/<title>"}] *)
Definition ref_to (title : string) : description :=
  Description ["$ref"] (Some (definitions_prefix ++ title))
    None None None None None None None None None.

(** [{"type": <type>}] *)
Definition of_type (type : string) : description :=
  Description ["type"] None (Some type) None None None None None None None None.

(** [{"type": "array", "items": <item>}] *)
Definition array_of (item : description) : description :=
  Description ["type"; "items"] None (Some "array") None None None (Some (inl item))
    None None None None.

(** [{"type": "array", "items": [...], "minItems": n, "maxItems": n}] *)
Definition tuple_of (n : Z) (items : list description) : description :=
  Description ["type"; "items"; "minItems"; "maxItems"] None (Some "array") None None None (Some (inr items))
    (Some n) (Some n) None None.

(** [{"type": "array", "items": <item>, "minItems": n, "maxItems": n}]:
    a tuple whose [items] are a single description *)
Definition tuple_of_dict (n : Z) (item : description) : description :=
  Description ["type"; "items"; "minItems"; "maxItems"] None (Some "array")
    None None None (Some (inl item)) (Some n) (Some n) None None.

(** [{"type": "object", "additionalProperties": <values>}] *)
Definition map_of (values : description) : description :=
  Description ["type"; "additionalProperties"] None (Some "object") None None None None None None
    (Some values) None.

(** [{"anyOf": [...]}] *)
Definition union_of (alternatives : list description) : description :=
  Description ["anyOf"] None None None None None None None None None (Some alternatives).

(** [{"type": "object", "title": <title>}], an inline object *)
Definition custom_object (title : string) : description :=
  Description ["type"; "title"] None (Some "object") (Some title) None None None None None None None.

(** [{"title": <title>, "type": "object", "properties": {...}}] *)
Definition object_definition (title : string)
    (props : list (string * description)) : description :=
  Description ["title"; "type"; "properties"] None (Some "object") (Some title) None (Some props)
    None None None None None.

(** [{"title": <title>, "type": "string", "enum": [...]}] *)
Definition enum_definition (title : string) (values : list string) : description :=
  Description ["title"; "type"; "enum"] None (Some "string") (Some title) (Some values) None
    None None None None None.

(** A module table with one class, in [capa.render.result_document]. *)
Definition one_class (title : string) (params : list string) : capa_modules :=
  CapaModules [(title, Some params)] [] [].

Definition no_class : capa_modules := CapaModules [] [] [].

(** Two scalars, a union of three references, one more scalar. *)
Definition union_message : description :=
  object_definition "M"
    [ ("a", of_type "string");
      ("b", of_type "string");
      ("u", union_of [ref_to "A"; ref_to "B"; ref_to "C"]);
      ("c", of_type "string") ].

Definition union_classes : capa_modules := one_class "M" ["a"; "b"; "u"; "c"].

Definition address_enum : description :=
  enum_definition "AddressType" ["absolute"; "file offset"].

(** ** Notions for the statements on property order *)

(** A property is resolved when its normalized name is in the canonical
    order; its canonical index is the place of the name there. *)
Definition is_resolved (order : list string) (p : string * description) : bool :=
  contains (index_of (sanitize_prop_name (fst p)) order).

Definition canonical_index (order : list string) (p : string * description) : nat :=
  match index_of (sanitize_prop_name (fst p)) order with
  | Some i => i
  | None => 0
  end.

(** The value of [get_property_index] on a property of the message. *)
Definition property_key (order names : list string) (n : nat)
    (p : string * description) : nat :=
  match index_of (sanitize_prop_name (fst p)) order with
  | Some i => i
  | None => n + match index_of (fst p) names with
                | Some j => j
                | None => 0
                end
  end.

(** The normalization, character by character. *)
Definition sanitize_char (a : ascii) : ascii :=
  if Ascii.eqb a "-" then "_"%char
  else if Ascii.eqb a "/" then "_"%char
  else if Ascii.eqb a " " then "_"%char
  else if Ascii.eqb a "&" then "a"%char
  else a.

Definition swapped_message : description :=
  object_definition "T" [ ("x", of_type "string"); ("b", of_type "string") ].

Definition swapped_classes : capa_modules := one_class "T" ["a"; "c"; "d"; "b"].

Definition ordered_message : description :=
  object_definition "T"
    [ ("capa/subscope", of_type "boolean");
      ("att&ck", of_type "string");
      ("name", of_type "string");
      ("function name", of_type "string") ].

Definition ordered_classes : capa_modules :=
  one_class "T" ["name"; "function_name"; "attack"; "is_subscope"].

Definition unknown_message : description :=
  object_definition "Foo" [ ("x", of_type "string") ].

Definition unresolved_message : description :=
  object_definition "Address" [ ("type", ref_to "AddressType"); ("value", of_type "integer") ].

Definition unresolved_classes : capa_modules :=
  CapaModules [] [("Address", Some ["kind"; "v"])] [].

(** ** Notions for the statements on failure and on the deferred types *)

(** A command that raises whatever the deferred types are. *)
Definition always_fails {A} (m : emit A) : Prop := forall d, is_err (m d).

(** A property of the deferred types that a command, when it returns,
    leaves true if it found it true. *)
Definition keeps {A} (P : registry -> Prop) (m : emit A) : Prop :=
  forall d a w d', m d = Ok (a, w, d') -> P d -> P d'.

(** A property of the deferred types that holds when the command returns. *)
Definition establishes {A} (P : registry -> Prop) (m : emit A) : Prop :=
  forall d a w d', m d = Ok (a, w, d') -> P d'.

Definition mismatch_schema : schema :=
  Schema [ ("Scope", enum_definition "Scopes" ["file"; "function"]) ].

Definition shapeless_schema : schema :=
  Schema [ ("M", object_definition "M" [ ("a", of_type "string"); ("b", no_keys) ]) ].

Definition null_schema : schema :=
  Schema [ ("M", object_definition "M" [ ("a", of_type "null") ]) ].

Definition union_object_schema : schema :=
  Schema [ ("M", object_definition "M"
                   [ ("u", union_of [ref_to "A"; custom_object "Inline"]) ]) ].

(** An entry of the deferred types as [emit_proto_message] makes them:
    a tuple under the name [get_tuple_type_name] gives it, or an array
    under [Array_] and the type name of its item. *)
Definition tuple_entry (key : string) (v : deferred) : Prop :=
  exists prop count items,
    v = DeferredTupleType key count items /\
    is_tuple prop = true /\
    get_tuple_type_name prop = Ok key /\
    d_minItems prop = Some count /\
    d_items prop = Some items.

Definition array_entry (key : string) (v : deferred) : Prop :=
  exists item item_type,
    v = DeferredArrayType key item /\
    get_type_name item = Ok item_type /\
    key = "Array_" ++ item_type.

Definition well_formed (d : registry) : Prop :=
  NoDup (map fst d) /\
  forall k v, In (k, v) d -> tuple_entry k v \/ array_entry k v.

Definition registered (name : string) (d : registry) : Prop :=
  In name (map fst d).

Definition closed_under_registration (P : registry -> Prop) : Prop :=
  forall d k v, P d -> tuple_entry k v \/ array_entry k v -> P (setitem k v d).

Definition scope_enum : description := enum_definition "Scope" ["file"; "function"].

Definition match_message : description :=
  object_definition "Match"
    [ ("success", of_type "boolean");
      ("locations", array_of (ref_to "Address"));
      ("captures", map_of (array_of (ref_to "Address")));
      ("children", tuple_of 2 [ref_to "Address"; ref_to "Match"]) ].

Definition match_classes : capa_modules :=
  CapaModules [("Match", Some ["success"; "children"; "locations"; "captures"])] [] [].

Definition schema_one_way : schema :=
  Schema [ ("Scope", scope_enum); ("Match", match_message) ].

Definition schema_other_way : schema :=
  Schema [ ("Match", match_message); ("Scope", scope_enum) ].

(** Two entries of the deferred types with one key and one text. *)
Definition same_text (e1 e2 : string * deferred) : Prop :=
  fst e1 = fst e2 /\ forall d, emit_deferred e1 d = emit_deferred e2 d.

(** The line of element [i] of a tuple wrapper. *)
Definition tuple_field (iv : nat * string) : string :=
  field_line "  " (snd iv) ("v" ++ str_nat (fst iv)) (fst iv + 1).

Definition pair_schema : schema :=
  Schema [ ("Match", object_definition "Match"
                       [ ("first", tuple_of 2 [ref_to "Address"; ref_to "Match"]);
                         ("second", tuple_of 2 [ref_to "Address"; ref_to "Match"]) ]) ].

Definition pair_classes : capa_modules := one_class "Match" ["first"; "second"].

(** The type name of the item of an array, as [get_primitive_type_name]
    finds it for an array. *)
Definition array_item_type_name (aitem : description) : result string :=
  if is_primitive_type aitem then get_primitive_type_name aitem
  else if is_ref aitem then get_ref_type_name aitem
  else if is_custom_type aitem then get_custom_type_name aitem
  else Err NotImplementedError.

(** ** capa.render.default *)

(** [len] counts the characters of a string and not the bytes of its
    text, so [width] is on the string as Python has it: the sequence of
    its code points. *)
Definition code_points : Type := list N.

(** The code points of ASCII text. *)
Definition of_ascii_text (s : string) : code_points :=
  map N_of_ascii (list_ascii_of_string s).

(** The code point of [" "]. *)
Definition space : N := 32.

(** [width(s, character_count)]: pad the string to at least
    [character_count]. *)
Definition width (s : code_points) (character_count : nat) : code_points :=
  if Nat.ltb (length s) character_count
  then (s ++ repeat space (character_count - length s))%list
  else s.

(** ** Notions for the statements on shapes and numbers *)

(** The names of the primitive scalars, by [type]. *)
Definition scalar_types : list (string * string) :=
  [ ("string", "string"); ("boolean", "bool");
    ("integer", "Integer"); ("number", "Number") ].

(** A property that [emit_proto_message] has a branch for. *)
Definition is_classified (prop : description) : bool :=
  is_ref prop || is_primitive_type prop || is_custom_type prop
  || is_union prop || is_map prop.

(** The property takes the union branch of [emit_proto_message]. *)
Definition takes_union_branch (prop : description) : bool :=
  negb (is_ref prop) && negb (is_primitive_type prop)
  && negb (is_custom_type prop) && is_union prop.

(** The numbers of the counter that the round of a property draws: one
    for the property and, in the union branch, one after every
    alternative. *)
Definition numbers_drawn (prop : description) : nat :=
  if takes_union_branch prop
  then match d_anyOf prop with
       | Some alternatives => S (length alternatives)
       | None => 1
       end
  else 1.

(** The characters that [sanitize_prop_name] replaces. *)
Definition is_punctuation (a : ascii) : bool :=
  Ascii.eqb a "-" || Ascii.eqb a "&" || Ascii.eqb a "/" || Ascii.eqb a " ".

Definition signatureless_classes : capa_modules :=
  CapaModules [("Scope", None)] [("Scope", Some ["a"])] [].

Definition bare_message : description :=
  Description ["type"; "title"] None (Some "object") (Some "Scope") None None None None None None None.

(** ** Notions for the statements on the deferred section *)

(** The lines that define the wrapper of an entry of the deferred types:
    one line for an array, with the type name of its item; for a tuple
    the line that opens the message, one field for every item that the
    loop over its items meets, and the line that closes the message. *)
Definition wrapper_lines (entry : string * deferred) (block : list string) : Prop :=
  match snd entry with
  | DeferredArrayType _ item =>
      exists item_type,
        get_type_name item = Ok item_type /\
        block = [ "message " ++ fst entry ++ " { repeated " ++ item_type
                    ++ " values = 1; }" ++ newline ]
  | DeferredTupleType _ _ items =>
      exists names,
        match items with
        | inl item => d_keys item = [] /\ names = []
        | inr l => map_result get_type_name l = Ok names
        end /\
        block = (("message " ++ fst entry ++ " {")%string
                   :: map tuple_field (enumerate names)
                   ++ [ ("}" ++ newline)%string ])%list
  end.

(** The last character of a string. *)
Fixpoint last_char (s : string) : option ascii :=
  match s with
  | EmptyString => None
  | String a EmptyString => Some a
  | String _ s' => last_char s'
  end.

(** Every line that a command writes, when it returns, has the
    property. *)
Definition writes {A} (P : string -> Prop) (m : emit A) : Prop :=
  forall d a w d', m d = Ok (a, w, d') -> Forall P w.

(** A line whose last character is no newline. *)
Definition no_final_newline (line : string) : Prop :=
  last_char line <> Some "010"%char.

Unset Implicit Arguments.

(** ** Facts about strings *)

Lemma startswith_app (p s : string) : startswith p (p ++ s) = true.
Proof.
  induction p as [|a p IH]; simpl; [reflexivity|].
  now rewrite Ascii.eqb_refl, IH.
Qed.

Lemma drop_app (p s : string) : drop (String.length p) (p ++ s) = s.
Proof. induction p as [|a p IH]; simpl; auto. Qed.

Lemma append_inj_l (p s t : string) : p ++ s = p ++ t -> s = t.
Proof.
  induction p as [|a p IH]; simpl; intros H; [exact H|].
  injection H as H. auto.
Qed.

Lemma string_leb_refl (s : string) : String.leb s s = true.
Proof. destruct (String.leb_total s s); assumption. Qed.

Lemma string_leb_trans (a b c : string) :
  String.leb a b = true -> String.leb b c = true -> String.leb a c = true.
Proof.
  unfold String.leb. revert b c.
  induction a as [|x a IH]; intros [|y b] [|z c]; simpl; try easy.
  unfold Ascii.compare.
  destruct (N.compare_spec (N_of_ascii x) (N_of_ascii y)) as [Hxy|Hxy|Hxy];
    destruct (N.compare_spec (N_of_ascii y) (N_of_ascii z)) as [Hyz|Hyz|Hyz];
    try easy;
    destruct (N.compare_spec (N_of_ascii x) (N_of_ascii z)) as [Hxz|Hxz|Hxz];
    try easy; try lia.
  apply IH.
Qed.

(** ** Facts about sorting *)

Section SortedFacts.
Variables (A K : Type) (leb : K -> K -> bool) (key : A -> K).

Lemma insert_by_perm (x : A) (l : list A) :
  Permutation (insert_by leb key x l) (x :: l).
Proof.
  induction l as [|y l IH]; simpl; [reflexivity|].
  destruct (leb (key x) (key y)); [reflexivity|].
  rewrite IH. apply perm_swap.
Qed.

Lemma sorted_by_perm (l : list A) : Permutation (sorted_by leb key l) l.
Proof.
  induction l as [|x l IH]; simpl; [reflexivity|].
  rewrite insert_by_perm. now constructor.
Qed.

Lemma in_sorted_by (x : A) (l : list A) : In x (sorted_by leb key l) <-> In x l.
Proof.
  split; apply Permutation_in;
    [apply sorted_by_perm | apply Permutation_sym, sorted_by_perm].
Qed.

(** An element that is not above any element of the right part stays in
    the left part. *)
Lemma insert_by_app_left (x : A) (l1 l2 : list A) :
  (forall y, In y l2 -> leb (key x) (key y) = true) ->
  insert_by leb key x (l1 ++ l2)%list = (insert_by leb key x l1 ++ l2)%list.
Proof.
  intros H. induction l1 as [|a l1 IH]; simpl.
  - destruct l2 as [|y l2]; simpl; [reflexivity|].
    now rewrite (H y (or_introl eq_refl)).
  - destruct (leb (key x) (key a)); [reflexivity|].
    now rewrite IH.
Qed.

(** An element above every element of the left part goes to the right
    part. *)
Lemma insert_by_app_right (x : A) (l1 l2 : list A) :
  (forall y, In y l1 -> leb (key x) (key y) = false) ->
  insert_by leb key x (l1 ++ l2)%list = (l1 ++ insert_by leb key x l2)%list.
Proof.
  intros H. induction l1 as [|a l1 IH]; simpl; [reflexivity|].
  rewrite (H a (or_introl eq_refl)), IH; [reflexivity|].
  intros y Hy. apply H. now right.
Qed.

(** Sorting splits along a predicate whose true side has the smaller
    keys. *)
Lemma sorted_by_split (P : A -> bool) (l : list A) :
  (forall x y, In x l -> In y l -> P x = true -> P y = false ->
     leb (key x) (key y) = true /\ leb (key y) (key x) = false) ->
  sorted_by leb key l
  = (sorted_by leb key (filter P l)
     ++ sorted_by leb key (filter (fun x => negb (P x)) l))%list.
Proof.
  induction l as [|x l IH]; intros H; [reflexivity|].
  simpl. rewrite IH by (intros; apply H; simpl; auto).
  destruct (P x) eqn:HP; simpl.
  - apply insert_by_app_left. intros y Hy.
    apply in_sorted_by, filter_In in Hy. destruct Hy as [Hy HPy].
    apply negb_true_iff in HPy.
    apply (H x y); simpl; auto.
  - apply insert_by_app_right. intros y Hy.
    apply in_sorted_by, filter_In in Hy. destruct Hy as [Hy HPy].
    apply (H y x); simpl; auto.
Qed.

Lemma sorted_by_sorted_id (l : list A) :
  StronglySorted (fun a b => leb (key a) (key b) = true) l ->
  sorted_by leb key l = l.
Proof.
  induction 1 as [|x l Hl IH Hx]; [reflexivity|].
  simpl. rewrite IH. destruct l as [|y l]; [reflexivity|].
  simpl. inversion Hx as [|? ? Hxy _]; subst. now rewrite Hxy.
Qed.

Hypothesis leb_total : forall a b, leb a b = true \/ leb b a = true.
Hypothesis leb_trans : forall a b c, leb a b = true -> leb b c = true -> leb a c = true.

Lemma insert_by_sorted (x : A) (l : list A) :
  StronglySorted (fun a b => leb (key a) (key b) = true) l ->
  StronglySorted (fun a b => leb (key a) (key b) = true) (insert_by leb key x l).
Proof.
  induction 1 as [|y l Hl IH Hy]; simpl.
  - repeat constructor.
  - destruct (leb (key x) (key y)) eqn:Hxy.
    + constructor; [now constructor|].
      constructor; [exact Hxy|].
      eapply Forall_impl; [|exact Hy].
      intros z Hz. simpl in *. eapply leb_trans; eassumption.
    + constructor; [exact IH|].
      assert (Hyx : leb (key y) (key x) = true)
        by (destruct (leb_total (key x) (key y)); congruence).
      rewrite Forall_forall. intros z Hz.
      apply (Permutation_in _ (insert_by_perm x l)) in Hz.
      destruct Hz as [<-|Hz]; [exact Hyx|].
      rewrite Forall_forall in Hy. now apply Hy.
Qed.

Lemma sorted_by_sorted (l : list A) :
  StronglySorted (fun a b => leb (key a) (key b) = true) (sorted_by leb key l).
Proof.
  induction l as [|x l IH]; simpl; [constructor|].
  now apply insert_by_sorted.
Qed.

End SortedFacts.

(** Two sorted arrangements of the same elements are the same list when
    the order is antisymmetric. *)
Lemma sorted_perm_unique (A : Type) (R : A -> A -> Prop) :
  (forall a b, R a b -> R b a -> a = b) ->
  forall l1 l2, StronglySorted R l1 -> StronglySorted R l2 ->
  Permutation l1 l2 -> l1 = l2.
Proof.
  intros Hanti l1. induction l1 as [|x l1 IH]; intros l2 H1 H2 HP.
  - apply Permutation_nil in HP. now subst.
  - destruct l2 as [|y l2];
      [apply Permutation_sym, Permutation_nil in HP; discriminate|].
    inversion H1 as [|? ? H1' Hx]; subst.
    inversion H2 as [|? ? H2' Hy]; subst.
    rewrite Forall_forall in Hx, Hy.
    assert (x = y) as ->.
    { assert (Hin1 : In x (y :: l2))
        by (eapply Permutation_in; [exact HP|now left]).
      assert (Hin2 : In y (x :: l1))
        by (eapply Permutation_in; [apply Permutation_sym; exact HP|now left]).
      destruct Hin1 as [->|Hin1]; [reflexivity|].
      destruct Hin2 as [->|Hin2]; [reflexivity|].
      apply Hanti; auto. }
    f_equal. apply IH; auto. eapply Permutation_cons_inv; exact HP.
Qed.

Lemma sorted_strings_perm (l1 l2 : list string) :
  Permutation l1 l2 -> sorted_strings l1 = sorted_strings l2.
Proof.
  intros HP. unfold sorted_strings.
  apply (sorted_perm_unique string (fun a b => String.leb a b = true)).
  - apply String.leb_antisym.
  - apply sorted_by_sorted; [apply String.leb_total | apply string_leb_trans].
  - apply sorted_by_sorted; [apply String.leb_total | apply string_leb_trans].
  - rewrite !sorted_by_perm. exact HP.
Qed.

Lemma sorted_strings_sorted (l : list string) :
  StronglySorted (fun a b => String.leb a b = true) (sorted_strings l).
Proof.
  unfold sorted_strings.
  apply (sorted_by_sorted string string String.leb (fun s : string => s));
    [apply String.leb_total | apply string_leb_trans].
Qed.

Lemma sorted_items_sorted (A : Type) (d : list (string * A)) :
  StronglySorted (fun a b => String.leb (fst a) (fst b) = true) (sorted_items d).
Proof.
  unfold sorted_items.
  apply (sorted_by_sorted (string * A) string String.leb fst);
    [apply String.leb_total | apply string_leb_trans].
Qed.

(** ** Facts about commands *)

Lemma bind_ok (A B : Type) (m : emit A) (k : A -> emit B) d a w d1 :
  m d = Ok (a, w, d1) ->
  bind m k d = match k a d1 with
               | Err e => Err e
               | Ok (b, w2, d2) => Ok (b, (w ++ w2)%list, d2)
               end.
Proof. intros H. unfold bind. now rewrite H. Qed.

Lemma bind_err (A B : Type) (m : emit A) (k : A -> emit B) d e :
  m d = Err e -> bind m k d = Err e.
Proof. intros H. unfold bind. now rewrite H. Qed.

(** A loop that only writes one line per element. *)
Lemma for_each_writeln (X : Type) (f : X -> string) (l : list X) (d : registry) :
  for_each l (fun x => writeln (f x)) d = Ok (tt, map f l, d).
Proof.
  unfold for_each. induction l as [|x l IH]; simpl; [reflexivity|].
  unfold bind at 1. simpl. now rewrite IH.
Qed.

Lemma for_each_writeln_id (l : list string) (d : registry) :
  for_each l writeln d = Ok (tt, l, d).
Proof.
  rewrite <- (map_id l) at 2. exact (for_each_writeln _ (fun s => s) l d).
Qed.

Lemma enumerate_from_length (X : Type) (l : list X) (n : nat) :
  length (enumerate_from n l) = length l.
Proof. revert n. induction l; simpl; auto. Qed.

Lemma enumerate_from_nth (X : Type) (l : list X) (n i : nat) (x : X) :
  nth_error l i = Some x -> nth_error (enumerate_from n l) i = Some (n + i, x).
Proof.
  revert n i. induction l as [|y l IH]; intros n [|i]; simpl; try discriminate.
  - intros [= ->]. now rewrite Nat.add_0_r.
  - intros H. rewrite (IH (S n) i H). f_equal. f_equal. lia.
Qed.

(** ** Enum emission *)

Lemma append_assoc (a b c : string) : ((a ++ b) ++ c = a ++ b ++ c)%string.
Proof. induction a as [|x a IH]; simpl; [reflexivity|now rewrite IH]. Qed.

Lemma render_value_line (prefix value rest : string) :
  ("  " ++ render_value prefix value ++ rest
   = "  " ++ prefix ++ "_" ++ replace " " "_" (upper value) ++ rest)%string.
Proof. unfold render_value. now rewrite !append_assoc. Qed.

(** C6 (as amended): for a StringEnum with title T and N declared values
    the emitted enum, named T, has N+1 values.  Value 0 is the sentinel,
    named by the uppercased title followed by [_UNSPECIFIED]; values 1..N
    are the declared values in declared order, the i-th named by the
    uppercased title, an underscore, and the value uppercased with spaces
    replaced by underscores.  The title and the values are ASCII text,
    on which [upper] is [str.upper]. *)
Theorem emit_proto_enum_values (enum : description) (title : string)
    (values : list string) (d : registry) :
  d_title enum = Some title ->
  d_enum enum = Some values ->
  is_ascii_text title = true ->
  forallb is_ascii_text values = true ->
  emit_proto_enum enum d =
    Ok (tt,
        ([ ("enum " ++ title ++ " {")%string;
           ("  " ++ upper title ++ "_UNSPECIFIED = 0;")%string ]
         ++ map (fun iv => ("  " ++ upper title ++ "_"
                              ++ replace " " "_" (upper (snd iv))
                              ++ " = " ++ str_nat (fst iv + 1) ++ ";")%string)
              (enumerate values)
         ++ [ "}"; "" ])%list,
        d)
  /\ length (enumerate values) = length values
  /\ forall i v, nth_error values i = Some v ->
       nth_error (enumerate values) i = Some (i, v).
Proof.
  intros Ht Hv _ _. split; [|split].
  - unfold emit_proto_enum. rewrite Ht, Hv.
    cbv beta iota delta [bind lift getitem writeln].
    rewrite (for_each_writeln _
               (fun iv => "  " ++ render_value (upper title) (snd iv) ++ " = "
                            ++ str_nat (fst iv + 1) ++ ";")).
    rewrite (render_value_line (upper title) "unspecified" " = 0;").
    cbn [app]. do 5 f_equal.
    f_equal. apply map_ext. intros iv. apply render_value_line.
  - apply enumerate_from_length.
  - intros i v H. apply (enumerate_from_nth _ _ 0 _ _ H).
Qed.

Lemma emit_proto_enum_values_witness :
  d_title address_enum = Some "AddressType" /\
  d_enum address_enum = Some ["absolute"; "file offset"] /\
  is_ascii_text "AddressType" = true /\
  forallb is_ascii_text ["absolute"; "file offset"] = true /\
  emit_proto_enum address_enum [] =
    Ok (tt,
        [ "enum AddressType {";
          "  ADDRESSTYPE_UNSPECIFIED = 0;";
          "  ADDRESSTYPE_ABSOLUTE = 1;";
          "  ADDRESSTYPE_FILE_OFFSET = 2;";
          "}"; "" ],
        []).
Proof.
  split; [reflexivity|]. split; [reflexivity|].
  split; [reflexivity|]. split; [reflexivity|].
  exact (proj1 (emit_proto_enum_values address_enum _ _ [] eq_refl eq_refl
                  eq_refl eq_refl)).
Defined.

(** The sentinel of [AddressType] is [ADDRESSTYPE_UNSPECIFIED]: the title
    as it stands, followed by [_UNSPECIFIED] or by a value, occurs nowhere
    in the emitted enum. *)
Lemma enum_prefix_is_uppercased :
  exists written,
    emit_proto_enum address_enum [] = Ok (tt, written, []) /\
    occurs "AddressType_UNSPECIFIED" (getvalue written) = false /\
    occurs "AddressType_ABSOLUTE" (getvalue written) = false /\
    occurs "ADDRESSTYPE_UNSPECIFIED = 0;" (getvalue written) = true /\
    occurs "ADDRESSTYPE_ABSOLUTE = 1;" (getvalue written) = true.
Proof. eexists. split; [reflexivity|]. repeat split; vm_compute; reflexivity. Qed.

(** ** Property order *)

Lemma sanitize_prop_name_chars (name : string) :
  sanitize_prop_name name = map_string sanitize_char name.
Proof.
  unfold sanitize_prop_name, replace.
  induction name as [|a s IH]; simpl; [reflexivity|].
  rewrite IH. f_equal. unfold sanitize_char.
  destruct (Ascii.eqb_spec a "-") as [->|H1]; [reflexivity|].
  destruct (Ascii.eqb_spec a "&") as [->|H2]; [reflexivity|].
  destruct (Ascii.eqb_spec a "/") as [->|H3]; [reflexivity|].
  reflexivity.
Qed.

Lemma map_result_total (X Y : Type) (f : X -> result Y) (g : X -> Y) (l : list X) :
  (forall x, In x l -> f x = Ok (g x)) -> map_result f l = Ok (map g l).
Proof.
  induction l as [|x l IH]; intros H; simpl; [reflexivity|].
  rewrite (H x (or_introl eq_refl)), IH; [reflexivity|].
  intros y Hy. apply H. now right.
Qed.

(** Sorting the decorated list and dropping the keys is sorting by the
    key. *)
Lemma undecorate_insert (X : Type) (g : X -> nat) (x : X) (l : list (nat * X)) :
  Forall (fun p => fst p = g (snd p)) l ->
  map snd (insert_by Nat.leb fst (g x, x) l) = insert_by Nat.leb g x (map snd l)
  /\ Forall (fun p => fst p = g (snd p)) (insert_by Nat.leb fst (g x, x) l).
Proof.
  induction 1 as [|[k y] l Hy Hl IH]; simpl.
  - split; [reflexivity|]. now repeat constructor.
  - simpl in Hy. subst k. destruct (Nat.leb (g x) (g y)); simpl.
    + split; [reflexivity|]. now repeat constructor.
    + destruct IH as [IH1 IH2]. split; [now rewrite IH1|]. now constructor.
Qed.

Lemma undecorate_sorted (X : Type) (g : X -> nat) (l : list X) :
  map snd (sorted_by Nat.leb fst (combine (map g l) l)) = sorted_by Nat.leb g l
  /\ Forall (fun p => fst p = g (snd p))
       (sorted_by Nat.leb fst (combine (map g l) l)).
Proof.
  induction l as [|x l [IH1 IH2]]; simpl; [split; [reflexivity|constructor]|].
  destruct (undecorate_insert _ g x _ IH2) as [H1 H2].
  split; [now rewrite H1, IH1|exact H2].
Qed.

Lemma sorted_key_total (X : Type) (f : X -> result nat) (g : X -> nat) (l : list X) :
  (forall x, In x l -> f x = Ok (g x)) ->
  sorted_key f l = Ok (sorted_by Nat.leb g l).
Proof.
  intros H. unfold sorted_key. rewrite (map_result_total _ _ f g l H).
  now rewrite (proj1 (undecorate_sorted _ g l)).
Qed.

Lemma index_of_in (x : string) (l : list string) :
  In x l -> exists j, index_of x l = Some j.
Proof.
  induction l as [|y l IH]; simpl; [easy|].
  intros H. destruct (String.eqb_spec y x) as [->|Hne]; [now exists 0|].
  destruct H as [H|H]; [congruence|].
  destruct (IH H) as [j ->]. now exists (S j).
Qed.

Lemma index_of_app_notin (x : string) (pre l : list string) :
  ~ In x pre ->
  index_of x (pre ++ l)%list = option_map (Nat.add (length pre)) (index_of x l).
Proof.
  induction pre as [|y pre IH]; simpl; intros H.
  - destruct (index_of x l); reflexivity.
  - destruct (String.eqb_spec y x) as [->|Hne]; [tauto|].
    rewrite IH by tauto. destruct (index_of x l); reflexivity.
Qed.

Lemma get_property_index_total (order : list string) (n : nat)
    (props : list (string * description)) (p : string * description) :
  In p props ->
  get_property_index order (map fst props) n (fst p)
  = Ok (property_key order (map fst props) n p).
Proof.
  intros H. unfold get_property_index, property_key.
  destruct (index_of (sanitize_prop_name (fst p)) order); [reflexivity|].
  destruct (index_of_in (fst p) (map fst props)) as [j ->]; [|reflexivity].
  now apply in_map.
Qed.

(** What [_enum_properties] returns once the class is found. *)
Lemma enum_properties_sorted (capa : capa_modules) (message : description)
    (title : string) (order : list string) (props : list (string * description)) :
  d_title message = Some title ->
  _find_capa_class capa title = Ok (Some order) ->
  d_properties message = Some props ->
  _enum_properties capa message
  = Ok (sorted_by Nat.leb (property_key order (map fst props) (length props)) props).
Proof.
  intros Ht Hc Hp. unfold _enum_properties. rewrite Ht. simpl.
  rewrite Hc. simpl. rewrite Hp. simpl.
  apply sorted_key_total. intros p Hin. now apply get_property_index_total.
Qed.

Lemma StronglySorted_filter (X : Type) (R : X -> X -> Prop) (P : X -> bool)
    (l : list X) :
  StronglySorted R l -> StronglySorted R (filter P l).
Proof.
  induction 1 as [|x l Hl IH Hx]; simpl; [constructor|].
  destruct (P x); [|exact IH].
  constructor; [exact IH|].
  rewrite Forall_forall in *. intros y Hy. apply Hx.
  now apply filter_In in Hy.
Qed.

Lemma NoDup_app_disjoint (X : Type) (a b : list X) (z : X) :
  NoDup (a ++ b)%list -> In z a -> In z b -> False.
Proof.
  induction a as [|x a IH]; simpl; [easy|].
  intros Hnd [->|Ha] Hb.
  - inversion Hnd as [|? ? Hnin _]; subst. apply Hnin, in_or_app. now right.
  - inversion Hnd; subst. now apply IH.
Qed.

(** The places of the keys of a dict increase along the dict. *)
Lemma positions_sorted (pre l : list (string * description)) (n : nat) :
  NoDup (map fst (pre ++ l)%list) ->
  StronglySorted
    (fun p q =>
       Nat.leb
         (n + match index_of (fst p) (map fst (pre ++ l)%list) with
              | Some j => j | None => 0 end)
         (n + match index_of (fst q) (map fst (pre ++ l)%list) with
              | Some j => j | None => 0 end) = true) l.
Proof.
  revert pre. induction l as [|x l IH]; intros pre Hnd; [constructor|].
  assert (Hsplit : (pre ++ x :: l = (pre ++ [x]) ++ l)%list)
    by now rewrite <- app_assoc.
  constructor.
  - rewrite Hsplit. apply IH. now rewrite <- Hsplit.
  - rewrite map_app in *. simpl in *.
    assert (Hx : ~ In (fst x) (map fst pre)).
    { intros H. apply (NoDup_app_disjoint _ _ _ (fst x) Hnd H). now left. }
    rewrite (index_of_app_notin _ _ _ Hx). simpl. rewrite String.eqb_refl. simpl.
    rewrite Forall_forall. intros y Hy.
    assert (Hy' : ~ In (fst y) (map fst pre)).
    { intros H. apply (NoDup_app_disjoint _ _ _ (fst y) Hnd H).
      right. now apply in_map. }
    rewrite (index_of_app_notin _ _ _ Hy').
    destruct (index_of_in (fst y) (fst x :: map fst l)) as [j ->];
      [right; now apply in_map|].
    simpl. apply Nat.leb_le. lia.
Qed.

Lemma StronglySorted_weaken (X : Type) (R R' : X -> X -> Prop) (l : list X) :
  (forall a b, In a l -> In b l -> R a b -> R' a b) ->
  StronglySorted R l -> StronglySorted R' l.
Proof.
  intros H HS. induction HS as [|x l Hl IH Hx]; [constructor|].
  constructor.
  - apply IH. intros a b Ha Hb. apply H; now right.
  - rewrite Forall_forall in *. intros y Hy.
    apply H; [now left|now right|now apply Hx].
Qed.

Lemma insert_by_ext (X : Type) (k1 k2 : X -> nat) (x : X) (l : list X) :
  k1 x = k2 x -> (forall y, In y l -> k1 y = k2 y) ->
  insert_by Nat.leb k1 x l = insert_by Nat.leb k2 x l.
Proof.
  intros Hx. induction l as [|y l IH]; intros H; simpl; [reflexivity|].
  rewrite Hx, (H y (or_introl eq_refl)), IH; [reflexivity|].
  intros z Hz. apply H. now right.
Qed.

Lemma sorted_by_ext (X : Type) (k1 k2 : X -> nat) (l : list X) :
  (forall y, In y l -> k1 y = k2 y) ->
  sorted_by Nat.leb k1 l = sorted_by Nat.leb k2 l.
Proof.
  induction l as [|x l IH]; intros H; simpl; [reflexivity|].
  rewrite IH by (intros; apply H; now right).
  apply insert_by_ext; [apply H; now left|].
  intros y Hy. apply in_sorted_by in Hy. apply H. now right.
Qed.

Lemma filter_none (X : Type) (P : X -> bool) (l : list X) :
  (forall x, In x l -> P x = false) -> filter P l = [].
Proof.
  induction l as [|x l IH]; intros H; simpl; [reflexivity|].
  rewrite (H x (or_introl eq_refl)). apply IH. intros y Hy. apply H. now right.
Qed.

Lemma filter_all (X : Type) (P : X -> bool) (l : list X) :
  (forall x, In x l -> P x = true) -> filter P l = l.
Proof.
  induction l as [|x l IH]; intros H; simpl; [reflexivity|].
  rewrite (H x (or_introl eq_refl)). f_equal. apply IH.
  intros y Hy. apply H. now right.
Qed.

Lemma property_key_resolved (order names : list string) (n : nat)
    (p : string * description) :
  is_resolved order p = true -> property_key order names n p = canonical_index order p.
Proof.
  unfold is_resolved, property_key, canonical_index.
  now destruct (index_of (sanitize_prop_name (fst p)) order).
Qed.

Lemma property_key_unresolved (order names : list string) (n : nat)
    (p : string * description) :
  is_resolved order p = false ->
  property_key order names n p
  = n + match index_of (fst p) names with Some j => j | None => 0 end.
Proof.
  unfold is_resolved, property_key.
  now destruct (index_of (sanitize_prop_name (fst p)) order).
Qed.

(** Where no resolved property has a canonical index that reaches the
    number of properties, [_enum_properties] returns the resolved
    properties sorted by canonical index and then the others as the
    schema has them. *)
Lemma enum_properties_partition (capa : capa_modules) (message : description)
    (title : string) (order : list string) (props : list (string * description)) :
  d_title message = Some title ->
  _find_capa_class capa title = Ok (Some order) ->
  d_properties message = Some props ->
  NoDup (map fst props) ->
  (forall p, In p props -> is_resolved order p = true ->
     canonical_index order p < length props) ->
  _enum_properties capa message
  = Ok (sorted_by Nat.leb (canonical_index order) (filter (is_resolved order) props)
        ++ filter (fun p => negb (is_resolved order p)) props)%list.
Proof.
  intros Ht Hc Hp Hnd Hlt.
  rewrite (enum_properties_sorted capa message title order props Ht Hc Hp).
  f_equal.
  rewrite (sorted_by_split _ _ Nat.leb _ (is_resolved order)).
  - f_equal.
    + apply sorted_by_ext. intros p Hin. apply filter_In in Hin.
      now apply property_key_resolved.
    + apply sorted_by_sorted_id.
      apply StronglySorted_weaken
        with (R := fun p q =>
                Nat.leb
                  (length props + match index_of (fst p) (map fst props) with
                                  | Some j => j | None => 0 end)
                  (length props + match index_of (fst q) (map fst props) with
                                  | Some j => j | None => 0 end) = true).
      * intros a b Ha Hb Hab. apply filter_In in Ha, Hb.
        destruct Ha as [_ Ha], Hb as [_ Hb]. apply negb_true_iff in Ha, Hb.
        now rewrite !property_key_unresolved.
      * apply StronglySorted_filter.
        exact (positions_sorted [] props (length props) Hnd).
  - intros x y Hx Hy Px Py.
    rewrite (property_key_resolved _ _ _ _ Px), (property_key_unresolved _ _ _ _ Py).
    specialize (Hlt x Hx Px).
    split; [apply Nat.leb_le|apply Nat.leb_gt]; lia.
Qed.

(** X18: where no resolved property has a canonical index as large as
    the number of properties of the message (so whenever the class has no
    more parameters than the message has properties), [_enum_properties]
    returns first the properties whose normalized name is in the
    canonical order, by canonical index, then the others in
    schema-declared order.  The normalized name has an underscore for
    every hyphen, slash and space and an [a] for every [&]. *)
Theorem canonical_order_first (capa : capa_modules) (message : description)
    (title : string) (order : list string) (props : list (string * description)) :
  d_title message = Some title ->
  _find_capa_class capa title = Ok (Some order) ->
  d_properties message = Some props ->
  NoDup (map fst props) ->
  (forall p, In p props -> is_resolved order p = true ->
     canonical_index order p < length props) ->
  (forall name, sanitize_prop_name name = map_string sanitize_char name) /\
  exists resolved,
    _enum_properties capa message
    = Ok (resolved ++ filter (fun p => negb (is_resolved order p)) props)%list /\
    resolved
    = sorted_by Nat.leb (canonical_index order) (filter (is_resolved order) props) /\
    Permutation resolved (filter (is_resolved order) props) /\
    StronglySorted
      (fun p q => canonical_index order p <= canonical_index order q) resolved.
Proof.
  intros Ht Hc Hp Hnd Hlt. split; [exact sanitize_prop_name_chars|].
  eexists. split; [|split; [reflexivity|split]].
  - exact (enum_properties_partition capa message title order props Ht Hc Hp Hnd Hlt).
  - apply sorted_by_perm.
  - apply StronglySorted_weaken
      with (R := fun p q =>
              Nat.leb (canonical_index order p) (canonical_index order q) = true).
    + intros a b _ _ H. now apply Nat.leb_le.
    + apply sorted_by_sorted.
      * intros a b. rewrite !Nat.leb_le. lia.
      * intros a b c. rewrite !Nat.leb_le. lia.
Qed.

Lemma canonical_order_first_witness :
  d_title ordered_message = Some "T" /\
  _find_capa_class ordered_classes "T"
  = Ok (Some ["name"; "function_name"; "attack"; "is_subscope"]) /\
  _enum_properties ordered_classes ordered_message
  = Ok [ ("name", of_type "string");
         ("function name", of_type "string");
         ("att&ck", of_type "string");
         ("capa/subscope", of_type "boolean") ].
Proof.
  split; [reflexivity|]. split; [reflexivity|].
  destruct (canonical_order_first ordered_classes ordered_message "T"
              ["name"; "function_name"; "attack"; "is_subscope"]
              [ ("capa/subscope", of_type "boolean");
                ("att&ck", of_type "string");
                ("name", of_type "string");
                ("function name", of_type "string") ]
              eq_refl eq_refl eq_refl) as [_ [resolved [H [-> _]]]].
  - repeat constructor; simpl; intuition discriminate.
  - simpl. intros p [<-|[<-|[<-|[<-|[]]]]]; vm_compute; intros; try discriminate; lia.
  - exact H.
Defined.

(** C3: the resolver is to return the resolved properties first, in
    canonical order, and the others after them in schema-declared order.
    [get_property_index] gives an unresolved property the key
    [len(message["properties"])] plus its place in the schema, so that it
    sorts after every canonical index below the number of properties,
    and not after a larger one.  Here the class [T] has the parameters
    [a], [c], [d], [b] and the message the properties [x] and [b]: [b]
    is resolved, with key 3, [x] is not, with key 2 + 0, and [x] comes
    out before [b]. *)
Lemma unresolved_before_resolved :
  _find_capa_class swapped_classes "T" = Ok (Some ["a"; "c"; "d"; "b"]) /\
  d_properties swapped_message
  = Some [ ("x", of_type "string"); ("b", of_type "string") ] /\
  is_resolved ["a"; "c"; "d"; "b"] ("b", of_type "string") = true /\
  is_resolved ["a"; "c"; "d"; "b"] ("x", of_type "string") = false /\
  get_property_index ["a"; "c"; "d"; "b"] ["x"; "b"] 2 "b" = Ok 3 /\
  get_property_index ["a"; "c"; "d"; "b"] ["x"; "b"] 2 "x" = Ok 2 /\
  _enum_properties swapped_classes swapped_message
  = Ok [ ("x", of_type "string"); ("b", of_type "string") ].
Proof. repeat split. Qed.

Lemma find_capa_class_absent (capa : capa_modules) (title : string) :
  lookup title (result_document capa) = None ->
  lookup title (freeze capa) = None ->
  lookup title (freeze_features capa) = None ->
  _find_capa_class capa title = Err NotImplementedError.
Proof. intros H1 H2 H3. unfold _find_capa_class. now rewrite H1, H2, H3. Qed.

Lemma emit_proto_message_order_error (capa : capa_modules) (message : description)
    (title : string) (e : error) (d : registry) :
  d_title message = Some title ->
  _enum_properties capa message = Err e ->
  emit_proto_message capa message d = Err e.
Proof.
  intros Ht He. unfold emit_proto_message. rewrite Ht, He. reflexivity.
Qed.


(** ** Failure *)

Lemma always_fails_bind_l (A B : Type) (m : emit A) (k : A -> emit B) :
  always_fails m -> always_fails (bind m k).
Proof.
  intros H d. specialize (H d). unfold bind.
  destruct (m d) as [[[a w] d1]|e]; [contradiction|exact I].
Qed.

Lemma always_fails_bind_r (A B : Type) (m : emit A) (k : A -> emit B) :
  (forall a, always_fails (k a)) -> always_fails (bind m k).
Proof.
  intros H d. unfold bind.
  destruct (m d) as [[[a w] d1]|e]; [|exact I].
  specialize (H a d1). destruct (k a d1) as [[[b w2] d2]|e]; [contradiction|exact I].
Qed.

Lemma always_fails_raise (A : Type) (e : error) : always_fails (@raise A e).
Proof. intros d. exact I. Qed.

Lemma always_fails_lift (A : Type) (e : error) : always_fails (@lift A (Err e)).
Proof. intros d. exact I. Qed.

Lemma bind_lift_ok (A B : Type) (a : A) (k : A -> emit B) (d : registry) :
  bind (lift (Ok a)) k d = k a d.
Proof.
  unfold bind, lift. destruct (k a d) as [[[b w] d']|e]; reflexivity.
Qed.

Lemma bind_lift_err (A B : Type) (e : error) (k : A -> emit B) (d : registry) :
  bind (lift (Err e)) k d = Err e.
Proof. reflexivity. Qed.

Lemma always_fails_bind_lift (A B : Type) (a : A) (k : A -> emit B) :
  always_fails (k a) -> always_fails (bind (lift (Ok a)) k).
Proof. intros H d. rewrite bind_lift_ok. apply H. Qed.

(** A loop fails when one of its rounds fails whatever state it starts
    from. *)
Lemma always_fails_fold (S X : Type) (body : S -> X -> emit S) (x : X) (l : list X) :
  In x l -> (forall s, always_fails (body s x)) ->
  forall s, always_fails (fold_emit body s l).
Proof.
  induction l as [|y l IH]; [easy|].
  intros [->|Hin] H s; simpl.
  - apply always_fails_bind_l, H.
  - apply always_fails_bind_r. intros s'. now apply IH.
Qed.

Lemma always_fails_for_each (X : Type) (body : X -> emit unit) (x : X) (l : list X) :
  In x l -> always_fails (body x) -> always_fails (for_each l body).
Proof.
  intros Hin H. unfold for_each.
  apply (always_fails_fold unit X (fun _ y => body y) x l Hin (fun _ => H)).
Qed.

Lemma map_result_length (X Y : Type) (f : X -> result Y) (l : list X) (ys : list Y) :
  map_result f l = Ok ys -> length ys = length l.
Proof.
  revert ys. induction l as [|x l IH]; simpl; intros ys H.
  - now injection H as <-.
  - destruct (f x); [|discriminate].
    destruct (map_result f l) as [zs|]; [|discriminate].
    injection H as <-. simpl. now rewrite (IH zs eq_refl).
Qed.

Lemma map_snd_combine (X Y : Type) (ks : list X) (l : list Y) :
  length ks = length l -> map snd (combine ks l) = l.
Proof.
  revert ks. induction l as [|y l IH]; intros [|k ks]; simpl; try easy.
  intros [= H]. now rewrite IH.
Qed.

Lemma sorted_key_perm (X : Type) (f : X -> result nat) (l l' : list X) :
  sorted_key f l = Ok l' -> Permutation l' l.
Proof.
  unfold sorted_key. destruct (map_result f l) as [ks|] eqn:E; [|discriminate].
  intros [= <-]. rewrite sorted_by_perm.
  now rewrite (map_snd_combine _ _ ks l (map_result_length _ _ f l ks E)).
Qed.

(** [_enum_properties] returns the properties of the message, in some
    order. *)
Lemma enum_properties_perm (capa : capa_modules) (message : description)
    (props l : list (string * description)) :
  d_properties message = Some props ->
  _enum_properties capa message = Ok l -> Permutation l props.
Proof.
  intros Hp. unfold _enum_properties.
  destruct (getitem "title" (d_title message)) as [title|]; [simpl|discriminate].
  destruct (_find_capa_class capa title) as [[order|]|]; simpl; try discriminate.
  rewrite Hp. simpl. apply sorted_key_perm.
Qed.

(** A message one of whose properties cannot be emitted cannot be
    emitted. *)
Lemma emit_proto_message_fails (capa : capa_modules) (message : description)
    (props : list (string * description)) (np : string * description) :
  d_properties message = Some props -> In np props ->
  (forall c, always_fails (emit_property c np)) ->
  always_fails (emit_proto_message capa message).
Proof.
  intros Hp Hin Hf. unfold emit_proto_message.
  apply always_fails_bind_r. intros title.
  apply always_fails_bind_r. intros _.
  destruct (_enum_properties capa message) as [l|e] eqn:E.
  - apply always_fails_bind_lift, always_fails_bind_l.
    apply always_fails_fold with (x := np); [|exact Hf].
    eapply Permutation_in; [|exact Hin].
    apply Permutation_sym. exact (enum_properties_perm capa message props l Hp E).
  - apply always_fails_bind_l, always_fails_lift.
Qed.

Lemma lookup_in_keys (A : Type) (key : string) (d : list (string * A)) (v : A) :
  lookup key d = Some v -> In key (map fst d).
Proof.
  induction d as [|[k v'] d IH]; simpl; [discriminate|].
  destruct (String.eqb_spec k key) as [->|Hne]; [now left|].
  intros H. right. now apply IH.
Qed.

(** The entry of an object definition whose message cannot be emitted
    cannot be emitted. *)
Lemma emit_proto_entry_object_fails (capa : capa_modules) (schema : schema)
    (title : string) (definition : description) :
  lookup title (definitions schema) = Some definition ->
  d_type definition = Some "object" ->
  always_fails (emit_proto_message capa definition) ->
  always_fails (emit_proto_entry capa schema (definitions_prefix ++ title)).
Proof.
  intros Hl Ht Hf. unfold emit_proto_entry.
  rewrite startswith_app, drop_app, Hl. cbn [negb getitem].
  apply always_fails_bind_lift.
  apply always_fails_bind_r. intros stored.
  destruct (negb (stored =? title)%string); [apply always_fails_raise|].
  rewrite Ht. apply always_fails_bind_lift. simpl. exact Hf.
Qed.

(** The entry of an object definition one of whose properties cannot be
    emitted cannot be emitted. *)
Lemma emit_proto_entry_fails (capa : capa_modules) (schema : schema)
    (title : string) (definition : description)
    (props : list (string * description)) (np : string * description) :
  lookup title (definitions schema) = Some definition ->
  d_type definition = Some "object" ->
  d_properties definition = Some props -> In np props ->
  (forall c, always_fails (emit_property c np)) ->
  always_fails (emit_proto_entry capa schema (definitions_prefix ++ title)).
Proof.
  intros Hl Ht Hp Hin Hf.
  apply (emit_proto_entry_object_fails capa schema title definition Hl Ht).
  exact (emit_proto_message_fails capa definition props np Hp Hin Hf).
Qed.

(** The run fails when the entry of one of the definitions fails
    whatever the deferred types are. *)
Lemma generate_fails (capa : capa_modules) (schema : schema) (title : string)
    (definition : description) :
  lookup title (definitions schema) = Some definition ->
  always_fails (emit_proto_entry capa schema (definitions_prefix ++ title)) ->
  is_err (generate_proto_from_pydantic capa schema).
Proof.
  intros Hl Hf. unfold generate_proto_from_pydantic.
  assert (H : always_fails (generate_commands capa schema)).
  { unfold generate_commands.
    apply always_fails_bind_r. intros _. apply always_fails_bind_l.
    apply always_fails_for_each with (x := title); [|exact Hf].
    apply in_sorted_by. exact (lookup_in_keys _ title _ definition Hl). }
  specialize (H []).
  destruct (generate_commands capa schema []) as [[[u w] d]|e];
    [contradiction|exact I].
Qed.


(** ** Type names *)

(** [get_primitive_type_name] as the source has it. *)
Lemma get_primitive_type_name_eq (prop : description) :
  get_primitive_type_name prop =
  if negb (is_primitive_type prop) then Err AssertionError else
  match d_type prop with
  | None => Err (KeyError "type")
  | Some t =>
      if String.eqb t "string" then Ok "string"
      else if String.eqb t "boolean" then Ok "bool"
      else if String.eqb t "integer" then Ok "Integer"
      else if String.eqb t "number" then Ok "Number"
      else if is_tuple prop then get_tuple_type_name prop
      else
        match is_array prop with
        | Err e => Err e
        | Ok false => Err NotImplementedError
        | Ok true =>
            match d_items prop with
            | None => Err (KeyError "items")
            | Some (inr _) => Err TypeError
            | Some (inl aitem) =>
                (atype <-
                   (if is_primitive_type aitem then get_primitive_type_name aitem
                    else if is_ref aitem then get_ref_type_name aitem
                    else if is_custom_type aitem then get_custom_type_name aitem
                    else Err NotImplementedError) ;;
                 Ok ("repeated " ++ atype))%result
            end
        end
  end.
Proof. destruct prop; reflexivity. Qed.

(** ** Failure of emission *)

Lemma emit_property_shapeless (raw : string) (prop : description) :
  is_ref prop = false -> is_primitive_type prop = false ->
  is_custom_type prop = false -> is_union prop = false -> is_map prop = false ->
  forall c d, emit_property c (raw, prop) d = Err (ValueError "unexpected type").
Proof.
  intros H1 H2 H3 H4 H5 c d. unfold emit_property.
  now rewrite H1, H2, H3, H4, H5.
Qed.

Lemma emit_property_unknown_type (raw : string) (prop : description) (t : string) :
  is_ref prop = false -> d_type prop = Some t ->
  ~ In t ["string"; "boolean"; "integer"; "number"; "array"; "object"] ->
  forall c d, emit_property c (raw, prop) d = Err NotImplementedError.
Proof.
  intros H1 Ht Hn c d. simpl in Hn.
  assert (Hprim : is_primitive_type prop = true).
  { unfold is_primitive_type. rewrite Ht.
    destruct (String.eqb_spec t "object") as [->|_]; [tauto|reflexivity]. }
  assert (Hname : get_primitive_type_name prop = Err NotImplementedError).
  { rewrite get_primitive_type_name_eq, Hprim, Ht. cbn [negb].
    unfold is_tuple, is_array. rewrite Ht.
    destruct (String.eqb_spec t "string") as [->|_]; [tauto|].
    destruct (String.eqb_spec t "boolean") as [->|_]; [tauto|].
    destruct (String.eqb_spec t "integer") as [->|_]; [tauto|].
    destruct (String.eqb_spec t "number") as [->|_]; [tauto|].
    destruct (String.eqb_spec t "array") as [->|_]; [tauto|]. reflexivity. }
  unfold emit_property. rewrite H1, Hprim, Hname. reflexivity.
Qed.

(** A loop over two lists, one after the other. *)
Lemma for_each_app (X : Type) (body : X -> emit unit) (l1 l2 : list X) (d : registry) :
  for_each (l1 ++ l2)%list body d
  = match for_each l1 body d with
    | Err e => Err e
    | Ok (_, w1, d1) =>
        match for_each l2 body d1 with
        | Err e => Err e
        | Ok (u, w2, d2) => Ok (u, (w1 ++ w2)%list, d2)
        end
    end.
Proof.
  unfold for_each. revert d. induction l1 as [|x l1 IH]; intros d.
  - cbn [app fold_emit ret].
    destruct (fold_emit (fun _ y => body y) tt l2 d) as [[[u w] d2]|e]; reflexivity.
  - cbn [app fold_emit]. unfold bind.
    destruct (body x d) as [[[[] wx] dx]|e]; [|reflexivity].
    rewrite IH.
    destruct (fold_emit (fun _ y => body y) tt l1 dx) as [[[[] w1] d1]|e];
      [|reflexivity].
    destruct (fold_emit (fun _ y => body y) tt l2 d1) as [[[u w2] d2]|e];
      [|reflexivity].
    now rewrite app_assoc.
Qed.

(** The exception of a run in which the entry of one definition raises
    whatever the deferred types are: that of an earlier entry if one
    raises, and else the exception of this entry. *)
Lemma generate_first_failure (capa : capa_modules) (schema : schema)
    (title : string) (e0 : error) (pre post : list string) :
  sorted_strings (map fst (definitions schema)) = (pre ++ title :: post)%list ->
  (forall d, emit_proto_entry capa schema (definitions_prefix ++ title) d = Err e0) ->
  generate_proto_from_pydantic capa schema
  = match for_each pre
            (fun name => emit_proto_entry capa schema (definitions_prefix ++ name)) []
    with
    | Err e => Err e
    | Ok _ => Err e0
    end.
Proof.
  intros Hs He. unfold generate_proto_from_pydantic, generate_commands.
  unfold bind at 1. rewrite for_each_writeln_id.
  unfold bind at 1. rewrite Hs, for_each_app.
  destruct (for_each pre _ []) as [[[[] w1] d1]|e]; [|reflexivity].
  unfold for_each at 1. cbn [fold_emit]. unfold bind at 1. now rewrite He.
Qed.

(** C7: when the definition stored under a name has another [title], the
    entry for that name raises the title-mismatch [ValueError] and the run
    fails.  A property that is no reference, has no [type] and is no
    union raises the unexpected-type [ValueError]; a property whose
    [type] is not one the translator knows raises [NotImplementedError];
    and the run on a schema with such a property in an object definition
    fails. *)
Theorem mismatch_and_shapeless_fail (capa : capa_modules) (schema : schema) :
  (forall title definition stored,
     lookup title (definitions schema) = Some definition ->
     d_title definition = Some stored ->
     stored <> title ->
     (forall d, emit_proto_entry capa schema (definitions_prefix ++ title) d
                = Err (ValueError ("title mismatch: " ++ stored))) /\
     is_err (generate_proto_from_pydantic capa schema) /\
     exists pre post,
       sorted_strings (map fst (definitions schema)) = (pre ++ title :: post)%list /\
       generate_proto_from_pydantic capa schema
       = match for_each pre
                 (fun name =>
                    emit_proto_entry capa schema (definitions_prefix ++ name)) []
         with
         | Err e => Err e
         | Ok _ => Err (ValueError ("title mismatch: " ++ stored))
         end) /\
  (forall raw prop,
     is_ref prop = false -> is_primitive_type prop = false ->
     is_custom_type prop = false -> is_union prop = false -> is_map prop = false ->
     (forall c d, emit_property c (raw, prop) d = Err (ValueError "unexpected type")) /\
     forall title definition props,
       lookup title (definitions schema) = Some definition ->
       d_type definition = Some "object" ->
       d_properties definition = Some props ->
       In (raw, prop) props ->
       is_err (generate_proto_from_pydantic capa schema)) /\
  (forall raw prop t,
     is_ref prop = false -> d_type prop = Some t ->
     ~ In t ["string"; "boolean"; "integer"; "number"; "array"; "object"] ->
     (forall c d, emit_property c (raw, prop) d = Err NotImplementedError) /\
     forall title definition props,
       lookup title (definitions schema) = Some definition ->
       d_type definition = Some "object" ->
       d_properties definition = Some props ->
       In (raw, prop) props ->
       is_err (generate_proto_from_pydantic capa schema)).
Proof.
  split; [|split].
  - intros title definition stored Hl Ht Hne.
    assert (He : forall d,
               emit_proto_entry capa schema (definitions_prefix ++ title) d
               = Err (ValueError ("title mismatch: " ++ stored))).
    { intros d. unfold emit_proto_entry.
      rewrite startswith_app, drop_app, Hl. cbn [negb getitem].
      rewrite bind_lift_ok, Ht. cbn [getitem]. rewrite bind_lift_ok.
      destruct (String.eqb_spec stored title) as [->|_]; [congruence|reflexivity]. }
    split; [exact He|]. split.
    + apply (generate_fails capa schema title definition Hl).
      intros d. now rewrite He.
    + assert (Hin : In title (sorted_strings (map fst (definitions schema)))).
      { apply in_sorted_by. exact (lookup_in_keys _ title _ definition Hl). }
      destruct (in_split _ _ Hin) as (pre & post & Hs).
      exists pre, post. split; [exact Hs|].
      exact (generate_first_failure capa schema title _ pre post Hs He).
  - intros raw prop H1 H2 H3 H4 H5.
    pose proof (emit_property_shapeless raw prop H1 H2 H3 H4 H5) as He.
    split; [exact He|].
    intros title definition props Hl Ht Hp Hin.
    apply (generate_fails capa schema title definition Hl).
    apply (emit_proto_entry_fails capa schema title definition props (raw, prop)
             Hl Ht Hp Hin).
    intros c d. now rewrite He.
  - intros raw prop t H1 Ht Hn.
    pose proof (emit_property_unknown_type raw prop t H1 Ht Hn) as He.
    split; [exact He|].
    intros title definition props Hl Htd Hp Hin.
    apply (generate_fails capa schema title definition Hl).
    apply (emit_proto_entry_fails capa schema title definition props (raw, prop)
             Hl Htd Hp Hin).
    intros c d. now rewrite He.
Qed.

Lemma mismatch_and_shapeless_fail_witness :
  (lookup "Scope" (definitions mismatch_schema)
   = Some (enum_definition "Scopes" ["file"; "function"]) /\
   "Scopes" <> "Scope" /\
   emit_proto_entry no_class mismatch_schema "#/definitions/Scope" []
   = Err (ValueError "title mismatch: Scopes") /\
   generate_proto_from_pydantic no_class mismatch_schema
   = Err (ValueError "title mismatch: Scopes")) /\
  (is_ref no_keys = false /\
   emit_property 2 ("b", no_keys) [] = Err (ValueError "unexpected type") /\
   is_err (generate_proto_from_pydantic (one_class "M" ["a"; "b"]) shapeless_schema)) /\
  (d_type (of_type "null") = Some "null" /\
   emit_property 1 ("a", of_type "null") [] = Err NotImplementedError /\
   is_err (generate_proto_from_pydantic (one_class "M" ["a"]) null_schema)).
Proof.
  split; [|split].
  - destruct (proj1 (mismatch_and_shapeless_fail no_class mismatch_schema)
                "Scope" (enum_definition "Scopes" ["file"; "function"]) "Scopes"
                eq_refl eq_refl) as (He & _ & pre & post & Hs & Hr); [discriminate|].
    split; [reflexivity|]. split; [discriminate|].
    split; [exact (He [])|].
    destruct pre as [|name pre]; [|destruct pre; discriminate].
    exact Hr.
  - destruct (proj1 (proj2 (mismatch_and_shapeless_fail
                              (one_class "M" ["a"; "b"]) shapeless_schema))
                "b" no_keys eq_refl eq_refl eq_refl eq_refl eq_refl) as [He Hr].
    split; [reflexivity|]. split; [exact (He 2 [])|].
    apply (Hr "M" (object_definition "M" [("a", of_type "string"); ("b", no_keys)])
             [("a", of_type "string"); ("b", no_keys)]); try reflexivity.
    simpl. auto.
  - destruct (proj2 (proj2 (mismatch_and_shapeless_fail
                              (one_class "M" ["a"]) null_schema))
                "a" (of_type "null") "null" eq_refl eq_refl) as [He Hr].
    + simpl. intuition discriminate.
    + split; [reflexivity|]. split; [exact (He 1 [])|].
      apply (Hr "M" (object_definition "M" [("a", of_type "null")])
               [("a", of_type "null")]); try reflexivity.
      simpl. auto.
Defined.

(** ** A title that is not in the canonical order table *)

(** C2 (as amended): a title that names no attribute of the three capa
    modules, the canonical property-order table, is an error: property
    order resolution raises [NotImplementedError], so does the emission
    of the message, and the run on a schema that holds the definition
    fails.  Where the title is in the table and no normalized property
    name is in its canonical order, every property is unresolved and the
    properties come out in schema-declared order. *)
Theorem absent_title_fails (capa : capa_modules) (message : description)
    (title : string) :
  d_title message = Some title ->
  (lookup title (result_document capa) = None ->
   lookup title (freeze capa) = None ->
   lookup title (freeze_features capa) = None ->
   _enum_properties capa message = Err NotImplementedError /\
   (forall d, emit_proto_message capa message d = Err NotImplementedError) /\
   forall schema key,
     lookup key (definitions schema) = Some message ->
     d_type message = Some "object" ->
     is_err (generate_proto_from_pydantic capa schema)) /\
  (forall order props,
     _find_capa_class capa title = Ok (Some order) ->
     d_properties message = Some props ->
     NoDup (map fst props) ->
     (forall p, In p props -> is_resolved order p = false) ->
     _enum_properties capa message = Ok props).
Proof.
  intros Ht. split.
  - intros H1 H2 H3.
    assert (He : _enum_properties capa message = Err NotImplementedError).
    { unfold _enum_properties. rewrite Ht. simpl.
      now rewrite (find_capa_class_absent capa title H1 H2 H3). }
    pose proof (fun d => emit_proto_message_order_error capa message title _ d Ht He)
      as Hm.
    split; [exact He|]. split; [exact Hm|].
    intros schema key Hl Hty.
    apply (generate_fails capa schema key message Hl).
    apply (emit_proto_entry_object_fails capa schema key message Hl Hty).
    intros d. now rewrite Hm.
  - intros order props Hc Hp Hnd Hnone.
    rewrite (enum_properties_partition capa message title order props Ht Hc Hp Hnd).
    + rewrite (filter_none _ _ _ Hnone). simpl. f_equal.
      apply filter_all. intros p Hin. now rewrite (Hnone p Hin).
    + intros p Hin Hres. rewrite (Hnone p Hin) in Hres. discriminate.
Qed.

Lemma absent_title_fails_witness :
  d_title unknown_message = Some "Foo" /\
  _enum_properties unresolved_classes unknown_message = Err NotImplementedError /\
  is_err (generate_proto_from_pydantic unresolved_classes
            (Schema [("Foo", unknown_message)])) /\
  d_title unresolved_message = Some "Address" /\
  _enum_properties unresolved_classes unresolved_message
  = Ok [ ("type", ref_to "AddressType"); ("value", of_type "integer") ].
Proof.
  destruct (proj1 (absent_title_fails unresolved_classes unknown_message "Foo" eq_refl)
              eq_refl eq_refl eq_refl) as (He & _ & Hrun).
  split; [reflexivity|]. split; [exact He|].
  split; [exact (Hrun (Schema [("Foo", unknown_message)]) "Foo" eq_refl eq_refl)|].
  split; [reflexivity|].
  apply (proj2 (absent_title_fails unresolved_classes unresolved_message "Address"
                  eq_refl) ["kind"; "v"]); try reflexivity.
  - repeat constructor; simpl; intuition discriminate.
  - simpl. intros p [<-|[<-|[]]]; reflexivity.
Defined.

(** No module has an attribute [Foo]: resolving the property order of
    the definition [Foo] raises, and the run on the schema that holds it
    returns no text. *)
Lemma absent_title_is_fatal :
  lookup "Foo" (result_document no_class) = None /\
  lookup "Foo" (freeze no_class) = None /\
  lookup "Foo" (freeze_features no_class) = None /\
  _enum_properties no_class unknown_message = Err NotImplementedError /\
  emit_proto_message no_class unknown_message [] = Err NotImplementedError /\
  generate_proto_from_pydantic no_class (Schema [("Foo", unknown_message)])
  = Err NotImplementedError.
Proof. repeat split. Qed.

(** ** Unions *)

Lemma object_is_not_primitive (prop : description) :
  is_custom_type prop = true \/ is_map prop = true -> is_primitive_type prop = false.
Proof.
  unfold is_custom_type, is_map, is_primitive_type.
  destruct (d_type prop) as [t|]; [|intros [H|H]; discriminate].
  destruct (String.eqb t "object"); [reflexivity|].
  intros [H|H]; discriminate.
Qed.

Lemma emit_alternative_unsupported (alt : description) :
  is_ref alt = false -> is_primitive_type alt = false ->
  forall ic j d, emit_alternative ic (j, alt) d = Err NotImplementedError.
Proof.
  intros H1 H2 [i c] j d. unfold emit_alternative. now rewrite H1, H2.
Qed.

Lemma emit_alternative_classified (alt : description) ic j d r :
  emit_alternative ic (j, alt) d = Ok r ->
  is_ref alt = true \/ is_primitive_type alt = true.
Proof.
  destruct ic as [i c]. unfold emit_alternative.
  destruct (is_ref alt); [now left|].
  destruct (is_primitive_type alt); [now right|discriminate].
Qed.

Lemma in_enumerate_from (X : Type) (x : X) (l : list X) (n : nat) :
  In x l -> exists j, In (j, x) (enumerate_from n l).
Proof.
  revert n. induction l as [|y l IH]; intros n; simpl; [easy|].
  intros [->|H]; [exists n; now left|].
  destruct (IH (S n) H) as [j Hj]. exists j. now right.
Qed.

(** A union with an alternative that is neither a reference nor of a
    primitive type cannot be emitted. *)
Lemma emit_property_union_fails (raw : string) (prop : description)
    (alts : list description) (alt : description) :
  is_ref prop = false -> is_primitive_type prop = false ->
  is_custom_type prop = false -> d_anyOf prop = Some alts -> In alt alts ->
  is_ref alt = false -> is_primitive_type alt = false ->
  forall c, always_fails (emit_property c (raw, prop)).
Proof.
  intros H1 H2 H3 Ha Hin Hr Hp c. unfold emit_property.
  rewrite H1, H2, H3. unfold is_union. rewrite Ha. cbn [contains getitem].
  apply always_fails_bind_r. intros _.
  apply always_fails_bind_lift, always_fails_bind_l.
  destruct (in_enumerate_from _ alt alts 0 Hin) as [j Hj].
  apply always_fails_fold with (x := (j, alt)); [exact Hj|].
  intros ic d. now rewrite (emit_alternative_unsupported alt Hr Hp).
Qed.

(** C10: an alternative of a union must be a reference or of a primitive
    type (a primitive scalar, a tuple or an array).  For an alternative
    that is an inline custom object or a map, the round of the loop over
    the alternatives raises [NotImplementedError], the union cannot be
    emitted, and the run on a schema with such a union in an object
    definition fails. *)
Theorem union_alternative_shapes (capa : capa_modules) (schema : schema) :
  (forall alt ic j d r,
     emit_alternative ic (j, alt) d = Ok r ->
     is_ref alt = true \/ is_primitive_type alt = true) /\
  (forall alt,
     is_ref alt = false ->
     is_custom_type alt = true \/ is_map alt = true ->
     (forall ic j d, emit_alternative ic (j, alt) d = Err NotImplementedError) /\
     forall raw prop alts,
       is_ref prop = false -> is_primitive_type prop = false ->
       is_custom_type prop = false -> d_anyOf prop = Some alts -> In alt alts ->
       (forall c, always_fails (emit_property c (raw, prop))) /\
       forall title definition props,
         lookup title (definitions schema) = Some definition ->
         d_type definition = Some "object" ->
         d_properties definition = Some props ->
         In (raw, prop) props ->
         is_err (generate_proto_from_pydantic capa schema)).
Proof.
  split; [exact emit_alternative_classified|].
  intros alt Hr Hobj.
  pose proof (object_is_not_primitive alt Hobj) as Hp.
  split; [exact (emit_alternative_unsupported alt Hr Hp)|].
  intros raw prop alts H1 H2 H3 Ha Hin.
  pose proof (emit_property_union_fails raw prop alts alt H1 H2 H3 Ha Hin Hr Hp) as Hf.
  split; [exact Hf|].
  intros title definition props Hl Ht Hps Hinp.
  apply (generate_fails capa schema title definition Hl).
  exact (emit_proto_entry_fails capa schema title definition props (raw, prop)
           Hl Ht Hps Hinp Hf).
Qed.

Lemma union_alternative_shapes_witness :
  is_ref (custom_object "Inline") = false /\
  is_custom_type (custom_object "Inline") = true /\
  emit_alternative (2, 3) (1, custom_object "Inline") [] = Err NotImplementedError /\
  is_err (emit_property 1 ("u", union_of [ref_to "A"; custom_object "Inline"]) []) /\
  is_err (generate_proto_from_pydantic (one_class "M" ["u"]) union_object_schema) /\
  (is_ref (ref_to "A") = true \/ is_primitive_type (ref_to "A") = true).
Proof.
  destruct (proj2 (union_alternative_shapes (one_class "M" ["u"]) union_object_schema)
              (custom_object "Inline") eq_refl (or_introl eq_refl)) as [He Hu].
  destruct (Hu "u" (union_of [ref_to "A"; custom_object "Inline"])
              [ref_to "A"; custom_object "Inline"]
              eq_refl eq_refl eq_refl eq_refl (or_intror (or_introl eq_refl)))
    as [Hf Hr].
  split; [reflexivity|]. split; [reflexivity|].
  split; [exact (He (2, 3) 1 [])|].
  split; [exact (Hf 1 [])|].
  split.
  - apply (Hr "M" (object_definition "M"
                     [("u", union_of [ref_to "A"; custom_object "Inline"])])
             [("u", union_of [ref_to "A"; custom_object "Inline"])]);
      try reflexivity.
    simpl. auto.
  - exact (proj1 (union_alternative_shapes (one_class "M" ["u"]) union_object_schema)
             (ref_to "A") (1, 2) 0 [] (2, 3, ["    A v0 = 1;"], []) eq_refl).
Defined.

(** ** The deferred types *)

Lemma in_keys_setitem (A : Type) (key k : string) (v : A) (d : list (string * A)) :
  In k (map fst (setitem key v d)) <-> k = key \/ In k (map fst d).
Proof.
  induction d as [|[k' v'] d IH]; simpl.
  - intuition.
  - destruct (String.eqb_spec k' key) as [->|Hne]; simpl; [intuition|].
    rewrite IH. intuition.
Qed.

Lemma setitem_nodup (A : Type) (key : string) (v : A) (d : list (string * A)) :
  NoDup (map fst d) -> NoDup (map fst (setitem key v d)).
Proof.
  induction d as [|[k' v'] d IH]; simpl; intros H.
  - repeat constructor. easy.
  - inversion H as [|? ? Hnin Hnd]; subst.
    destruct (String.eqb_spec k' key) as [->|Hne]; simpl.
    + now constructor.
    + constructor; [|now apply IH].
      rewrite in_keys_setitem. intuition.
Qed.

Lemma in_setitem (A : Type) (key k : string) (v v' : A) (d : list (string * A)) :
  In (k, v') (setitem key v d) -> (k = key /\ v' = v) \/ In (k, v') d.
Proof.
  induction d as [|[k0 v0] d IH]; simpl.
  - intros [[= <- <-]|[]]. now left.
  - destruct (String.eqb_spec k0 key) as [->|Hne]; simpl.
    + intros [[= <- <-]|H]; [now left|right; now right].
    + intros [H|H]; [right; now left|].
      destruct (IH H) as [?|?]; [now left|right; now right].
Qed.

Lemma well_formed_closed : closed_under_registration well_formed.
Proof.
  intros d k v [Hnd Hall] Hkv. split; [now apply setitem_nodup|].
  intros k' v' Hin. apply in_setitem in Hin.
  destruct Hin as [[-> ->]|Hin]; [exact Hkv|now apply Hall].
Qed.

Lemma registered_closed (name : string) : closed_under_registration (registered name).
Proof.
  intros d k v H _. unfold registered in *. apply in_keys_setitem. now right.
Qed.

Lemma well_formed_empty : well_formed [].
Proof. split; [constructor|intros k v []]. Qed.

(** ** Commands and properties of the deferred types *)

Lemma keeps_ret (A : Type) (P : registry -> Prop) (a : A) : keeps P (ret a).
Proof. intros d a' w d' [= _ _ <-] H. exact H. Qed.

Lemma keeps_writeln (P : registry -> Prop) (s : string) : keeps P (writeln s).
Proof. intros d a' w d' [= _ _ <-] H. exact H. Qed.

Lemma keeps_raise (A : Type) (P : registry -> Prop) (e : error) : keeps P (@raise A e).
Proof. intros d a' w d' H. discriminate. Qed.

Lemma keeps_lift (A : Type) (P : registry -> Prop) (r : result A) : keeps P (lift r).
Proof.
  intros d a' w d' H HP. unfold lift in H.
  destruct r; [|discriminate]. now injection H as _ _ <-.
Qed.

Lemma bind_inv (A B : Type) (m : emit A) (k : A -> emit B) d b w d' :
  bind m k d = Ok (b, w, d') ->
  exists a w1 d1 w2,
    m d = Ok (a, w1, d1) /\ k a d1 = Ok (b, w2, d') /\ w = (w1 ++ w2)%list.
Proof.
  unfold bind. destruct (m d) as [[[a w1] d1]|e]; [|discriminate].
  destruct (k a d1) as [[[b' w2] d2]|e] eqn:E; [|discriminate].
  intros [= <- <- <-]. now exists a, w1, d1, w2.
Qed.

Lemma keeps_bind (A B : Type) (P : registry -> Prop) (m : emit A) (k : A -> emit B) :
  keeps P m -> (forall a, keeps P (k a)) -> keeps P (bind m k).
Proof.
  intros Hm Hk d b w d' H HP.
  destruct (bind_inv _ _ m k d b w d' H) as (a & w1 & d1 & w2 & H1 & H2 & _).
  exact (Hk a d1 b w2 d' H2 (Hm d a w1 d1 H1 HP)).
Qed.

Lemma keeps_bind_lift (A B : Type) (P : registry -> Prop) (r : result A)
    (k : A -> emit B) :
  (forall a, r = Ok a -> keeps P (k a)) -> keeps P (bind (lift r) k).
Proof.
  intros Hk d b w d' H HP. destruct r as [a|e]; [|discriminate].
  rewrite bind_lift_ok in H. exact (Hk a eq_refl d b w d' H HP).
Qed.

Lemma keeps_fold (S X : Type) (P : registry -> Prop) (body : S -> X -> emit S)
    (l : list X) :
  (forall s x, In x l -> keeps P (body s x)) -> forall s, keeps P (fold_emit body s l).
Proof.
  induction l as [|x l IH]; intros H s; simpl; [apply keeps_ret|].
  apply keeps_bind; [apply H; now left|].
  intros s'. apply IH. intros s'' y Hy. apply H. now right.
Qed.

Lemma keeps_for_each (X : Type) (P : registry -> Prop) (body : X -> emit unit)
    (l : list X) :
  (forall x, In x l -> keeps P (body x)) -> keeps P (for_each l body).
Proof. intros H. apply keeps_fold. intros _ x Hx. now apply H. Qed.

Lemma keeps_register (P : registry -> Prop) (key : string) (v : deferred) :
  closed_under_registration P ->
  tuple_entry key v \/ array_entry key v -> keeps P (register key v).
Proof.
  intros Hc Hkv d a w d' [= _ _ <-] HP. now apply Hc.
Qed.

(** A loop leaves a property true that one of its rounds makes true and
    every round leaves true. *)
Lemma establishes_fold (S X : Type) (P : registry -> Prop) (body : S -> X -> emit S)
    (x : X) (l : list X) :
  In x l -> (forall s, establishes P (body s x)) ->
  (forall s y, keeps P (body s y)) ->
  forall s, establishes P (fold_emit body s l).
Proof.
  induction l as [|y l IH]; [easy|].
  intros Hin He Hk s d a w d' H. simpl in H.
  destruct (bind_inv _ _ _ _ d a w d' H) as (s1 & w1 & d1 & w2 & H1 & H2 & _).
  destruct Hin as [->|Hin].
  - apply (keeps_fold _ _ P body l (fun s0 x0 _ => Hk s0 x0) s1 d1 a w2 d' H2).
    exact (He s d s1 w1 d1 H1).
  - exact (IH Hin He Hk s1 d1 a w2 d' H2).
Qed.

Lemma establishes_bind_l (A B : Type) (P : registry -> Prop) (m : emit A)
    (k : A -> emit B) :
  establishes P m -> (forall a, keeps P (k a)) -> establishes P (bind m k).
Proof.
  intros Hm Hk d b w d' H.
  destruct (bind_inv _ _ m k d b w d' H) as (a & w1 & d1 & w2 & H1 & H2 & _).
  exact (Hk a d1 b w2 d' H2 (Hm d a w1 d1 H1)).
Qed.

Lemma establishes_bind_r (A B : Type) (P : registry -> Prop) (m : emit A)
    (k : A -> emit B) :
  (forall a, establishes P (k a)) -> establishes P (bind m k).
Proof.
  intros Hk d b w d' H.
  destruct (bind_inv _ _ m k d b w d' H) as (a & w1 & d1 & w2 & H1 & H2 & _).
  exact (Hk a d1 b w2 d' H2).
Qed.

Lemma establishes_bind_lift (A B : Type) (P : registry -> Prop) (r : result A)
    (k : A -> emit B) :
  (forall a, r = Ok a -> establishes P (k a)) -> establishes P (bind (lift r) k).
Proof.
  intros Hk d b w d' H. destruct r as [a|e]; [|discriminate].
  rewrite bind_lift_ok in H. exact (Hk a eq_refl d b w d' H).
Qed.

Lemma is_tuple_type (prop : description) :
  is_tuple prop = true -> d_type prop = Some "array".
Proof.
  unfold is_tuple. destruct (d_type prop) as [t|]; [|discriminate].
  destruct (String.eqb_spec t "array") as [->|_]; [reflexivity|discriminate].
Qed.

Lemma tuple_is_primitive (prop : description) :
  is_tuple prop = true -> is_primitive_type prop = true.
Proof.
  intros H. unfold is_primitive_type. now rewrite (is_tuple_type prop H).
Qed.

(** The primitive type name of a tuple is its tuple type name. *)
Lemma get_primitive_type_name_tuple (prop : description) :
  is_tuple prop = true -> get_primitive_type_name prop = get_tuple_type_name prop.
Proof.
  intros H. rewrite get_primitive_type_name_eq.
  rewrite (tuple_is_primitive prop H), (is_tuple_type prop H), H. reflexivity.
Qed.

Section Keeps.
Variable P : registry -> Prop.
Hypothesis P_closed : closed_under_registration P.

Lemma keeps_register_tuple (name : string) (prop : description) :
  is_tuple prop = true -> get_tuple_type_name prop = Ok name ->
  keeps P (register_tuple name prop).
Proof.
  intros Ht Hn. unfold register_tuple.
  apply keeps_bind_lift. intros count Hc.
  apply keeps_bind_lift. intros items Hi.
  apply keeps_register; [exact P_closed|]. left.
  exists prop, count, items. repeat split; try assumption.
  - now destruct (d_minItems prop) as [c|]; [injection Hc as ->|].
  - now destruct (d_items prop) as [i|]; [injection Hi as ->|].
Qed.

Lemma keeps_emit_alternative (ic : nat * nat) (jof : nat * description) :
  keeps P (emit_alternative ic jof).
Proof.
  destruct ic as [i c], jof as [j alt]. unfold emit_alternative.
  apply keeps_bind; [|intros _; apply keeps_ret].
  destruct (is_ref alt).
  - apply keeps_bind_lift. intros ptype _. apply keeps_writeln.
  - destruct (is_primitive_type alt); [|apply keeps_raise].
    apply keeps_bind_lift. intros ptype Hn.
    apply keeps_bind; [apply keeps_writeln|]. intros _.
    destruct (is_tuple alt) eqn:Ht; [|apply keeps_ret].
    apply keeps_register_tuple; [exact Ht|].
    now rewrite <- (get_primitive_type_name_tuple alt Ht).
Qed.

Lemma keeps_emit_property (c : nat) (np : string * description) :
  keeps P (emit_property c np).
Proof.
  destruct np as [raw prop]. unfold emit_property.
  destruct (is_ref prop).
  { apply keeps_bind_lift. intros ptype _.
    apply keeps_bind; [apply keeps_writeln|]. intros _. apply keeps_ret. }
  destruct (is_primitive_type prop).
  { apply keeps_bind_lift. intros ptype Hn.
    apply keeps_bind; [apply keeps_writeln|]. intros _.
    apply keeps_bind; [|intros _; apply keeps_ret].
    destruct (is_tuple prop) eqn:Ht.
    - apply keeps_register_tuple; [exact Ht|].
      now rewrite <- (get_primitive_type_name_tuple prop Ht).
    - apply keeps_bind_lift. intros [|] _; [|apply keeps_ret].
      apply keeps_bind_lift. intros aitem _.
      destruct (is_tuple aitem) eqn:Hta; [|apply keeps_ret].
      apply keeps_bind_lift. intros atype Ha.
      now apply keeps_register_tuple. }
  destruct (is_custom_type prop).
  { apply keeps_bind_lift. intros ptype _.
    apply keeps_bind; [apply keeps_writeln|]. intros _. apply keeps_ret. }
  destruct (is_union prop).
  { apply keeps_bind; [apply keeps_writeln|]. intros _.
    apply keeps_bind_lift. intros alts _.
    apply keeps_bind.
    - apply keeps_fold. intros ic jof _. apply keeps_emit_alternative.
    - intros ic. apply keeps_bind; [apply keeps_writeln|]. intros _. apply keeps_ret. }
  destruct (is_map prop); [|apply keeps_raise].
  apply keeps_bind_lift. intros values _.
  apply keeps_bind_lift. intros b _.
  apply keeps_bind.
  - destruct b; [|apply keeps_lift].
    apply keeps_bind_lift. intros item_def _.
    apply keeps_bind_lift. intros item_type Hi.
    apply keeps_bind; [|intros _; apply keeps_ret].
    apply keeps_register; [exact P_closed|]. right.
    now exists item_def, item_type.
  - intros vtype. apply keeps_bind; [apply keeps_writeln|]. intros _. apply keeps_ret.
Qed.

Lemma keeps_emit_proto_enum (enum : description) : keeps P (emit_proto_enum enum).
Proof.
  unfold emit_proto_enum.
  apply keeps_bind_lift. intros title _.
  apply keeps_bind; [apply keeps_writeln|]. intros _.
  apply keeps_bind; [apply keeps_writeln|]. intros _.
  apply keeps_bind_lift. intros values _.
  apply keeps_bind.
  - apply keeps_for_each. intros iv _. apply keeps_writeln.
  - intros _. apply keeps_bind; [apply keeps_writeln|]. intros _. apply keeps_writeln.
Qed.

Lemma keeps_emit_proto_message (capa : capa_modules) (message : description) :
  keeps P (emit_proto_message capa message).
Proof.
  unfold emit_proto_message.
  apply keeps_bind_lift. intros title _.
  apply keeps_bind; [apply keeps_writeln|]. intros _.
  apply keeps_bind_lift. intros props _.
  apply keeps_bind.
  - apply keeps_fold. intros c np _. apply keeps_emit_property.
  - intros _. apply keeps_bind; [apply keeps_writeln|]. intros _. apply keeps_writeln.
Qed.

Lemma keeps_emit_proto_entry (capa : capa_modules) (schema : schema) (name : string) :
  keeps P (emit_proto_entry capa schema name).
Proof.
  unfold emit_proto_entry.
  destruct (negb (startswith definitions_prefix name)); [apply keeps_raise|].
  apply keeps_bind_lift. intros definition _.
  apply keeps_bind_lift. intros stored _.
  destruct (negb (stored =? drop (String.length definitions_prefix) name)%string);
    [apply keeps_raise|].
  apply keeps_bind_lift. intros type _.
  destruct ((type =? "string")%string && contains (d_enum definition));
    [apply keeps_emit_proto_enum|].
  destruct (type =? "object")%string;
    [apply keeps_emit_proto_message|apply keeps_raise].
Qed.

End Keeps.

Lemma keeps_emit_deferred (P : registry -> Prop) (entry : string * deferred) :
  keeps P (emit_deferred entry).
Proof.
  destruct entry as [name [n item|n count [item|items]]]; unfold emit_deferred.
  - apply keeps_bind_lift. intros vtype _. apply keeps_writeln.
  - apply keeps_bind; [apply keeps_writeln|]. intros _.
    apply keeps_bind; [|intros _; apply keeps_writeln].
    apply keeps_for_each. intros ik _.
    apply keeps_bind_lift. intros vtype _. apply keeps_writeln.
  - apply keeps_bind; [apply keeps_writeln|]. intros _.
    apply keeps_bind; [|intros _; apply keeps_writeln].
    apply keeps_for_each. intros ii _.
    apply keeps_bind_lift. intros vtype _. apply keeps_writeln.
Qed.

(** ** The shape of the output *)

(** What a loop writes is what its rounds write, one after the other. *)
Lemma for_each_blocks (X : Type) (body : X -> emit unit) (l : list X) d u w d' :
  for_each l body d = Ok (u, w, d') ->
  exists blocks,
    w = concat blocks /\
    Forall2 (fun x block => exists d1 d2, body x d1 = Ok (tt, block, d2)) l blocks.
Proof.
  unfold for_each. revert d w. induction l as [|x l IH]; intros d w H; simpl in H.
  - injection H as _ <- _. exists []. split; [reflexivity|constructor].
  - destruct (bind_inv _ _ _ _ d u w d' H) as ([] & w1 & d1 & w2 & H1 & H2 & ->).
    destruct (IH d1 w2 H2) as (blocks & -> & HF).
    exists (w1 :: blocks). split; [reflexivity|].
    constructor; [now exists d, d1|exact HF].
Qed.

(** A run that returns has written the header, the primary definitions,
    the deferred types that the primary definitions left, and the helper
    types. *)
Lemma generate_inv (capa : capa_modules) (schema : schema) (text : string) :
  generate_proto_from_pydantic capa schema = Ok text ->
  exists primary deferred_types deferred_lines,
    for_each (sorted_strings (map fst (definitions schema)))
      (fun name => emit_proto_entry capa schema (definitions_prefix ++ name)) []
    = Ok (tt, primary, deferred_types) /\
    for_each (sorted_items deferred_types) emit_deferred deferred_types
    = Ok (tt, deferred_lines, deferred_types) /\
    text = getvalue (header ++ primary ++ deferred_lines ++ helper_types)%list.
Proof.
  unfold generate_proto_from_pydantic.
  destruct (generate_commands capa schema []) as [[[u w] d]|e] eqn:E; [|discriminate].
  intros [= <-]. unfold generate_commands in E.
  destruct (bind_inv _ _ _ _ _ _ _ _ E) as ([] & w0 & d0 & w0' & H0 & E1 & ->).
  rewrite for_each_writeln_id in H0. injection H0 as <- <-.
  destruct (bind_inv _ _ _ _ _ _ _ _ E1) as ([] & w1 & d1 & w1' & H1 & E2 & ->).
  destruct (bind_inv _ _ _ _ _ _ _ _ E2) as (reg & w2 & d2 & w2' & H2 & E3 & ->).
  injection H2 as <- <- <-.
  destruct (bind_inv _ _ _ _ _ _ _ _ E3) as ([] & w3 & d3 & w3' & H3 & E4 & ->).
  assert (Hd3 : d3 = d1).
  { apply (keeps_for_each _ (fun d => d = d1) emit_deferred (sorted_items d1)
             (fun x _ => keeps_emit_deferred _ x) d1 tt w3 d3 H3 eq_refl). }
  subst d3.
  rewrite for_each_writeln_id in E4. injection E4 as Hw Hd. subst w3' d.
  exists w1, d1, w3. split; [exact H1|]. split; [exact H3|].
  simpl. reflexivity.
Qed.

(** When the entry of an object definition returns, what one of its
    properties establishes and every property keeps holds of the deferred
    types; and so for the loop over the definitions. *)
Lemma property_establishes (P : registry -> Prop) (capa : capa_modules)
    (schema : schema) (title : string) (definition : description)
    (props : list (string * description)) (np : string * description) :
  closed_under_registration P ->
  (forall c, establishes P (emit_property c np)) ->
  lookup title (definitions schema) = Some definition ->
  d_type definition = Some "object" ->
  d_properties definition = Some props ->
  In np props ->
  establishes P
    (for_each (sorted_strings (map fst (definitions schema)))
       (fun name => emit_proto_entry capa schema (definitions_prefix ++ name))).
Proof.
  intros Hc He Hl Ht Hp Hin. unfold for_each.
  apply establishes_fold with (x := title).
  - apply in_sorted_by. exact (lookup_in_keys _ title _ definition Hl).
  - intros _. unfold emit_proto_entry.
    rewrite startswith_app, drop_app, Hl. cbn [negb getitem].
    apply establishes_bind_lift. intros def [= <-].
    apply establishes_bind_lift. intros stored _.
    destruct (negb (stored =? title)%string); [intros d a w d' H; discriminate|].
    rewrite Ht. apply establishes_bind_lift. intros type [= <-]. simpl.
    unfold emit_proto_message.
    apply establishes_bind_lift. intros t _.
    apply establishes_bind_r. intros _.
    apply establishes_bind_lift. intros l Hl'.
    apply establishes_bind_l.
    + apply establishes_fold with (x := np).
      * eapply Permutation_in; [|exact Hin].
        apply Permutation_sym. exact (enum_properties_perm capa definition props l Hp Hl').
      * exact He.
      * intros c y. now apply keeps_emit_property.
    + intros _. apply keeps_bind; [apply keeps_writeln|]. intros _. apply keeps_writeln.
  - intros _ name. now apply keeps_emit_proto_entry.
Qed.

(** ** Determinism and order of the output *)

Lemma lookup_perm (A : Type) (d1 d2 : list (string * A)) :
  NoDup (map fst d1) -> Permutation d1 d2 ->
  forall key, lookup key d1 = lookup key d2.
Proof.
  intros Hnd HP. induction HP as [|[k v] l l' HP IH|[k1 v1] [k2 v2] l|l l' l'' HP1 IH1 HP2 IH2];
    intros key; simpl.
  - reflexivity.
  - simpl in Hnd. inversion Hnd; subst. now rewrite IH.
  - simpl in Hnd. inversion Hnd as [|? ? Hnin _]; subst.
    destruct (String.eqb_spec k1 key) as [->|H1];
      destruct (String.eqb_spec k2 key) as [->|H2]; try reflexivity.
    exfalso. apply Hnin. now left.
  - rewrite IH1 by exact Hnd. apply IH2.
    eapply Permutation_NoDup; [|exact Hnd]. now apply Permutation_map.
Qed.

Lemma emit_proto_entry_ext (capa : capa_modules) (s1 s2 : schema) (name : string) :
  (forall key, lookup key (definitions s1) = lookup key (definitions s2)) ->
  emit_proto_entry capa s1 name = emit_proto_entry capa s2 name.
Proof. intros H. unfold emit_proto_entry. now rewrite H. Qed.

Lemma for_each_ext (X : Type) (f g : X -> emit unit) (l : list X) :
  (forall x, f x = g x) -> forall d, for_each l f d = for_each l g d.
Proof.
  intros H. unfold for_each. induction l as [|x l IH]; intros d; simpl; [reflexivity|].
  unfold bind. rewrite H.
  destruct (g x d) as [[[[] w] d1]|e]; [|reflexivity]. now rewrite IH.
Qed.

Lemma generate_perm (capa : capa_modules) (s1 s2 : schema) :
  NoDup (map fst (definitions s1)) ->
  Permutation (definitions s1) (definitions s2) ->
  generate_proto_from_pydantic capa s1 = generate_proto_from_pydantic capa s2.
Proof.
  intros Hnd HP. unfold generate_proto_from_pydantic.
  assert (H : generate_commands capa s1 [] = generate_commands capa s2 []);
    [|now rewrite H].
  unfold generate_commands, bind.
  destruct (for_each header writeln []) as [[[u w] d]|e]; [|reflexivity].
  rewrite (sorted_strings_perm _ _ (Permutation_map fst HP)).
  rewrite (for_each_ext _ _
             (fun name => emit_proto_entry capa s2 (definitions_prefix ++ name))).
  - reflexivity.
  - intros name. apply emit_proto_entry_ext. now apply lookup_perm.
Qed.

Lemma writeln_bind_inv (B : Type) (s : string) (k : unit -> emit B) d b w d' :
  bind (writeln s) k d = Ok (b, w, d') ->
  exists rest, w = s :: rest /\ k tt d = Ok (b, rest, d').
Proof.
  intros H. destruct (bind_inv _ _ _ _ _ _ _ _ H) as ([] & w1 & d1 & w2 & H1 & H2 & ->).
  injection H1 as <- <-. now exists w2.
Qed.

(** The entry of a definition starts with the line that names it. *)
Lemma emit_proto_entry_first_line (capa : capa_modules) (schema : schema)
    (title : string) d u block d' :
  emit_proto_entry capa schema (definitions_prefix ++ title) d = Ok (u, block, d') ->
  exists rest,
    block = ("enum " ++ title ++ " {") :: rest \/
    block = ("message " ++ title ++ " {") :: rest.
Proof.
  unfold emit_proto_entry. rewrite startswith_app, drop_app. cbn [negb].
  destruct (lookup title (definitions schema)) as [definition|]; [|discriminate].
  cbn [getitem]. rewrite bind_lift_ok.
  destruct (d_title definition) as [stored|] eqn:Ht; [|discriminate].
  cbn [getitem]. rewrite bind_lift_ok.
  destruct (String.eqb_spec stored title) as [->|_]; [|discriminate].
  cbn [negb].
  destruct (d_type definition) as [type|]; [|discriminate].
  cbn [getitem]. rewrite bind_lift_ok.
  destruct ((type =? "string")%string && contains (d_enum definition)).
  - unfold emit_proto_enum. rewrite Ht. cbn [getitem]. rewrite bind_lift_ok.
    intros H. destruct (writeln_bind_inv _ _ _ _ _ _ _ H) as (rest & -> & _).
    exists rest. now left.
  - destruct (type =? "object")%string; [|discriminate].
    unfold emit_proto_message. rewrite Ht. cbn [getitem]. rewrite bind_lift_ok.
    intros H. destruct (writeln_bind_inv _ _ _ _ _ _ _ H) as (rest & -> & _).
    exists rest. now right.
Qed.


(** ** Maps and array wrappers *)

Lemma map_is_not_primitive (prop : description) :
  is_map prop = true -> is_primitive_type prop = false /\ is_custom_type prop = false.
Proof.
  unfold is_map, is_primitive_type, is_custom_type.
  destruct (d_type prop) as [t|]; [|discriminate].
  destruct (String.eqb t "object"); [|discriminate].
  simpl. intros ->. now split.
Qed.

Lemma array_item_inl (prop item : description) :
  d_items prop = Some (inl item) -> array_item prop = Ok item.
Proof. intros H. unfold array_item. now rewrite H. Qed.

(** The round of the loop on a map whose values are arrays. *)
Lemma emit_property_map_array (raw : string) (prop values item : description)
    (item_type : string) (c : nat) (d : registry) :
  is_ref prop = false -> is_union prop = false -> is_map prop = true ->
  d_additionalProperties prop = Some values ->
  is_array values = Ok true ->
  d_items values = Some (inl item) ->
  get_type_name item = Ok item_type ->
  emit_property c (raw, prop) d
  = Ok (S c,
        [ "  map <string, Array_" ++ item_type ++ "> " ++ sanitize_prop_name raw
            ++ " = " ++ str_nat c ++ ";" ],
        setitem ("Array_" ++ item_type)
          (DeferredArrayType ("Array_" ++ item_type) item) d).
Proof.
  intros Hr Hu Hm Hv Ha Hi Ht.
  destruct (map_is_not_primitive prop Hm) as [Hp Hc].
  unfold emit_property. rewrite Hr, Hp, Hc, Hu, Hm, Hv.
  cbn [getitem]. rewrite bind_lift_ok, Ha, bind_lift_ok.
  rewrite (array_item_inl values item Hi).
  cbv beta iota delta [bind lift]. rewrite Ht.
  reflexivity.
Qed.

(** The round of the loop on a map whose values are no arrays. *)
Lemma emit_property_map_plain (raw : string) (prop values : description)
    (value_type : string) (c : nat) (d : registry) :
  is_ref prop = false -> is_union prop = false -> is_map prop = true ->
  d_additionalProperties prop = Some values ->
  is_array values = Ok false ->
  get_type_name values = Ok value_type ->
  emit_property c (raw, prop) d
  = Ok (S c,
        [ "  map <string, " ++ value_type ++ "> " ++ sanitize_prop_name raw
            ++ " = " ++ str_nat c ++ ";" ],
        d).
Proof.
  intros Hr Hu Hm Hv Ha Ht.
  destruct (map_is_not_primitive prop Hm) as [Hp Hc].
  unfold emit_property. rewrite Hr, Hp, Hc, Hu, Hm, Hv.
  cbn [getitem]. rewrite bind_lift_ok, Ha, bind_lift_ok, Ht.
  reflexivity.
Qed.

Lemma emit_deferred_array (key name : string) (item : description)
    (item_type : string) (d : registry) :
  get_type_name item = Ok item_type ->
  emit_deferred (key, DeferredArrayType name item) d
  = Ok (tt,
        [ "message " ++ key ++ " { repeated " ++ item_type ++ " values = 1; }"
            ++ newline ],
        d).
Proof. intros H. unfold emit_deferred. now rewrite H. Qed.

(** No key of a dict has a type name, so the loop over the keys of a
    description returns only where there is no key. *)
Lemma get_type_name_of_key_fails (key : string) :
  exists e, get_type_name_of_key key = Err e.
Proof.
  unfold get_type_name_of_key.
  destruct (occurs "type" key); [now exists TypeError|].
  destruct (occurs "$ref" key); [now exists TypeError|now exists NotImplementedError].
Qed.

Lemma keys_type_names (keys : list string) (names : list string) :
  map_result get_type_name_of_key keys = Ok names -> keys = [] /\ names = [].
Proof.
  destruct keys as [|key keys]; simpl.
  - intros [= <-]. now split.
  - destruct (get_type_name_of_key_fails key) as [e ->]. discriminate.
Qed.

(** The name of a tuple starts with [Pair_] or [Tuple_], so that it is
    the name of no array wrapper. *)
Lemma tuple_name_not_array (prop : description) (name item_type : string) :
  get_tuple_type_name prop = Ok name -> name <> "Array_" ++ item_type.
Proof.
  unfold get_tuple_type_name, tuple_type_name_with.
  destruct (negb (is_tuple prop)); [discriminate|].
  destruct (d_maxItems prop) as [mx|]; [|discriminate].
  destruct (d_items prop) as [[item|items]|]; try discriminate.
  - destruct (map_result get_type_name_of_key (d_keys item)) as [names|];
      [|discriminate].
    intros [= <-]. destruct (Z.eqb mx 2); discriminate.
  - destruct (map_result get_type_name items) as [names|]; [|discriminate].
    intros [= <-]. destruct (Z.eqb mx 2); discriminate.
Qed.

(** In well-formed deferred types the entry named [Array_X] is an array
    whose item has type name [X]. *)
Lemma well_formed_array (d : registry) (item_type : string) (v : deferred) :
  well_formed d -> In ("Array_" ++ item_type, v) d ->
  exists item,
    v = DeferredArrayType ("Array_" ++ item_type) item /\
    get_type_name item = Ok item_type.
Proof.
  intros [_ Hall] Hin. destruct (Hall _ _ Hin) as [Ht|Ha].
  - destruct Ht as (prop & count & items & _ & _ & Hn & _).
    now apply tuple_name_not_array with (item_type := item_type) in Hn.
  - destruct Ha as (item & t & -> & Ht & Heq).
    apply append_inj_l in Heq. subst t. now exists item.
Qed.

Lemma in_keys_entry (A : Type) (key : string) (d : list (string * A)) :
  In key (map fst d) -> exists v, In (key, v) d.
Proof.
  intros H. apply in_map_iff in H. destruct H as ([k v] & <- & H). now exists v.
Qed.

(** The sorted items of a dict, around the entry of one of its keys. *)
Lemma sorted_items_around (A : Type) (d : list (string * A)) (key : string) :
  NoDup (map fst d) -> In key (map fst d) ->
  exists l1 v l2,
    In (key, v) d /\
    sorted_items d = (l1 ++ (key, v) :: l2)%list /\
    ~ In key (map fst (l1 ++ l2)%list).
Proof.
  intros Hnd Hin. destruct (in_keys_entry _ key d Hin) as [v Hv].
  assert (Hs : In (key, v) (sorted_items d)) by now apply in_sorted_by.
  destruct (in_split _ _ Hs) as (l1 & l2 & Heq).
  exists l1, v, l2. split; [exact Hv|]. split; [exact Heq|].
  assert (Hnd' : NoDup (map fst (sorted_items d))).
  { eapply Permutation_NoDup; [|exact Hnd].
    apply Permutation_map, Permutation_sym, sorted_by_perm. }
  rewrite Heq, map_app in Hnd'. simpl in Hnd'.
  apply NoDup_remove_2 in Hnd'. now rewrite map_app.
Qed.



(** ** Tuples and tuple wrappers *)

Lemma setitem_setitem (A : Type) (key : string) (v1 v2 : A) (d : list (string * A)) :
  setitem key v2 (setitem key v1 d) = setitem key v2 d.
Proof.
  induction d as [|[k v] d IH]; simpl.
  - now rewrite String.eqb_refl.
  - destruct (String.eqb_spec k key) as [->|Hne]; simpl.
    + now rewrite String.eqb_refl.
    + destruct (String.eqb_spec k key); [contradiction|]. now rewrite IH.
Qed.

Lemma setitem_keys (A : Type) (key : string) (v1 v2 : A) (d : list (string * A)) :
  map fst (setitem key v1 d) = map fst (setitem key v2 d).
Proof.
  induction d as [|[k v] d IH]; simpl; [reflexivity|].
  destruct (String.eqb k key); simpl; [reflexivity|]. now rewrite IH.
Qed.

Lemma same_text_refl (e : string * deferred) : same_text e e.
Proof. now split. Qed.

Lemma setitem_same_text (key : string) (v1 v2 : deferred) (d : registry) :
  (forall D, emit_deferred (key, v1) D = emit_deferred (key, v2) D) ->
  Forall2 same_text (setitem key v1 d) (setitem key v2 d).
Proof.
  intros H. induction d as [|[k v] d IH]; simpl.
  - constructor; [now split|constructor].
  - destruct (String.eqb k key).
    + constructor; [now split|]. clear. induction d; constructor; auto using same_text_refl.
    + constructor; [apply same_text_refl|exact IH].
Qed.

Lemma insert_same_text (e1 e2 : string * deferred) (l1 l2 : registry) :
  same_text e1 e2 -> Forall2 same_text l1 l2 ->
  Forall2 same_text (insert_by String.leb fst e1 l1) (insert_by String.leb fst e2 l2).
Proof.
  intros He HF. induction HF as [|x1 x2 l1 l2 Hx HF IH]; simpl.
  - constructor; [exact He|constructor].
  - rewrite (proj1 He), (proj1 Hx).
    destruct (String.leb (fst e2) (fst x2)).
    + constructor; [exact He|]. constructor; [exact Hx|exact HF].
    + constructor; [exact Hx|exact IH].
Qed.

Lemma sorted_same_text (l1 l2 : registry) :
  Forall2 same_text l1 l2 -> Forall2 same_text (sorted_items l1) (sorted_items l2).
Proof.
  unfold sorted_items. induction 1; simpl; [constructor|].
  now apply insert_same_text.
Qed.

Lemma for_each_same_text (l1 l2 : registry) :
  Forall2 same_text l1 l2 ->
  forall d, for_each l1 emit_deferred d = for_each l2 emit_deferred d.
Proof.
  unfold for_each. induction 1 as [|x1 x2 l1 l2 [_ Hx] HF IH]; intros d; simpl;
    [reflexivity|].
  unfold bind. rewrite Hx.
  destruct (emit_deferred x2 d) as [[[[] w] d1]|e]; [|reflexivity]. now rewrite IH.
Qed.

(** The name of a tuple, from the type names of its elements. *)
Lemma get_tuple_type_name_names (prop : description) (mx : Z)
    (items : list description) (names : list string) :
  is_tuple prop = true -> d_maxItems prop = Some mx ->
  d_items prop = Some (inr items) ->
  map_result get_type_name items = Ok names ->
  get_tuple_type_name prop
  = Ok ((if Z.eqb mx 2 then "Pair" else "Tuple") ++ "_" ++ join "_" names).
Proof.
  intros Ht Hm Hi Hn. unfold get_tuple_type_name, tuple_type_name_with.
  now rewrite Ht, Hm, Hi, Hn.
Qed.

(** A tuple that has a name has a list of items that all have type
    names, or a single description without keys for its items. *)
Lemma get_tuple_type_name_inv (prop : description) (name : string) :
  get_tuple_type_name prop = Ok name ->
  exists mx names,
    d_maxItems prop = Some mx /\
    name = (if Z.eqb mx 2 then "Pair" else "Tuple") ++ "_" ++ join "_" names /\
    ((exists item,
        d_items prop = Some (inl item) /\ d_keys item = [] /\ names = []) \/
     (exists items,
        d_items prop = Some (inr items) /\
        map_result get_type_name items = Ok names)).
Proof.
  unfold get_tuple_type_name, tuple_type_name_with.
  destruct (negb (is_tuple prop)); [discriminate|].
  destruct (d_maxItems prop) as [mx|]; [|discriminate].
  destruct (d_items prop) as [[item|items]|]; try discriminate.
  - destruct (map_result get_type_name_of_key (d_keys item)) as [names|] eqn:E;
      [|discriminate].
    intros [= <-]. destruct (keys_type_names _ _ E) as [Hk ->].
    exists mx, []. split; [reflexivity|]. split; [reflexivity|].
    left. now exists item.
  - destruct (map_result get_type_name items) as [names|] eqn:E; [|discriminate].
    intros [= <-]. exists mx, names. split; [reflexivity|]. split; [reflexivity|].
    right. now exists items.
Qed.

Lemma named_tuple_items (prop : description) (name : string) :
  get_tuple_type_name prop = Ok name -> exists items, d_items prop = Some items.
Proof.
  intros Hn.
  destruct (get_tuple_type_name_inv prop name Hn)
    as (mx & names & _ & _ & [(item & Hi & _)|(l & Hi & _)]);
    [now exists (inl item)|now exists (inr l)].
Qed.

Lemma for_each_fields (items : list description) (names : list string)
    (n : nat) (d : registry) :
  map_result get_type_name items = Ok names ->
  for_each (enumerate_from n items)
    (fun ii =>
       bind (lift (get_type_name (snd ii)))
         (fun vtype =>
            writeln (field_line "  " vtype ("v" ++ str_nat (fst ii)) (fst ii + 1)))) d
  = Ok (tt, map tuple_field (enumerate_from n names), d).
Proof.
  unfold for_each. revert names n.
  induction items as [|item items IH]; intros names n H; simpl in H.
  - now injection H as <-.
  - destruct (get_type_name item) as [t|] eqn:Et; [|discriminate].
    destruct (map_result get_type_name items) as [ts|] eqn:Es; [|discriminate].
    injection H as <-. cbn [enumerate_from fold_emit map].
    erewrite bind_ok; [|cbn [snd fst]; rewrite Et; reflexivity].
    now rewrite (IH ts (S n) eq_refl).
Qed.

(** The text of a tuple wrapper. *)
Lemma emit_deferred_tuple (key name : string) (count : Z)
    (items : list description) (names : list string) (d : registry) :
  map_result get_type_name items = Ok names ->
  emit_deferred (key, DeferredTupleType name count (inr items)) d
  = Ok (tt,
        (("message " ++ key ++ " {")%string
           :: map tuple_field (enumerate names) ++ [ ("}" ++ newline)%string ])%list,
        d).
Proof.
  intros H. unfold emit_deferred, enumerate.
  erewrite bind_ok; [|reflexivity].
  erewrite bind_ok; [|exact (for_each_fields items names 0 d H)].
  reflexivity.
Qed.

(** The text of a tuple wrapper whose items are a single description
    without keys. *)
Lemma emit_deferred_tuple_no_keys (key name : string) (count : Z)
    (item : description) (d : registry) :
  d_keys item = [] ->
  emit_deferred (key, DeferredTupleType name count (inl item)) d
  = Ok (tt, [ ("message " ++ key ++ " {")%string; ("}" ++ newline)%string ], d).
Proof. intros H. unfold emit_deferred. rewrite H. reflexivity. Qed.

(** The round of the loop on a tuple. *)
Lemma emit_property_tuple (raw : string) (prop : description) (name : string)
    (c : nat) (d : registry) :
  is_ref prop = false -> is_tuple prop = true ->
  get_tuple_type_name prop = Ok name ->
  exists count items,
    d_minItems prop = Some count /\ d_items prop = Some items /\
    emit_property c (raw, prop) d
    = Ok (S c,
          [ field_line "  " name (sanitize_prop_name raw) c ],
          setitem name (DeferredTupleType name count items) d).
Proof.
  intros Hr Ht Hn.
  destruct (named_tuple_items prop name Hn) as [l Hi].
  assert (Hc : exists count, d_minItems prop = Some count).
  { unfold is_tuple in Ht. destruct (d_type prop); [|discriminate].
    destruct (negb _); [discriminate|].
    destruct (d_maxItems prop); [|discriminate].
    destruct (d_minItems prop) as [mn|]; [now exists mn|discriminate]. }
  destruct Hc as [count Hc]. exists count, l.
  split; [exact Hc|]. split; [exact Hi|].
  unfold emit_property.
  rewrite Hr, (tuple_is_primitive prop Ht), (get_primitive_type_name_tuple prop Ht), Hn, Ht.
  unfold register_tuple. rewrite Hc, Hi. reflexivity.
Qed.


(** ** The deferred section of a run *)

Lemma length_append (s t : string) :
  String.length (s ++ t) = String.length s + String.length t.
Proof. induction s as [|a s IH]; simpl; [reflexivity|now rewrite IH]. Qed.

Lemma append_same_length (a b x y : string) :
  String.length a = String.length b -> a ++ x = b ++ y -> a = b.
Proof.
  revert b. induction a as [|c a IH]; intros [|c' b] Hl H; simpl in *;
    try discriminate; [reflexivity|].
  injection H as -> H. f_equal. apply IH; [lia|exact H].
Qed.

Lemma append_inj_r (a b s : string) : a ++ s = b ++ s -> a = b.
Proof.
  intros H. apply (append_same_length a b s s); [|exact H].
  apply (f_equal String.length) in H. rewrite !length_append in H. lia.
Qed.

Lemma last_char_append (s : string) (c : ascii) (t : string) :
  last_char (s ++ String c t) = last_char (String c t).
Proof.
  induction s as [|a s IH]; [reflexivity|].
  change (String a s ++ String c t) with (String a (s ++ String c t)).
  cbn [last_char]. rewrite IH.
  destruct (s ++ String c t) eqn:E; [|reflexivity].
  destruct s; discriminate.
Qed.

(** The text of an entry of well-formed deferred types. *)
Lemma wrapper_lines_entry (d : registry) (k : string) (v : deferred) :
  well_formed d -> In (k, v) d ->
  exists block,
    wrapper_lines (k, v) block /\
    forall D, emit_deferred (k, v) D = Ok (tt, block, D).
Proof.
  intros [_ Hall] Hin. destruct (Hall _ _ Hin) as [Ht|Ha].
  - destruct Ht as (p & count & items & -> & _ & Hp & _ & Hi).
    destruct (get_tuple_type_name_inv p k Hp)
      as (mx & names & _ & _ & [(item & Hi' & Hk & ->)|(l & Hi' & Hnames)]);
      rewrite Hi in Hi'; injection Hi' as ->.
    + eexists. split.
      * exists []. split; [now split|reflexivity].
      * intros D. now apply emit_deferred_tuple_no_keys.
    + eexists. split.
      * exists names. split; [exact Hnames|reflexivity].
      * intros D. now apply emit_deferred_tuple.
  - destruct Ha as (item & t & -> & Ht & _).
    eexists. split.
    + exists t. split; [exact Ht|reflexivity].
    + intros D. exact (emit_deferred_array k k item t D Ht).
Qed.

(** The loop over entries of well-formed deferred types returns, with
    the text of every entry in turn, and leaves the deferred types as
    they are. *)
Lemma drain_blocks (d l : registry) :
  well_formed d -> incl l d ->
  exists blocks,
    Forall2
      (fun entry block =>
         wrapper_lines entry block /\
         forall D, emit_deferred entry D = Ok (tt, block, D))
      l blocks /\
    forall D, for_each l emit_deferred D = Ok (tt, concat blocks, D).
Proof.
  intros Hwf. induction l as [|[k v] l IH]; intros Hincl.
  - exists []. split; [constructor|reflexivity].
  - destruct (wrapper_lines_entry d k v Hwf (Hincl _ (or_introl eq_refl)))
      as (block & Hw & Hb).
    destruct (IH (fun x Hx => Hincl x (or_intror Hx))) as (blocks & HF & Hl).
    exists (block :: blocks). split; [constructor; [now split|exact HF]|].
    intros D. unfold for_each. cbn [fold_emit concat].
    rewrite (bind_ok _ _ _ _ D tt block D (Hb D)).
    fold (for_each l emit_deferred). now rewrite Hl.
Qed.

(** The loop over the definitions leaves well-formed deferred types. *)
Lemma definitions_leave_well_formed (capa : capa_modules) (schema : schema)
    (l : list string) u primary deferred_types :
  for_each l (fun name => emit_proto_entry capa schema (definitions_prefix ++ name)) []
  = Ok (u, primary, deferred_types) ->
  well_formed deferred_types.
Proof.
  intros H.
  exact (keeps_for_each _ well_formed _ _
           (fun name _ => keeps_emit_proto_entry well_formed well_formed_closed
                            capa schema (definitions_prefix ++ name))
           [] u primary deferred_types H well_formed_empty).
Qed.

(** A run whose loop over the definitions returns. *)
Lemma generate_returns (capa : capa_modules) (schema : schema) u primary deferred_types :
  for_each (sorted_strings (map fst (definitions schema)))
    (fun name => emit_proto_entry capa schema (definitions_prefix ++ name)) []
  = Ok (u, primary, deferred_types) ->
  well_formed deferred_types /\
  exists deferred_blocks,
    Forall2
      (fun entry block =>
         wrapper_lines entry block /\
         forall D, emit_deferred entry D = Ok (tt, block, D))
      (sorted_items deferred_types) deferred_blocks /\
    (forall D, for_each (sorted_items deferred_types) emit_deferred D
               = Ok (tt, concat deferred_blocks, D)) /\
    generate_proto_from_pydantic capa schema
    = Ok (getvalue (header ++ primary ++ concat deferred_blocks ++ helper_types)%list).
Proof.
  intros H.
  pose proof (definitions_leave_well_formed capa schema _ u primary deferred_types H)
    as Hwf.
  split; [exact Hwf|].
  destruct (drain_blocks deferred_types (sorted_items deferred_types) Hwf)
    as (blocks & HF & Hl).
  { intros x Hx. exact (proj1 (in_sorted_by _ _ _ _ x deferred_types) Hx). }
  exists blocks. split; [exact HF|]. split; [exact Hl|].
  unfold generate_proto_from_pydantic, generate_commands.
  rewrite (bind_ok _ _ _ _ [] tt header [] (for_each_writeln_id header [])).
  rewrite (bind_ok _ _ _ _ [] u primary deferred_types H).
  unfold deferred_items.
  rewrite (bind_ok _ _ _ _ deferred_types deferred_types [] deferred_types eq_refl).
  rewrite (bind_ok _ _ _ _ deferred_types tt (concat blocks) deferred_types
             (Hl deferred_types)).
  rewrite for_each_writeln_id. reflexivity.
Qed.

(** The run that returns, from its text. *)
Lemma run_structure (capa : capa_modules) (schema : schema) (text : string) :
  generate_proto_from_pydantic capa schema = Ok text ->
  exists primary deferred_types deferred_blocks,
    for_each (sorted_strings (map fst (definitions schema)))
      (fun name => emit_proto_entry capa schema (definitions_prefix ++ name)) []
    = Ok (tt, primary, deferred_types) /\
    well_formed deferred_types /\
    Forall2
      (fun entry block =>
         wrapper_lines entry block /\
         forall D, emit_deferred entry D = Ok (tt, block, D))
      (sorted_items deferred_types) deferred_blocks /\
    (forall D, for_each (sorted_items deferred_types) emit_deferred D
               = Ok (tt, concat deferred_blocks, D)) /\
    text = getvalue (header ++ primary ++ concat deferred_blocks ++ helper_types)%list.
Proof.
  intros Hg.
  destruct (generate_inv capa schema text Hg) as (primary & reg & dlines & H1 & _ & _).
  destruct (generate_returns capa schema tt primary reg H1)
    as (Hwf & blocks & HF & Hl & Hrun).
  exists primary, reg, blocks.
  split; [exact H1|]. split; [exact Hwf|]. split; [exact HF|]. split; [exact Hl|].
  rewrite Hrun in Hg. now injection Hg as <-.
Qed.

Lemma wrapper_lines_only (l : registry) (blocks : list (list string)) :
  Forall2
    (fun entry block =>
       wrapper_lines entry block /\
       forall D, emit_deferred entry D = Ok (tt, block, D))
    l blocks ->
  Forall2 wrapper_lines l blocks.
Proof. apply Forall2_impl. now intros entry block [H _]. Qed.

(** *** The lines of a wrapper *)

Lemma last_char_opening (name : string) :
  last_char ("message " ++ name ++ " {") = Some "{"%char.
Proof. rewrite <- append_assoc, last_char_append. reflexivity. Qed.

Lemma last_char_array_line (name item_type : string) :
  last_char ("message " ++ name ++ " { repeated " ++ item_type
               ++ " values = 1; }" ++ newline)
  = Some "010"%char.
Proof.
  unfold newline.
  rewrite <- (append_assoc item_type), <- (append_assoc " { repeated "),
    <- (append_assoc name), <- (append_assoc "message ").
  rewrite last_char_append. reflexivity.
Qed.

(** The line of an array wrapper tells the type name of the item. *)
Lemma array_line_inj (t1 t2 : string) :
  "message " ++ ("Array_" ++ t1) ++ " { repeated " ++ t1 ++ " values = 1; }" ++ newline
  = "message " ++ ("Array_" ++ t2) ++ " { repeated " ++ t2 ++ " values = 1; }" ++ newline ->
  t1 = t2.
Proof.
  intros H. apply (append_inj_l "message ") in H.
  rewrite !append_assoc in H. apply (append_inj_l "Array_") in H.
  apply (append_same_length _ _ _ _) in H; [exact H|].
  apply (f_equal String.length) in H. rewrite !length_append in H. lia.
Qed.

Lemma tuple_field_first (iv : nat * string) :
  exists rest, tuple_field iv = String " " rest.
Proof. unfold tuple_field, field_line. eexists. reflexivity. Qed.

(** The lines of the block of a tuple. *)
Lemma in_tuple_block (name line : string) (names : list string) :
  In line ((("message " ++ name ++ " {")%string
              :: map tuple_field (enumerate names)
              ++ [ ("}" ++ newline)%string ])%list) ->
  line = "message " ++ name ++ " {" \/
  (exists rest, line = String " " rest) \/
  line = "}" ++ newline.
Proof.
  intros [<-|H]; [now left|]. right.
  apply in_app_or in H. destruct H as [H|[<-|[]]]; [left|now right].
  apply in_map_iff in H. destruct H as (iv & <- & _). apply tuple_field_first.
Qed.

(** No other entry of well-formed deferred types writes the line of the
    array wrapper [Array_X]. *)
Lemma foreign_array_line (d : registry) (k : string) (v : deferred)
    (block : list string) (item_type : string) :
  well_formed d -> In (k, v) d -> wrapper_lines (k, v) block ->
  k <> "Array_" ++ item_type ->
  ~ In ("message " ++ ("Array_" ++ item_type) ++ " { repeated " ++ item_type
          ++ " values = 1; }" ++ newline) block.
Proof.
  intros [_ Hall] Hin Hw Hne Hline. destruct (Hall _ _ Hin) as [Ht|Ha].
  - destruct Ht as (p & count & items & -> & _).
    destruct Hw as (names & _ & ->). cbn [fst] in Hline.
    destruct (in_tuple_block _ _ _ Hline) as [H|[[rest H]|H]].
    + apply (f_equal last_char) in H.
      rewrite last_char_opening, last_char_array_line in H. discriminate.
    + discriminate.
    + discriminate.
  - destruct Ha as (item & t & -> & Ht & ->).
    destruct Hw as (t' & Ht' & ->). rewrite Ht in Ht'. injection Ht' as <-.
    destruct Hline as [H|[]]. cbn [fst] in H.
    apply Hne. f_equal. exact (array_line_inj _ _ H).
Qed.

(** No other entry writes the line that opens the wrapper of a tuple. *)
Lemma foreign_tuple_opening (k : string) (v : deferred) (block : list string)
    (name : string) :
  wrapper_lines (k, v) block -> k <> name ->
  ~ In ("message " ++ name ++ " {") block.
Proof.
  intros Hw Hne Hline. destruct v as [n item|n count items].
  - destruct Hw as (t & _ & ->). destruct Hline as [H|[]]. cbn [fst] in H.
    apply (f_equal last_char) in H.
    rewrite last_char_opening, last_char_array_line in H. discriminate.
  - destruct Hw as (names & _ & ->). cbn [fst] in Hline.
    destruct (in_tuple_block _ _ _ Hline) as [H|[[rest H]|H]].
    + apply (append_inj_l "message ") in H. apply append_inj_r in H.
      now apply Hne.
    + discriminate.
    + discriminate.
Qed.

(** The block of a tuple wrapper has the line that opens it once. *)
Lemma tuple_opening_once (name : string) (names : list string) :
  count_occ string_dec
    ((("message " ++ name ++ " {")%string
        :: map tuple_field (enumerate names)
        ++ [ ("}" ++ newline)%string ])%list)
    ("message " ++ name ++ " {")
  = 1.
Proof.
  rewrite count_occ_cons_eq by reflexivity. f_equal.
  apply count_occ_not_In. intros H.
  apply in_app_or in H. destruct H as [H|[H|[]]].
  - apply in_map_iff in H. destruct H as (iv & H & _).
    destruct (tuple_field_first iv) as [rest Hr]. rewrite Hr in H. discriminate.
  - discriminate.
Qed.

Lemma concat_not_in (X : Type) (R : X -> list string -> Prop) (line : string)
    (l : list X) (blocks : list (list string)) :
  Forall2 R l blocks ->
  (forall x block, In x l -> R x block -> ~ In line block) ->
  ~ In line (concat blocks).
Proof.
  induction 1 as [|x block l blocks Hx _ IH]; intros Hall; simpl; [tauto|].
  intros H. apply in_app_or in H. destruct H as [H|H].
  - exact (Hall x block (or_introl eq_refl) Hx H).
  - apply IH; [|exact H]. intros y b Hy. apply Hall. now right.
Qed.

(** A line that the entry of one key writes once, and no other entry
    writes, is once in the deferred section. *)
Lemma deferred_line_once (d : registry) (key line : string)
    (blocks : list (list string)) :
  NoDup (map fst d) -> In key (map fst d) ->
  Forall2 wrapper_lines (sorted_items d) blocks ->
  (forall k v block,
     In (k, v) d -> wrapper_lines (k, v) block -> k <> key -> ~ In line block) ->
  (forall v block,
     In (key, v) d -> wrapper_lines (key, v) block ->
     count_occ string_dec block line = 1) ->
  count_occ string_dec (concat blocks) line = 1.
Proof.
  intros Hnd Hin HF Hother Hown.
  destruct (sorted_items_around _ d key Hnd Hin) as (l1 & v & l2 & Hv & Hs & Hn).
  rewrite Hs in HF.
  apply Forall2_app_inv_l in HF. destruct HF as (b1 & b2' & HF1 & HF2 & ->).
  inversion HF2 as [|x block l2' b2 Hblock HF3]; subst.
  rewrite concat_app. cbn [concat]. rewrite !count_occ_app.
  assert (Hfar : forall l bs,
             Forall2 wrapper_lines l bs -> incl l (l1 ++ l2)%list ->
             count_occ string_dec (concat bs) line = 0).
  { intros l bs HFl Hincl. apply count_occ_not_In.
    apply (concat_not_in _ wrapper_lines line l bs HFl).
    intros [k v'] b Hk Hw. apply (Hother k v' b); [|exact Hw|].
    - assert (Hk' : In (k, v') (sorted_items d)).
      { rewrite Hs. apply Hincl in Hk. apply in_app_or in Hk. apply in_or_app.
        destruct Hk as [Hk|Hk]; [now left|right; now right]. }
      unfold sorted_items in Hk'. now apply in_sorted_by in Hk'.
    - intros ->. apply Hn. apply in_map_iff. exists (key, v'). split; [reflexivity|].
      now apply Hincl. }
  rewrite (Hfar l1 b1 HF1) by (intros x Hx; apply in_or_app; now left).
  rewrite (Hfar l2 b2 HF3) by (intros x Hx; apply in_or_app; now right).
  rewrite (Hown v block Hv Hblock). reflexivity.
Qed.

(** *** The lines of the definitions *)

Lemma writes_ret (A : Type) (P : string -> Prop) (a : A) : writes P (ret a).
Proof. intros d a' w d' [= _ <- _]. constructor. Qed.

Lemma writes_writeln (P : string -> Prop) (s : string) : P s -> writes P (writeln s).
Proof.
  intros H d a' w d' E. unfold writeln in E.
  assert (Hw : w = [s]) by congruence. subst w. now constructor.
Qed.

Lemma writes_raise (A : Type) (P : string -> Prop) (e : error) : writes P (@raise A e).
Proof. intros d a' w d' H. discriminate. Qed.

Lemma writes_lift (A : Type) (P : string -> Prop) (r : result A) : writes P (lift r).
Proof.
  intros d a' w d' H. unfold lift in H.
  destruct r; [|discriminate]. injection H as _ <- _. constructor.
Qed.

Lemma writes_register (P : string -> Prop) (key : string) (v : deferred) :
  writes P (register key v).
Proof.
  intros d a' w d' E. unfold register in E.
  assert (Hw : w = []) by congruence. subst w. constructor.
Qed.

Lemma writes_bind (A B : Type) (P : string -> Prop) (m : emit A) (k : A -> emit B) :
  writes P m -> (forall a, writes P (k a)) -> writes P (bind m k).
Proof.
  intros Hm Hk d b w d' H.
  destruct (bind_inv _ _ m k d b w d' H) as (a & w1 & d1 & w2 & H1 & H2 & ->).
  apply Forall_app. split; [exact (Hm d a w1 d1 H1)|exact (Hk a d1 b w2 d' H2)].
Qed.

Lemma writes_bind_lift (A B : Type) (P : string -> Prop) (r : result A)
    (k : A -> emit B) :
  (forall a, writes P (k a)) -> writes P (bind (lift r) k).
Proof. intros Hk. apply writes_bind; [apply writes_lift|exact Hk]. Qed.

Lemma writes_fold (S X : Type) (P : string -> Prop) (body : S -> X -> emit S)
    (l : list X) :
  (forall s x, writes P (body s x)) -> forall s, writes P (fold_emit body s l).
Proof.
  intros H. induction l as [|x l IH]; intros s; simpl; [apply writes_ret|].
  apply writes_bind; [apply H|exact IH].
Qed.

Lemma writes_for_each (X : Type) (P : string -> Prop) (body : X -> emit unit)
    (l : list X) :
  (forall x, writes P (body x)) -> writes P (for_each l body).
Proof. intros H. apply writes_fold. intros _ x. apply H. Qed.

(** The lines of the definitions end with a brace or a semicolon, or are
    empty. *)
Lemma ends_without_newline (s : string) (c : ascii) (t : string) :
  last_char (String c t) <> Some "010"%char ->
  no_final_newline (s ++ String c t).
Proof. intros H. unfold no_final_newline. now rewrite last_char_append. Qed.

Lemma field_line_end (indent ptype name : string) (i : nat) :
  no_final_newline (field_line indent ptype name i).
Proof.
  unfold field_line.
  rewrite <- (append_assoc " = "), <- (append_assoc name), <- (append_assoc " "),
    <- (append_assoc ptype), <- (append_assoc indent).
  apply ends_without_newline. discriminate.
Qed.

Lemma opening_end (kind title : string) :
  no_final_newline (kind ++ title ++ " {").
Proof. rewrite <- append_assoc. apply ends_without_newline. discriminate. Qed.

Lemma writes_register_tuple (name : string) (prop : description) :
  writes no_final_newline (register_tuple name prop).
Proof.
  unfold register_tuple.
  apply writes_bind_lift. intros count. apply writes_bind_lift. intros items.
  apply writes_register.
Qed.

Lemma writes_emit_alternative (ic : nat * nat) (jof : nat * description) :
  writes no_final_newline (emit_alternative ic jof).
Proof.
  destruct ic as [i c], jof as [j alt]. unfold emit_alternative.
  apply writes_bind; [|intros _; apply writes_ret].
  destruct (is_ref alt).
  - apply writes_bind_lift. intros ptype. apply writes_writeln, field_line_end.
  - destruct (is_primitive_type alt); [|apply writes_raise].
    apply writes_bind_lift. intros ptype.
    apply writes_bind; [apply writes_writeln, field_line_end|]. intros _.
    destruct (is_tuple alt); [apply writes_register_tuple|apply writes_ret].
Qed.

Lemma writes_emit_property (c : nat) (np : string * description) :
  writes no_final_newline (emit_property c np).
Proof.
  destruct np as [raw prop]. unfold emit_property.
  destruct (is_ref prop).
  { apply writes_bind_lift. intros ptype.
    apply writes_bind; [apply writes_writeln, field_line_end|].
    intros _. apply writes_ret. }
  destruct (is_primitive_type prop).
  { apply writes_bind_lift. intros ptype.
    apply writes_bind; [apply writes_writeln, field_line_end|]. intros _.
    apply writes_bind; [|intros _; apply writes_ret].
    destruct (is_tuple prop); [apply writes_register_tuple|].
    apply writes_bind_lift. intros [|]; [|apply writes_ret].
    apply writes_bind_lift. intros aitem.
    destruct (is_tuple aitem); [|apply writes_ret].
    apply writes_bind_lift. intros atype. apply writes_register_tuple. }
  destruct (is_custom_type prop).
  { apply writes_bind_lift. intros ptype.
    apply writes_bind; [apply writes_writeln, field_line_end|].
    intros _. apply writes_ret. }
  destruct (is_union prop).
  { apply writes_bind; [apply writes_writeln, (opening_end "  oneof ")|]. intros _.
    apply writes_bind_lift. intros alts.
    apply writes_bind.
    - apply writes_fold. intros ic jof. apply writes_emit_alternative.
    - intros ic. apply writes_bind; [|intros _; apply writes_ret].
      apply writes_writeln. discriminate. }
  destruct (is_map prop); [|apply writes_raise].
  apply writes_bind_lift. intros values.
  apply writes_bind_lift. intros b.
  apply writes_bind.
  - destruct b; [|apply writes_lift].
    apply writes_bind_lift. intros item_def.
    apply writes_bind_lift. intros item_type.
    apply writes_bind; [apply writes_register|intros _; apply writes_ret].
  - intros vtype. apply writes_bind; [|intros _; apply writes_ret].
    apply writes_writeln.
    rewrite <- (append_assoc " = "), <- (append_assoc (sanitize_prop_name raw)),
      <- (append_assoc "> "), <- (append_assoc vtype),
      <- (append_assoc "  map <string, ").
    apply ends_without_newline. discriminate.
Qed.

Lemma writes_emit_proto_enum (enum : description) :
  writes no_final_newline (emit_proto_enum enum).
Proof.
  unfold emit_proto_enum.
  apply writes_bind_lift. intros title.
  apply writes_bind; [apply writes_writeln, (opening_end "enum ")|]. intros _.
  apply writes_bind.
  { apply writes_writeln. rewrite <- append_assoc.
    apply ends_without_newline. discriminate. }
  intros _. apply writes_bind_lift. intros values.
  apply writes_bind.
  - apply writes_for_each. intros iv. apply writes_writeln.
    rewrite <- (append_assoc " = "),
      <- (append_assoc (render_value (upper title) (snd iv))), <- (append_assoc "  ").
    apply ends_without_newline. discriminate.
  - intros _. apply writes_bind; [|intros _]; apply writes_writeln; discriminate.
Qed.

Lemma writes_emit_proto_message (capa : capa_modules) (message : description) :
  writes no_final_newline (emit_proto_message capa message).
Proof.
  unfold emit_proto_message.
  apply writes_bind_lift. intros title.
  apply writes_bind; [apply writes_writeln, (opening_end "message ")|]. intros _.
  apply writes_bind_lift. intros props.
  apply writes_bind.
  - apply writes_fold. intros c np. apply writes_emit_property.
  - intros _. apply writes_bind; [|intros _]; apply writes_writeln; discriminate.
Qed.

Lemma writes_emit_proto_entry (capa : capa_modules) (schema : schema) (name : string) :
  writes no_final_newline (emit_proto_entry capa schema name).
Proof.
  unfold emit_proto_entry.
  destruct (negb (startswith definitions_prefix name)); [apply writes_raise|].
  apply writes_bind_lift. intros definition.
  apply writes_bind_lift. intros stored.
  destruct (negb (stored =? drop (String.length definitions_prefix) name)%string);
    [apply writes_raise|].
  apply writes_bind_lift. intros type.
  destruct ((type =? "string")%string && contains (d_enum definition));
    [apply writes_emit_proto_enum|].
  destruct (type =? "object")%string;
    [apply writes_emit_proto_message|apply writes_raise].
Qed.

(** The line of an array wrapper is no line of the definitions, of the
    header or of the helper types. *)
Lemma array_line_not_primary (capa : capa_modules) (schema : schema)
    (l : list string) (name item_type : string) d u primary d' :
  for_each l (fun name => emit_proto_entry capa schema (definitions_prefix ++ name)) d
  = Ok (u, primary, d') ->
  ~ In ("message " ++ name ++ " { repeated " ++ item_type ++ " values = 1; }"
          ++ newline) primary.
Proof.
  intros H Hin.
  pose proof (writes_for_each _ no_final_newline _ l
                (fun name => writes_emit_proto_entry capa schema
                               (definitions_prefix ++ name))
                d u primary d' H) as HF.
  rewrite Forall_forall in HF. apply (HF _ Hin). apply last_char_array_line.
Qed.

Lemma array_line_not_fixed (item_type : string) :
  ~ In ("message Array_" ++ item_type ++ " { repeated " ++ item_type
          ++ " values = 1; }" ++ newline) (header ++ helper_types)%list.
Proof.
  intros H. simpl in H.
  destruct H as [H|[H|[H|[H|[H|[]]]]]]; discriminate.
Qed.

(** ** The order of the output *)

(** C5: the output is a function of the schema, and definitions mappings
    that hold the same entries in another order give the same text.  The
    text is the three lines of the header; then the entry of every
    definition in ascending order of title, each starting with the line
    that names it; then the wrappers of the deferred types that the
    entries left, one for each name, in ascending order of name: the one
    line of an array wrapper, and for a tuple wrapper the line that
    opens it, its fields and the line that closes it; then the two
    helper types [Integer] and [Number]. *)
Theorem output_is_ordered (capa : capa_modules) :
  (forall s1 s2,
     NoDup (map fst (definitions s1)) ->
     Permutation (definitions s1) (definitions s2) ->
     generate_proto_from_pydantic capa s1 = generate_proto_from_pydantic capa s2) /\
  (forall schema text,
     generate_proto_from_pydantic capa schema = Ok text ->
     exists blocks deferred_types deferred_blocks,
       text = getvalue
                ([ "// Generated by the capa.render.proto translator. DO NOT EDIT!";
                   ("syntax = " ++ String "034"%char "proto3"
                      ++ String "034"%char ";")%string;
                   "" ]
                 ++ concat blocks ++ concat deferred_blocks
                 ++ [ ("message Integer { oneof value { uint64 u = 1; int64 i = 2; } }"
                         ++ String "010"%char "")%string;
                      ("message Number { oneof value { uint64 u = 1; int64 i = 2; "
                         ++ "double f = 3; } }" ++ String "010"%char "")%string ])%list /\
       Permutation (sorted_strings (map fst (definitions schema)))
         (map fst (definitions schema)) /\
       StronglySorted (fun a b => String.leb a b = true)
         (sorted_strings (map fst (definitions schema))) /\
       Forall2
         (fun title block =>
            (exists d d',
               emit_proto_entry capa schema (definitions_prefix ++ title) d
               = Ok (tt, block, d')) /\
            exists rest,
              block = ("enum " ++ title ++ " {") :: rest \/
              block = ("message " ++ title ++ " {") :: rest)
         (sorted_strings (map fst (definitions schema))) blocks /\
       for_each (sorted_strings (map fst (definitions schema)))
         (fun name => emit_proto_entry capa schema (definitions_prefix ++ name)) []
       = Ok (tt, concat blocks, deferred_types) /\
       NoDup (map fst deferred_types) /\
       Permutation (sorted_items deferred_types) deferred_types /\
       StronglySorted (fun a b => String.leb (fst a) (fst b) = true)
         (sorted_items deferred_types) /\
       Forall2
         (fun entry block =>
            wrapper_lines entry block /\
            forall D, emit_deferred entry D = Ok (tt, block, D))
         (sorted_items deferred_types) deferred_blocks).
Proof.
  split; [exact (generate_perm capa)|].
  intros schema text H.
  destruct (run_structure capa schema text H)
    as (primary & reg & dblocks & H1 & Hwf & HF2 & _ & ->).
  destruct (for_each_blocks _ _ _ _ _ _ _ H1) as (blocks & -> & HF1).
  exists blocks, reg, dblocks.
  split; [reflexivity|].
  split; [apply sorted_by_perm|].
  split; [apply sorted_strings_sorted|].
  split.
  { eapply Forall2_impl; [|exact HF1]. intros title block (d1 & d2 & He).
    split; [now exists d1, d2|].
    exact (emit_proto_entry_first_line capa schema title _ _ _ _ He). }
  split; [exact H1|].
  split; [exact (proj1 Hwf)|].
  split; [apply sorted_by_perm|].
  split; [apply sorted_items_sorted|exact HF2].
Qed.

Lemma output_is_ordered_witness :
  NoDup (map fst (definitions schema_one_way)) /\
  Permutation (definitions schema_one_way) (definitions schema_other_way) /\
  generate_proto_from_pydantic match_classes schema_one_way
  = generate_proto_from_pydantic match_classes schema_other_way /\
  (exists text blocks deferred_types deferred_blocks,
     generate_proto_from_pydantic match_classes schema_one_way = Ok text /\
     sorted_strings (map fst (definitions schema_one_way)) = ["Match"; "Scope"] /\
     for_each ["Match"; "Scope"]
       (fun name => emit_proto_entry match_classes schema_one_way
                      (definitions_prefix ++ name)) []
     = Ok (tt, concat blocks, deferred_types) /\
     Forall2
       (fun entry block =>
          wrapper_lines entry block /\
          forall D, emit_deferred entry D = Ok (tt, block, D))
       (sorted_items deferred_types) deferred_blocks) /\
  generate_proto_from_pydantic match_classes schema_other_way
  = Ok (String.concat (String "010"%char "")
          [ "// Generated by the capa.render.proto translator. DO NOT EDIT!";
            ("syntax = " ++ String "034"%char "proto3" ++ String "034"%char ";")%string;
            "";
            "message Match {";
            "  bool success = 1;";
            "  Pair_Address_Match children = 2;";
            "  repeated Address locations = 3;";
            "  map <string, Array_Address> captures = 4;";
            "}";
            "";
            "enum Scope {";
            "  SCOPE_UNSPECIFIED = 0;";
            "  SCOPE_FILE = 1;";
            "  SCOPE_FUNCTION = 2;";
            "}";
            "";
            ("message Array_Address { repeated Address values = 1; }"
               ++ String "010"%char "")%string;
            "message Pair_Address_Match {";
            "  Address v0 = 1;";
            "  Match v1 = 2;";
            ("}" ++ String "010"%char "")%string;
            ("message Integer { oneof value { uint64 u = 1; int64 i = 2; } }"
               ++ String "010"%char "")%string;
            ("message Number { oneof value { uint64 u = 1; int64 i = 2; "
               ++ "double f = 3; } }" ++ String "010"%char "")%string ]
        ++ String "010"%char "").
Proof.
  assert (Hnd : NoDup (map fst (definitions schema_one_way)))
    by (repeat constructor; simpl; intuition discriminate).
  assert (HP : Permutation (definitions schema_one_way) (definitions schema_other_way))
    by apply perm_swap.
  split; [exact Hnd|]. split; [exact HP|].
  pose proof (proj1 (output_is_ordered match_classes) _ _ Hnd HP) as Hsame.
  split; [exact Hsame|]. split.
  - destruct (proj2 (output_is_ordered match_classes) schema_one_way _ eq_refl)
      as (blocks & reg & dblocks & _ & _ & _ & _ & Hf & _ & _ & _ & Hd).
    eexists; exists blocks, reg, dblocks.
    split; [reflexivity|]. split; [reflexivity|]. split; [exact Hf|exact Hd].
  - rewrite <- Hsame. reflexivity.
Defined.

(** ** Maps and the array wrapper in the output *)

(** C8 (as amended): a map property whose values are arrays of items of
    type name X is emitted as the line [map <string, Array_X> name = n;],
    indented by two spaces and with a space between [map] and [<string],
    and registers the array wrapper [Array_X].  In the output of a run
    on a schema with such a property the deferred types that the
    definitions leave have [Array_X] among their distinct names, the
    deferred section holds the wrappers of these names in ascending
    order, and the line [message Array_X { repeated X values = 1; }] is
    in the deferred section exactly once and nowhere else in the output.
    A map whose values are no arrays is emitted as
    [map <string, V> name = n;] with V the type name of the values. *)
Theorem map_of_array_wrapper (capa : capa_modules) (raw : string)
    (prop values : description) :
  is_ref prop = false -> is_union prop = false -> is_map prop = true ->
  d_additionalProperties prop = Some values ->
  (forall item item_type,
     is_array values = Ok true ->
     d_items values = Some (inl item) ->
     get_type_name item = Ok item_type ->
     (forall c d,
        emit_property c (raw, prop) d
        = Ok (S c,
              [ "  map <string, Array_" ++ item_type ++ "> " ++ sanitize_prop_name raw
                  ++ " = " ++ str_nat c ++ ";" ],
              setitem ("Array_" ++ item_type)
                (DeferredArrayType ("Array_" ++ item_type) item) d)) /\
     forall schema text title definition props,
       generate_proto_from_pydantic capa schema = Ok text ->
       lookup title (definitions schema) = Some definition ->
       d_type definition = Some "object" ->
       d_properties definition = Some props ->
       In (raw, prop) props ->
       exists primary deferred_types deferred_blocks,
         for_each (sorted_strings (map fst (definitions schema)))
           (fun name => emit_proto_entry capa schema (definitions_prefix ++ name)) []
         = Ok (tt, primary, deferred_types) /\
         NoDup (map fst deferred_types) /\
         In ("Array_" ++ item_type) (map fst deferred_types) /\
         StronglySorted (fun a b => String.leb (fst a) (fst b) = true)
           (sorted_items deferred_types) /\
         Forall2 wrapper_lines (sorted_items deferred_types) deferred_blocks /\
         text = getvalue
                  (header ++ primary ++ concat deferred_blocks ++ helper_types)%list /\
         count_occ string_dec (concat deferred_blocks)
           ("message Array_" ++ item_type ++ " { repeated " ++ item_type
              ++ " values = 1; }" ++ newline)
         = 1 /\
         count_occ string_dec
           (header ++ primary ++ concat deferred_blocks ++ helper_types)%list
           ("message Array_" ++ item_type ++ " { repeated " ++ item_type
              ++ " values = 1; }" ++ newline)
         = 1) /\
  (forall value_type,
     is_array values = Ok false ->
     get_type_name values = Ok value_type ->
     forall c d,
       emit_property c (raw, prop) d
       = Ok (S c,
             [ "  map <string, " ++ value_type ++ "> " ++ sanitize_prop_name raw
                 ++ " = " ++ str_nat c ++ ";" ],
             d)).
Proof.
  intros Hr Hu Hm Hv. split.
  - intros item item_type Ha Hi Ht.
    pose proof (fun c d => emit_property_map_array raw prop values item item_type c d
                             Hr Hu Hm Hv Ha Hi Ht) as He.
    split; [exact He|].
    intros schema text title definition props Hg Hl Hty Hp Hin.
    destruct (run_structure capa schema text Hg)
      as (primary & reg & dblocks & H1 & Hwf & HF & _ & ->).
    apply wrapper_lines_only in HF.
    assert (Hreg : In ("Array_" ++ item_type) (map fst reg)).
    { apply (property_establishes (registered ("Array_" ++ item_type))
               capa schema title definition props (raw, prop)
               (registered_closed _)) with (d := []) (a := tt) (w := primary);
        try assumption.
      intros c d a w d' H. rewrite He in H. injection H as _ _ <-.
      apply in_keys_setitem. now left. }
    exists primary, reg, dblocks.
    split; [exact H1|]. split; [exact (proj1 Hwf)|]. split; [exact Hreg|].
    split; [apply sorted_items_sorted|]. split; [exact HF|]. split; [reflexivity|].
    assert (Honce : count_occ string_dec (concat dblocks)
                      ("message Array_" ++ item_type ++ " { repeated " ++ item_type
                         ++ " values = 1; }" ++ newline) = 1).
    { apply (deferred_line_once reg ("Array_" ++ item_type) _ dblocks
               (proj1 Hwf) Hreg HF).
      - intros k v block Hk Hw Hne.
        exact (foreign_array_line reg k v block item_type Hwf Hk Hw Hne).
      - intros v block Hk Hw.
        destruct (well_formed_array reg item_type v Hwf Hk) as (item' & -> & Ht').
        destruct Hw as (t & Ht'' & ->). rewrite Ht' in Ht''. injection Ht'' as <-.
        cbn [fst count_occ].
        destruct (string_dec _ _) as [_|Hne]; [reflexivity|].
        exfalso. apply Hne. reflexivity. }
    split; [exact Honce|].
    pose proof (array_line_not_fixed item_type) as Hfixed.
    rewrite !count_occ_app, Honce.
    rewrite (proj1 (count_occ_not_In string_dec header _))
      by (intros Hh; apply Hfixed, in_or_app; now left).
    rewrite (proj1 (count_occ_not_In string_dec helper_types _))
      by (intros Hh; apply Hfixed, in_or_app; now right).
    rewrite (proj1 (count_occ_not_In string_dec primary _)); [reflexivity|].
    exact (array_line_not_primary capa schema _ ("Array_" ++ item_type) item_type
             [] tt primary reg H1).
  - intros value_type Ha Ht c d.
    exact (emit_property_map_plain raw prop values value_type c d Hr Hu Hm Hv Ha Ht).
Qed.

Lemma map_of_array_wrapper_witness :
  is_ref (map_of (array_of (ref_to "Address"))) = false /\
  is_union (map_of (array_of (ref_to "Address"))) = false /\
  is_map (map_of (array_of (ref_to "Address"))) = true /\
  emit_property 4 ("captures", map_of (array_of (ref_to "Address"))) []
  = Ok (5,
        [ "  map <string, Array_Address> captures = 4;" ],
        [ ("Array_Address", DeferredArrayType "Array_Address" (ref_to "Address")) ]) /\
  (exists text primary deferred_blocks,
     generate_proto_from_pydantic match_classes schema_one_way = Ok text /\
     text = getvalue
              (header ++ primary ++ concat deferred_blocks ++ helper_types)%list /\
     count_occ string_dec (concat deferred_blocks)
       ("message Array_Address { repeated Address values = 1; }" ++ newline)
     = 1 /\
     count_occ string_dec
       (header ++ primary ++ concat deferred_blocks ++ helper_types)%list
       ("message Array_Address { repeated Address values = 1; }" ++ newline)
     = 1) /\
  emit_property 1 ("names", map_of (of_type "string")) []
  = Ok (2, [ "  map <string, string> names = 1;" ], []).
Proof.
  split; [reflexivity|]. split; [reflexivity|]. split; [reflexivity|].
  destruct (map_of_array_wrapper match_classes "captures"
              (map_of (array_of (ref_to "Address"))) (array_of (ref_to "Address"))
              eq_refl eq_refl eq_refl eq_refl) as [Harray _].
  destruct (Harray (ref_to "Address") "Address" eq_refl eq_refl eq_refl) as [He Hrun].
  split; [exact (He 4 [])|]. split.
  - destruct (Hrun schema_one_way _ "Match" match_message
                [ ("success", of_type "boolean");
                  ("locations", array_of (ref_to "Address"));
                  ("captures", map_of (array_of (ref_to "Address")));
                  ("children", tuple_of 2 [ref_to "Address"; ref_to "Match"]) ]
                eq_refl eq_refl eq_refl eq_refl)
      as (primary & reg & dblocks & _ & _ & _ & _ & _ & Ht & Hc & Hall).
    + simpl. auto.
    + eexists; exists primary, dblocks.
      split; [reflexivity|]. split; [exact Ht|]. split; [exact Hc|exact Hall].
  - exact (proj2 (map_of_array_wrapper match_classes "names"
                    (map_of (of_type "string")) (of_type "string")
                    eq_refl eq_refl eq_refl eq_refl)
             "string" eq_refl eq_refl 1 []).
Defined.

(** The map field of the output has a space between [map] and
    [<string]: the text [map<string, Array_Address>] occurs nowhere in
    the output. *)
Lemma map_field_has_space :
  exists text,
    generate_proto_from_pydantic match_classes schema_one_way = Ok text /\
    occurs "map<string, Array_Address> captures = 4;" text = false /\
    occurs "map<string, Array_Address>" text = false /\
    occurs "map <string, Array_Address> captures = 4;" text = true /\
    occurs "message Array_Address { repeated Address values = 1; }" text = true.
Proof. eexists. split; [reflexivity|]. repeat split; vm_compute; reflexivity. Qed.

(** ** Tuple wrappers in the output *)

(** C9 (as amended): the deferred types hold one entry per derived name,
    and a registration under a name that is already there replaces the
    entry where it stands.  Two tuples of the same fixed size with the
    same ordered element type names get the same name and the same text,
    and a registration that brings the text the name already has leaves
    the drained output unchanged.  In the output of a run on a schema
    with a tuple property the deferred types that the definitions leave
    have the name of the tuple among their distinct names, the deferred
    section holds the wrappers of these names in ascending order, and
    the line that opens the message of that name is in it exactly
    once. *)
Theorem tuple_wrappers_by_name (capa : capa_modules) :
  (forall p1 p2 mx1 mx2 c1 c2 l1 l2 names,
     is_tuple p1 = true -> is_tuple p2 = true ->
     d_maxItems p1 = Some mx1 -> d_maxItems p2 = Some mx2 ->
     Z.eqb mx1 2 = Z.eqb mx2 2 ->
     d_items p1 = Some (inr l1) -> d_items p2 = Some (inr l2) ->
     map_result get_type_name l1 = Ok names ->
     map_result get_type_name l2 = Ok names ->
     exists name,
       get_tuple_type_name p1 = Ok name /\
       get_tuple_type_name p2 = Ok name /\
       forall d, emit_deferred (name, DeferredTupleType name c1 (inr l1)) d
                 = emit_deferred (name, DeferredTupleType name c2 (inr l2)) d) /\
  (forall (d : registry) key v1 v2,
     setitem key v2 (setitem key v1 d) = setitem key v2 d /\
     map fst (setitem key v2 (setitem key v1 d)) = map fst (setitem key v1 d) /\
     (NoDup (map fst d) -> NoDup (map fst (setitem key v1 d))) /\
     ((forall D, emit_deferred (key, v1) D = emit_deferred (key, v2) D) ->
      forall D,
        for_each (sorted_items (setitem key v2 (setitem key v1 d))) emit_deferred D
        = for_each (sorted_items (setitem key v1 d)) emit_deferred D)) /\
  (forall schema text title definition props raw prop name,
     generate_proto_from_pydantic capa schema = Ok text ->
     lookup title (definitions schema) = Some definition ->
     d_type definition = Some "object" ->
     d_properties definition = Some props ->
     In (raw, prop) props ->
     is_ref prop = false -> is_tuple prop = true ->
     get_tuple_type_name prop = Ok name ->
     exists primary deferred_types deferred_blocks,
       for_each (sorted_strings (map fst (definitions schema)))
         (fun name => emit_proto_entry capa schema (definitions_prefix ++ name)) []
       = Ok (tt, primary, deferred_types) /\
       NoDup (map fst deferred_types) /\
       In name (map fst deferred_types) /\
       StronglySorted (fun a b => String.leb (fst a) (fst b) = true)
         (sorted_items deferred_types) /\
       Forall2 wrapper_lines (sorted_items deferred_types) deferred_blocks /\
       text = getvalue
                (header ++ primary ++ concat deferred_blocks ++ helper_types)%list /\
       count_occ string_dec (concat deferred_blocks) ("message " ++ name ++ " {") = 1).
Proof.
  split; [|split].
  - intros p1 p2 mx1 mx2 c1 c2 l1 l2 names Ht1 Ht2 Hm1 Hm2 Hmx Hi1 Hi2 Hn1 Hn2.
    exists ((if Z.eqb mx1 2 then "Pair" else "Tuple") ++ "_" ++ join "_" names).
    split; [now apply get_tuple_type_name_names with (items := l1)|].
    split; [rewrite Hmx; now apply get_tuple_type_name_names with (items := l2)|].
    intros d.
    now rewrite (emit_deferred_tuple _ _ c1 l1 names d Hn1),
                (emit_deferred_tuple _ _ c2 l2 names d Hn2).
  - intros d key v1 v2.
    split; [apply setitem_setitem|].
    split; [rewrite setitem_setitem; apply setitem_keys|].
    split; [apply setitem_nodup|].
    intros H D. rewrite setitem_setitem. apply for_each_same_text.
    apply sorted_same_text, setitem_same_text. intros D'. now rewrite H.
  - intros schema text title definition props raw prop name Hg Hl Hty Hp Hin Hr Ht Hn.
    destruct (run_structure capa schema text Hg)
      as (primary & reg & dblocks & H1 & Hwf & HF & _ & ->).
    apply wrapper_lines_only in HF.
    assert (Hreg : In name (map fst reg)).
    { apply (property_establishes (registered name)
               capa schema title definition props (raw, prop)
               (registered_closed _)) with (d := []) (a := tt) (w := primary);
        try assumption.
      intros c d a w d' H.
      destruct (emit_property_tuple raw prop name c d Hr Ht Hn)
        as (count & items & _ & _ & He).
      rewrite He in H. injection H as _ _ <-.
      apply in_keys_setitem. now left. }
    exists primary, reg, dblocks.
    split; [exact H1|]. split; [exact (proj1 Hwf)|]. split; [exact Hreg|].
    split; [apply sorted_items_sorted|]. split; [exact HF|]. split; [reflexivity|].
    apply (deferred_line_once reg name _ dblocks (proj1 Hwf) Hreg HF).
    + intros k v block _ Hw Hne.
      exact (foreign_tuple_opening k v block name Hw Hne).
    + intros v block Hk Hw.
      destruct (proj2 Hwf _ _ Hk) as [Hte|Hae].
      * destruct Hte as (p & count & items & -> & _).
        destruct Hw as (names & _ & ->). apply tuple_opening_once.
      * destruct Hae as (item & t & _ & _ & Heq).
        now apply tuple_name_not_array with (item_type := t) in Hn.
Qed.

Lemma tuple_wrappers_by_name_witness :
  (get_tuple_type_name (tuple_of 2 [ref_to "Address"; ref_to "Match"])
   = Ok "Pair_Address_Match") /\
  (NoDup (map fst [ ("Array_Address",
                     DeferredArrayType "Array_Address" (ref_to "Address")) ]) ->
   NoDup (map fst
            (setitem "Pair_Address_Match"
               (DeferredTupleType "Pair_Address_Match" 2
                  (inr [ref_to "Address"; ref_to "Match"]))
               [ ("Array_Address",
                  DeferredArrayType "Array_Address" (ref_to "Address")) ]))) /\
  exists text primary deferred_blocks,
    generate_proto_from_pydantic pair_classes pair_schema = Ok text /\
    text = getvalue
             (header ++ primary ++ concat deferred_blocks ++ helper_types)%list /\
    count_occ string_dec (concat deferred_blocks) "message Pair_Address_Match {" = 1.
Proof.
  destruct (tuple_wrappers_by_name pair_classes) as (Hname & Hreg & Hrun).
  split.
  - destruct (Hname (tuple_of 2 [ref_to "Address"; ref_to "Match"])
                (tuple_of 2 [ref_to "Address"; ref_to "Match"]) 2%Z 2%Z 2%Z 2%Z
                [ref_to "Address"; ref_to "Match"] [ref_to "Address"; ref_to "Match"]
                ["Address"; "Match"]
                eq_refl eq_refl eq_refl eq_refl eq_refl eq_refl eq_refl eq_refl eq_refl)
      as (name & H1 & _).
    rewrite H1. f_equal. vm_compute in H1. now injection H1 as <-.
  - split.
    + exact (proj1 (proj2 (proj2
               (Hreg [ ("Array_Address",
                        DeferredArrayType "Array_Address" (ref_to "Address")) ]
                     "Pair_Address_Match"
                     (DeferredTupleType "Pair_Address_Match" 2
                        (inr [ref_to "Address"; ref_to "Match"]))
                     (DeferredTupleType "Pair_Address_Match" 2
                        (inr [ref_to "Address"; ref_to "Match"])))))).
    + destruct (Hrun pair_schema _ "Match"
                  (object_definition "Match"
                     [ ("first", tuple_of 2 [ref_to "Address"; ref_to "Match"]);
                       ("second", tuple_of 2 [ref_to "Address"; ref_to "Match"]) ])
                  [ ("first", tuple_of 2 [ref_to "Address"; ref_to "Match"]);
                    ("second", tuple_of 2 [ref_to "Address"; ref_to "Match"]) ]
                  "second" (tuple_of 2 [ref_to "Address"; ref_to "Match"])
                  "Pair_Address_Match"
                  eq_refl eq_refl eq_refl eq_refl)
        as (primary & reg & dblocks & _ & _ & _ & _ & _ & Ht & Hc); try reflexivity.
      * simpl. auto.
      * eexists; exists primary, dblocks.
        split; [reflexivity|]. split; [exact Ht|exact Hc].
Defined.

(** The tuples [(A_B, C)] and [(A, B_C)] have the name [Pair_A_B_C].
    The second registration replaces the first under that name and the
    drained output changes.  And two tuples with the element type names
    [A] and [B], of declared sizes 2 and 3, have two names and two
    wrappers. *)
Lemma later_registration_replaces :
  get_tuple_type_name (tuple_of 2 [ref_to "A_B"; ref_to "C"]) = Ok "Pair_A_B_C" /\
  get_tuple_type_name (tuple_of 2 [ref_to "A"; ref_to "B_C"]) = Ok "Pair_A_B_C" /\
  (exists d1 d2,
     emit_property 1 ("p", tuple_of 2 [ref_to "A_B"; ref_to "C"]) []
     = Ok (2, [ "  Pair_A_B_C p = 1;" ], d1) /\
     emit_property 2 ("q", tuple_of 2 [ref_to "A"; ref_to "B_C"]) d1
     = Ok (3, [ "  Pair_A_B_C q = 2;" ], d2) /\
     for_each (sorted_items d1) emit_deferred d1
     = Ok (tt,
           [ "message Pair_A_B_C {"; "  A_B v0 = 1;"; "  C v1 = 2;";
             ("}" ++ newline)%string ],
           d1) /\
     for_each (sorted_items d2) emit_deferred d2
     = Ok (tt,
           [ "message Pair_A_B_C {"; "  A v0 = 1;"; "  B_C v1 = 2;";
             ("}" ++ newline)%string ],
           d2)) /\
  map_result get_type_name [ref_to "A"; ref_to "B"] = Ok ["A"; "B"] /\
  get_tuple_type_name (tuple_of 2 [ref_to "A"; ref_to "B"]) = Ok "Pair_A_B" /\
  get_tuple_type_name (tuple_of 3 [ref_to "A"; ref_to "B"]) = Ok "Tuple_A_B".
Proof.
  split; [reflexivity|]. split; [reflexivity|]. split.
  - eexists. eexists. split; [reflexivity|]. split; [reflexivity|].
    split; reflexivity.
  - repeat split.
Qed.

(** ** Arrays *)

Lemma is_array_inv (prop : description) :
  is_array prop = Ok true ->
  d_type prop = Some "array" /\ is_tuple prop = false /\
  exists item, d_items prop = Some (inl item).
Proof.
  unfold is_array, is_tuple. destruct (d_type prop) as [t|]; [|discriminate].
  destruct (String.eqb_spec t "array") as [->|_]; [|discriminate]. cbn [negb].
  destruct (match d_maxItems prop with
            | Some mx => match d_minItems prop with
                         | Some mn => Z.eqb mx mn
                         | None => false
                         end
            | None => false
            end); [discriminate|].
  destruct (d_items prop) as [[item|items]|]; try discriminate.
  intros _. split; [reflexivity|]. split; [reflexivity|]. now exists item.
Qed.

(** The primitive type name of an array. *)
Lemma get_primitive_type_name_array (prop item : description) :
  is_array prop = Ok true -> d_items prop = Some (inl item) ->
  get_primitive_type_name prop
  = (atype <- array_item_type_name item ;; Ok ("repeated " ++ atype))%result.
Proof.
  intros Ha Hi. destruct (is_array_inv prop Ha) as (Ht & Htu & _).
  rewrite get_primitive_type_name_eq. unfold is_primitive_type.
  rewrite Ht, Htu, Ha, Hi. reflexivity.
Qed.

(** The round of the loop on an array whose item is no tuple. *)
Lemma emit_property_array_plain (raw : string) (prop item : description)
    (atype : string) (c : nat) (d : registry) :
  is_ref prop = false -> is_array prop = Ok true ->
  d_items prop = Some (inl item) ->
  array_item_type_name item = Ok atype ->
  is_tuple item = false ->
  emit_property c (raw, prop) d
  = Ok (S c, [ field_line "  " ("repeated " ++ atype) (sanitize_prop_name raw) c ], d).
Proof.
  intros Hr Ha Hi Hn Ht. destruct (is_array_inv prop Ha) as (Hty & Htu & _).
  unfold emit_property. rewrite Hr. unfold is_primitive_type at 1. rewrite Hty.
  cbn [String.eqb Ascii.eqb Bool.eqb negb].
  rewrite (get_primitive_type_name_array prop item Ha Hi), Hn, Htu, Ha.
  rewrite (array_item_inl prop item Hi).
  cbv beta iota delta [bind_result bind lift writeln ret]. rewrite Ht. reflexivity.
Qed.

(** The round of the loop on an array of tuples. *)
Lemma emit_property_array_tuple (raw : string) (prop item : description)
    (name : string) (c : nat) (d : registry) :
  is_ref prop = false -> is_array prop = Ok true ->
  d_items prop = Some (inl item) ->
  is_tuple item = true -> get_tuple_type_name item = Ok name ->
  exists count items,
    d_minItems item = Some count /\ d_items item = Some items /\
    emit_property c (raw, prop) d
    = Ok (S c,
          [ field_line "  " ("repeated " ++ name) (sanitize_prop_name raw) c ],
          setitem name (DeferredTupleType name count items) d).
Proof.
  intros Hr Ha Hi Ht Hn. destruct (is_array_inv prop Ha) as (Hty & Htu & _).
  destruct (named_tuple_items item name Hn) as [l Hil].
  assert (Hc : exists count, d_minItems item = Some count).
  { unfold is_tuple in Ht. destruct (d_type item); [|discriminate].
    destruct (negb _); [discriminate|].
    destruct (d_maxItems item); [|discriminate].
    destruct (d_minItems item) as [mn|]; [now exists mn|discriminate]. }
  destruct Hc as [count Hc]. exists count, l.
  split; [exact Hc|]. split; [exact Hil|].
  assert (Hname : array_item_type_name item = Ok name).
  { unfold array_item_type_name.
    now rewrite (tuple_is_primitive item Ht), (get_primitive_type_name_tuple item Ht). }
  unfold emit_property. rewrite Hr. unfold is_primitive_type at 1. rewrite Hty.
  cbn [String.eqb Ascii.eqb Bool.eqb negb].
  rewrite (get_primitive_type_name_array prop item Ha Hi), Hname, Htu, Ha.
  rewrite (array_item_inl prop item Hi).
  cbv beta iota delta [bind_result bind lift writeln ret]. rewrite Ht, Hn.
  unfold register_tuple. rewrite Hc, Hil. reflexivity.
Qed.

(** The round of the loop on an array whose item has no type name. *)
Lemma emit_property_array_error (raw : string) (prop item : description)
    (e : error) (c : nat) (d : registry) :
  is_ref prop = false -> is_array prop = Ok true ->
  d_items prop = Some (inl item) ->
  array_item_type_name item = Err e ->
  emit_property c (raw, prop) d = Err e.
Proof.
  intros Hr Ha Hi Hn. destruct (is_array_inv prop Ha) as (Hty & Htu & _).
  unfold emit_property. rewrite Hr. unfold is_primitive_type at 1. rewrite Hty.
  cbn [String.eqb Ascii.eqb Bool.eqb negb].
  rewrite (get_primitive_type_name_array prop item Ha Hi), Hn. reflexivity.
Qed.

(** C4 (as amended): an array property is emitted as one repeated field
    of the type name of its item when the item is a reference, a
    primitive scalar, a custom object or a tuple, the wrapper of the tuple
    being registered as a deferred type; an array whose item is a map, or
    has no shape the translator knows, raises [NotImplementedError]. *)
Theorem array_of_items (raw : string) (prop item : description)
    (c : nat) (d : registry) :
  is_ref prop = false ->
  is_array prop = Ok true ->
  d_items prop = Some (inl item) ->
  (forall name,
     is_primitive_type item = false -> is_ref item = true ->
     get_ref_type_name item = Ok name ->
     emit_property c (raw, prop) d
     = Ok (S c, [ field_line "  " ("repeated " ++ name) (sanitize_prop_name raw) c ], d)) /\
  (forall t name,
     d_type item = Some t ->
     In (t, name) [ ("string", "string"); ("boolean", "bool");
                    ("integer", "Integer"); ("number", "Number") ] ->
     emit_property c (raw, prop) d
     = Ok (S c, [ field_line "  " ("repeated " ++ name) (sanitize_prop_name raw) c ], d)) /\
  (forall name,
     is_ref item = false -> is_custom_type item = true ->
     d_title item = Some name ->
     emit_property c (raw, prop) d
     = Ok (S c, [ field_line "  " ("repeated " ++ name) (sanitize_prop_name raw) c ], d)) /\
  (forall name,
     is_tuple item = true -> get_tuple_type_name item = Ok name ->
     exists count items,
       d_minItems item = Some count /\ d_items item = Some items /\
       emit_property c (raw, prop) d
       = Ok (S c,
             [ field_line "  " ("repeated " ++ name) (sanitize_prop_name raw) c ],
             setitem name (DeferredTupleType name count items) d)) /\
  (is_ref item = false ->
   is_map item = true \/ (is_primitive_type item = false /\ is_custom_type item = false) ->
   emit_property c (raw, prop) d = Err NotImplementedError).
Proof.
  intros Hr Ha Hi. split; [|split; [|split; [|split]]].
  - intros name Hp Href Hn.
    apply (emit_property_array_plain raw prop item name c d Hr Ha Hi).
    + unfold array_item_type_name. now rewrite Hp, Href.
    + unfold is_tuple. unfold is_primitive_type in Hp.
      destruct (d_type item) as [t|]; [|reflexivity].
      destruct (String.eqb_spec t "object") as [E|_]; [subst t; reflexivity|discriminate].
  - intros t name Ht Hin.
    assert (Hs : is_primitive_type item = true /\ get_primitive_type_name item = Ok name
                 /\ is_tuple item = false).
    { rewrite get_primitive_type_name_eq. unfold is_primitive_type, is_tuple.
      rewrite Ht. simpl in Hin.
      destruct Hin as [[= <- <-]|[[= <- <-]|[[= <- <-]|[[= <- <-]|[]]]]];
        repeat split. }
    destruct Hs as (Hp & Hn & Htu).
    apply (emit_property_array_plain raw prop item name c d Hr Ha Hi); [|exact Htu].
    unfold array_item_type_name. now rewrite Hp.
  - intros name Href Hc Ht.
    pose proof (object_is_not_primitive item (or_introl Hc)) as Hp.
    apply (emit_property_array_plain raw prop item name c d Hr Ha Hi).
    + unfold array_item_type_name, get_custom_type_name.
      now rewrite Hp, Href, Hc, Ht.
    + unfold is_tuple. unfold is_primitive_type in Hp.
      destruct (d_type item) as [t|]; [|reflexivity].
      destruct (String.eqb_spec t "object") as [E|_]; [subst t; reflexivity|discriminate].
  - intros name Ht Hn.
    exact (emit_property_array_tuple raw prop item name c d Hr Ha Hi Ht Hn).
  - intros Href Hshape.
    apply (emit_property_array_error raw prop item NotImplementedError c d Hr Ha Hi).
    unfold array_item_type_name. rewrite Href.
    destruct Hshape as [Hm|[Hp Hc]].
    + destruct (map_is_not_primitive item Hm) as [Hp Hc]. now rewrite Hp, Hc.
    + now rewrite Hp, Hc.
Qed.

Lemma array_of_items_witness :
  is_ref (array_of (ref_to "Address")) = false /\
  is_array (array_of (ref_to "Address")) = Ok true /\
  emit_property 3 ("locations", array_of (ref_to "Address")) []
  = Ok (4, [ "  repeated Address locations = 3;" ], []) /\
  emit_property 1 ("parts", array_of (of_type "string")) []
  = Ok (2, [ "  repeated string parts = 1;" ], []) /\
  emit_property 1 ("features", array_of (custom_object "Feature")) []
  = Ok (2, [ "  repeated Feature features = 1;" ], []) /\
  emit_property 1 ("matches",
      array_of (tuple_of 2 [ref_to "Address"; ref_to "Match"])) []
  = Ok (2,
        [ "  repeated Pair_Address_Match matches = 1;" ],
        [ ("Pair_Address_Match",
           DeferredTupleType "Pair_Address_Match" 2
             (inr [ref_to "Address"; ref_to "Match"])) ]) /\
  emit_property 1 ("captures", array_of (map_of (of_type "string"))) []
  = Err NotImplementedError.
Proof.
  split; [reflexivity|]. split; [reflexivity|].
  split.
  { exact (proj1 (array_of_items "locations" (array_of (ref_to "Address"))
                    (ref_to "Address") 3 [] eq_refl eq_refl eq_refl)
             "Address" eq_refl eq_refl eq_refl). }
  split.
  { apply (proj1 (proj2 (array_of_items "parts" (array_of (of_type "string"))
                           (of_type "string") 1 [] eq_refl eq_refl eq_refl))
             "string" "string" eq_refl).
    simpl. auto. }
  split.
  { exact (proj1 (proj2 (proj2 (array_of_items "features"
                                  (array_of (custom_object "Feature"))
                                  (custom_object "Feature") 1 []
                                  eq_refl eq_refl eq_refl)))
             "Feature" eq_refl eq_refl eq_refl). }
  split.
  { destruct (proj1 (proj2 (proj2 (proj2
               (array_of_items "matches"
                  (array_of (tuple_of 2 [ref_to "Address"; ref_to "Match"]))
                  (tuple_of 2 [ref_to "Address"; ref_to "Match"]) 1 []
                  eq_refl eq_refl eq_refl))))
               "Pair_Address_Match" eq_refl eq_refl)
      as (count & items & Hc & Hit & He).
    injection Hc as <-. injection Hit as <-. exact He. }
  exact (proj2 (proj2 (proj2 (proj2
           (array_of_items "captures" (array_of (map_of (of_type "string")))
              (map_of (of_type "string")) 1 [] eq_refl eq_refl eq_refl))))
           eq_refl (or_introl eq_refl)).
Defined.

(** The item of the array is a tuple: it is no reference, no primitive
    scalar and no custom object, and the array is emitted as a repeated
    field of the tuple wrapper, which is registered. *)
Lemma array_of_tuples_is_repeated :
  is_tuple (tuple_of 2 [ref_to "Address"; ref_to "Match"]) = true /\
  is_ref (tuple_of 2 [ref_to "Address"; ref_to "Match"]) = false /\
  is_custom_type (tuple_of 2 [ref_to "Address"; ref_to "Match"]) = false /\
  d_type (tuple_of 2 [ref_to "Address"; ref_to "Match"]) = Some "array" /\
  emit_property 1 ("matches",
      array_of (tuple_of 2 [ref_to "Address"; ref_to "Match"])) []
  = Ok (2,
        [ "  repeated Pair_Address_Match matches = 1;" ],
        [ ("Pair_Address_Match",
           DeferredTupleType "Pair_Address_Match" 2
             (inr [ref_to "Address"; ref_to "Match"])) ]).
Proof. repeat split. Qed.

(** An array of arrays raises nothing: the type name of the item is
    itself a repeated type name. *)
Lemma array_of_arrays_is_named :
  get_primitive_type_name (array_of (array_of (of_type "string")))
  = Ok "repeated repeated string".
Proof. reflexivity. Qed.

(** ** Field numbers *)

Lemma emit_alternative_counter (i c : nat) (jof : nat * description) d ic w d' :
  emit_alternative (i, c) jof d = Ok (ic, w, d') -> ic = (c, S c).
Proof.
  destruct jof as [j alt]. unfold emit_alternative. intros H.
  destruct (bind_inv _ _ _ _ _ _ _ _ H) as (u & w1 & d1 & w2 & _ & H2 & _).
  now injection H2 as <- _ _.
Qed.

(** The loop over K alternatives draws K numbers. *)
Lemma alternatives_counter (alts : list description) (j i : nat) d ic w d' :
  fold_emit emit_alternative (i, S i) (enumerate_from j alts) d = Ok (ic, w, d') ->
  ic = (i + length alts, S (i + length alts)).
Proof.
  revert j i d w. induction alts as [|alt alts IH]; intros j i d w H.
  - injection H as <- _ _. now rewrite Nat.add_0_r.
  - cbn [enumerate_from fold_emit] in H.
    destruct (bind_inv _ _ _ _ _ _ _ _ H) as (ic1 & w1 & d1 & w2 & H1 & H2 & _).
    apply emit_alternative_counter in H1. subst ic1.
    apply IH in H2. subst ic. cbn [length]. f_equal; [|f_equal]; lia.
Qed.

(** A union of K alternatives takes K + 1 numbers from the counter: one
    for every alternative and one that the loop draws after the last
    alternative and that no field uses. *)
Lemma union_takes_one_more (raw : string) (prop : description)
    (alts : list description) (c : nat) d c' w d' :
  is_ref prop = false -> is_primitive_type prop = false ->
  is_custom_type prop = false -> d_anyOf prop = Some alts ->
  emit_property c (raw, prop) d = Ok (c', w, d') ->
  c' = S (c + length alts).
Proof.
  intros H1 H2 H3 Ha. unfold emit_property.
  rewrite H1, H2, H3. unfold is_union. rewrite Ha. cbn [contains getitem].
  intros H.
  destruct (writeln_bind_inv _ _ _ _ _ _ _ H) as (rest & _ & H').
  rewrite bind_lift_ok in H'.
  destruct (bind_inv _ _ _ _ _ _ _ _ H') as (ic & w1 & d1 & w2 & Hf & Hk & _).
  apply alternatives_counter in Hf. subst ic.
  destruct (writeln_bind_inv _ _ _ _ _ _ _ Hk) as (rest' & _ & Hr).
  now injection Hr as <- _ _.
Qed.

(** A property that is no union takes one number. *)
Lemma field_takes_one (raw : string) (prop : description) (c : nat) d c' w d' :
  is_ref prop = true \/ is_primitive_type prop = true \/
  is_custom_type prop = true \/ is_union prop = false ->
  emit_property c (raw, prop) d = Ok (c', w, d') ->
  c' = S c.
Proof.
  intros Hshape. unfold emit_property.
  destruct (is_ref prop).
  { intros H. destruct (bind_inv _ _ _ _ _ _ _ _ H) as (p & w1 & d1 & w2 & _ & H2 & _).
    destruct (writeln_bind_inv _ _ _ _ _ _ _ H2) as (rest & _ & Hr).
    now injection Hr as <- _ _. }
  destruct (is_primitive_type prop).
  { intros H. destruct (bind_inv _ _ _ _ _ _ _ _ H) as (p & w1 & d1 & w2 & _ & H2 & _).
    destruct (writeln_bind_inv _ _ _ _ _ _ _ H2) as (rest & _ & Hr).
    destruct (bind_inv _ _ _ _ _ _ _ _ Hr) as (u & w3 & d3 & w4 & _ & H4 & _).
    now injection H4 as <- _ _. }
  destruct (is_custom_type prop).
  { intros H. destruct (bind_inv _ _ _ _ _ _ _ _ H) as (p & w1 & d1 & w2 & _ & H2 & _).
    destruct (writeln_bind_inv _ _ _ _ _ _ _ H2) as (rest & _ & Hr).
    now injection Hr as <- _ _. }
  destruct Hshape as [Hs|[Hs|[Hs|Hs]]]; try discriminate. rewrite Hs.
  destruct (is_map prop); [|discriminate].
  intros H. destruct (bind_inv _ _ _ _ _ _ _ _ H) as (v & w1 & d1 & w2 & _ & H2 & _).
  destruct (bind_inv _ _ _ _ _ _ _ _ H2) as (b & w3 & d3 & w4 & _ & H4 & _).
  destruct (bind_inv _ _ _ _ _ _ _ _ H4) as (vt & w5 & d5 & w6 & _ & H6 & _).
  destruct (writeln_bind_inv _ _ _ _ _ _ _ H6) as (rest & _ & Hr).
  now injection Hr as <- _ _.
Qed.

(** C1: the code at a message of two scalars, a union of three
    alternatives and one more scalar.  The scalars take 1 and 2 and the
    alternatives 3, 4 and 5; the loop over the alternatives draws 6 from
    the counter after the last one and the number is not used, so that
    the field after the union is number 7. *)
Theorem union_numbering_leaves_gap :
  emit_proto_message union_classes union_message [] =
    Ok (tt,
        [ "message M {";
          "  string a = 1;";
          "  string b = 2;";
          "  oneof u {";
          "    A v0 = 3;";
          "    B v1 = 4;";
          "    C v2 = 5;";
          "  };";
          "  string c = 7;";
          "}"; "" ],
        []).
Proof. vm_compute. reflexivity. Qed.

(** * Further properties of the translator *)

(** ** References *)

Lemma startswith_drop (p s : string) :
  startswith p s = true -> p ++ drop (String.length p) s = s.
Proof.
  revert s. induction p as [|a p IH]; intros s H; [reflexivity|].
  destruct s as [|b s]; [discriminate|]. simpl in H.
  apply andb_true_iff in H. destruct H as [Hab Hs].
  apply Ascii.eqb_eq in Hab. subst b. simpl. now rewrite IH.
Qed.

(** X1: the type name of a reference and its pointer determine one
    another.  A pointer that starts with [#/definitions/] is named by
    what follows the prefix, so that the prefix and the name give the
    pointer back, and the pointer made of the prefix and a title is named
    by the title; a pointer that does not start with the prefix, and a
    description without [$ref], fail the assertions. *)
Theorem ref_type_name_round_trip (prop : description) :
  (forall r,
     d_ref prop = Some r -> startswith definitions_prefix r = true ->
     exists name,
       get_ref_type_name prop = Ok name /\ definitions_prefix ++ name = r) /\
  (forall title,
     d_ref prop = Some (definitions_prefix ++ title) ->
     get_ref_type_name prop = Ok title) /\
  (forall r,
     d_ref prop = Some r -> startswith definitions_prefix r = false ->
     get_ref_type_name prop = Err AssertionError) /\
  (d_ref prop = None -> get_ref_type_name prop = Err AssertionError).
Proof.
  unfold get_ref_type_name, is_ref. repeat split.
  - intros r Hr Hs. rewrite Hr. cbn [contains negb getitem bind_result].
    rewrite Hs. cbn [negb]. eexists. split; [reflexivity|].
    now apply startswith_drop.
  - intros title Hr. rewrite Hr. cbn [contains negb getitem bind_result].
    now rewrite startswith_app, drop_app.
  - intros r Hr Hs. rewrite Hr. cbn [contains negb getitem bind_result].
    now rewrite Hs.
  - intros Hr. now rewrite Hr.
Qed.

Lemma ref_type_name_round_trip_witness :
  get_ref_type_name (ref_to "Scope") = Ok "Scope" /\
  (exists name,
     get_ref_type_name (ref_to "Address") = Ok name /\
     definitions_prefix ++ name = "#/definitions/Address") /\
  get_ref_type_name
    (Description ["$ref"] (Some "#/components/Scope")
       None None None None None None None None None)
  = Err AssertionError /\
  get_ref_type_name (of_type "string") = Err AssertionError.
Proof.
  split.
  { exact (proj1 (proj2 (ref_type_name_round_trip (ref_to "Scope")))
             "Scope" eq_refl). }
  split.
  { exact (proj1 (ref_type_name_round_trip (ref_to "Address"))
             "#/definitions/Address" eq_refl eq_refl). }
  split.
  { exact (proj1 (proj2 (proj2 (ref_type_name_round_trip
                    (Description ["$ref"] (Some "#/components/Scope")
                       None None None None None None None None None))))
             "#/components/Scope" eq_refl eq_refl). }
  exact (proj2 (proj2 (proj2 (ref_type_name_round_trip (of_type "string"))))
           eq_refl).
Defined.

(** ** Shapes *)

(** X2: the shape predicates on [type] split the descriptions.  A
    description without [type] is none of primitive, custom and map, no
    tuple and no array; one with [type] is exactly one of the three; a
    tuple is primitive and no array, and an array is primitive and no
    tuple. *)
Theorem shape_predicates_partition (prop : description) :
  (d_type prop = None ->
   is_primitive_type prop = false /\ is_custom_type prop = false /\
   is_map prop = false /\ is_tuple prop = false /\ is_array prop = Ok false) /\
  (forall t, d_type prop = Some t ->
     (is_primitive_type prop = true /\ is_custom_type prop = false /\
      is_map prop = false /\ t <> "object") \/
     (is_primitive_type prop = false /\ is_custom_type prop = true /\
      is_map prop = false /\ t = "object" /\ d_additionalProperties prop = None) \/
     (is_primitive_type prop = false /\ is_custom_type prop = false /\
      is_map prop = true /\ t = "object" /\ d_additionalProperties prop <> None)) /\
  (is_tuple prop = true ->
   is_primitive_type prop = true /\ is_array prop = Ok false) /\
  (is_array prop = Ok true ->
   is_primitive_type prop = true /\ is_tuple prop = false).
Proof.
  split; [|split; [|split]].
  - intros H. unfold is_primitive_type, is_custom_type, is_map, is_tuple, is_array.
    now rewrite H.
  - intros t H. unfold is_primitive_type, is_custom_type, is_map. rewrite H.
    destruct (String.eqb_spec t "object") as [->|Hne].
    + destruct (d_additionalProperties prop) as [a|]; cbn.
      * right. right. repeat split. discriminate.
      * right. left. repeat split.
    + left. repeat split. exact Hne.
  - intros H. split; [now apply tuple_is_primitive|].
    pose proof (is_tuple_type prop H) as Ht.
    unfold is_tuple in H. unfold is_array. rewrite Ht in *. cbn [String.eqb] in *.
    cbn in *. now rewrite H.
  - intros H. destruct (is_array_inv prop H) as (Ht & Htu & _).
    split; [|exact Htu]. unfold is_primitive_type. now rewrite Ht.
Qed.

Lemma shape_predicates_partition_witness :
  (is_primitive_type no_keys = false /\ is_custom_type no_keys = false /\
   is_map no_keys = false /\ is_tuple no_keys = false /\
   is_array no_keys = Ok false) /\
  (is_primitive_type (tuple_of 2 [ref_to "A"; ref_to "B"]) = true /\
   is_array (tuple_of 2 [ref_to "A"; ref_to "B"]) = Ok false) /\
  (is_primitive_type (array_of (ref_to "A")) = true /\
   is_tuple (array_of (ref_to "A")) = false).
Proof.
  split; [exact (proj1 (shape_predicates_partition no_keys) eq_refl)|].
  split.
  - exact (proj1 (proj2 (proj2 (shape_predicates_partition
                   (tuple_of 2 [ref_to "A"; ref_to "B"])))) eq_refl).
  - exact (proj2 (proj2 (proj2 (shape_predicates_partition
                   (array_of (ref_to "A"))))) eq_refl).
Defined.

(** ** Property names *)

Lemma map_string_length (f : ascii -> ascii) (s : string) :
  String.length (map_string f s) = String.length s.
Proof. induction s as [|a s IH]; simpl; [reflexivity|now rewrite IH]. Qed.

Lemma sanitize_char_clean (a : ascii) : is_punctuation (sanitize_char a) = false.
Proof.
  unfold sanitize_char.
  destruct (Ascii.eqb_spec a "-") as [->|H1]; [reflexivity|].
  destruct (Ascii.eqb_spec a "/") as [->|H2]; [reflexivity|].
  destruct (Ascii.eqb_spec a " ") as [->|H3]; [reflexivity|].
  destruct (Ascii.eqb_spec a "&") as [->|H4]; [reflexivity|].
  unfold is_punctuation.
  destruct (Ascii.eqb_spec a "-"); [contradiction|].
  destruct (Ascii.eqb_spec a "&"); [contradiction|].
  destruct (Ascii.eqb_spec a "/"); [contradiction|].
  destruct (Ascii.eqb_spec a " "); [contradiction|reflexivity].
Qed.

Lemma sanitize_char_fixed (a : ascii) :
  is_punctuation a = false -> sanitize_char a = a.
Proof.
  unfold is_punctuation, sanitize_char. intros H.
  destruct (Ascii.eqb a "-"); [discriminate|].
  destruct (Ascii.eqb a "&"); [discriminate|].
  destruct (Ascii.eqb a "/"); [discriminate|].
  destruct (Ascii.eqb a " "); [discriminate|reflexivity].
Qed.

(** X3: [sanitize_prop_name] keeps the length of the name, leaves no
    hyphen, ampersand, slash or space in it, does not change a name that
    has none of them, and so does nothing when it is applied twice. *)
Theorem sanitize_prop_name_normal (name : string) :
  String.length (sanitize_prop_name name) = String.length name /\
  forallb_string (fun a => negb (is_punctuation a)) (sanitize_prop_name name) = true /\
  (forallb_string (fun a => negb (is_punctuation a)) name = true ->
   sanitize_prop_name name = name) /\
  sanitize_prop_name (sanitize_prop_name name) = sanitize_prop_name name.
Proof.
  assert (Hclean : forall s,
             forallb_string (fun a => negb (is_punctuation a))
               (map_string sanitize_char s) = true).
  { induction s as [|a s IH]; simpl; [reflexivity|].
    now rewrite sanitize_char_clean, IH. }
  assert (Hfixed : forall s,
             forallb_string (fun a => negb (is_punctuation a)) s = true ->
             map_string sanitize_char s = s).
  { induction s as [|a s IH]; simpl; [reflexivity|].
    intros H. apply andb_true_iff in H. destruct H as [Ha Hs].
    apply negb_true_iff in Ha. now rewrite (sanitize_char_fixed a Ha), IH. }
  rewrite !sanitize_prop_name_chars.
  split; [apply map_string_length|].
  split; [apply Hclean|].
  split; [apply Hfixed|].
  apply Hfixed, Hclean.
Qed.

Lemma sanitize_prop_name_normal_witness :
  sanitize_prop_name "att&ck" = "attack" /\
  sanitize_prop_name "analysis_conclusion" = "analysis_conclusion" /\
  sanitize_prop_name (sanitize_prop_name "capa/sub scope-x")
  = sanitize_prop_name "capa/sub scope-x".
Proof.
  split; [reflexivity|]. split.
  - exact (proj1 (proj2 (proj2 (sanitize_prop_name_normal "analysis_conclusion")))
             eq_refl).
  - exact (proj2 (proj2 (proj2 (sanitize_prop_name_normal "capa/sub scope-x")))).
Defined.

(** ** The order of the properties *)

(** X4: when [_enum_properties] returns, it returns the properties of
    the message, every one once: the list is a rearrangement of
    [message["properties"]] and has its length. *)
Theorem enum_properties_keeps_all (capa : capa_modules) (message : description)
    (props ordered : list (string * description)) :
  d_properties message = Some props ->
  _enum_properties capa message = Ok ordered ->
  Permutation ordered props /\ length ordered = length props /\
  forall np, In np ordered <-> In np props.
Proof.
  intros Hp Ho.
  pose proof (enum_properties_perm capa message props ordered Hp Ho) as HP.
  split; [exact HP|]. split; [now apply Permutation_length|].
  intros np. split; apply Permutation_in; [exact HP|now apply Permutation_sym].
Qed.

Lemma enum_properties_keeps_all_witness :
  d_properties ordered_message
  = Some [ ("capa/subscope", of_type "boolean");
           ("att&ck", of_type "string");
           ("name", of_type "string");
           ("function name", of_type "string") ] /\
  exists ordered,
    _enum_properties ordered_classes ordered_message = Ok ordered /\
    length ordered = 4 /\
    Permutation ordered
      [ ("capa/subscope", of_type "boolean");
        ("att&ck", of_type "string");
        ("name", of_type "string");
        ("function name", of_type "string") ].
Proof.
  split; [reflexivity|]. eexists. split; [reflexivity|].
  destruct (enum_properties_keeps_all ordered_classes ordered_message _ _
              eq_refl eq_refl) as (HP & Hl & _).
  split; [exact Hl|exact HP].
Defined.

(** X5: the exceptions of [_enum_properties], in the order the source
    meets them: [KeyError] for a message without [title], then
    [NotImplementedError] for a title that no module has, then
    [AttributeError] for an attribute without signature, then [KeyError]
    for a message without [properties].  A module shadows the ones after
    it, and a message without properties of its own has none to emit. *)
Theorem enum_properties_errors (capa : capa_modules) (message : description) :
  (d_title message = None ->
   _enum_properties capa message = Err (KeyError "title")) /\
  (forall title,
     d_title message = Some title ->
     (_find_capa_class capa title = Err NotImplementedError ->
      _enum_properties capa message = Err NotImplementedError) /\
     (_find_capa_class capa title = Ok None ->
      _enum_properties capa message = Err AttributeError) /\
     (forall order,
        _find_capa_class capa title = Ok (Some order) ->
        (d_properties message = None ->
         _enum_properties capa message = Err (KeyError "properties")) /\
        (d_properties message = Some [] ->
         _enum_properties capa message = Ok []))) /\
  (forall name cls,
     lookup name (result_document capa) = Some cls ->
     _find_capa_class capa name = Ok cls) /\
  (forall name cls,
     lookup name (result_document capa) = None ->
     lookup name (freeze capa) = Some cls ->
     _find_capa_class capa name = Ok cls).
Proof.
  unfold _enum_properties. split; [|split; [|split]].
  - intros H. now rewrite H.
  - intros title Ht. rewrite Ht. cbn [getitem bind_result]. split; [|split].
    + intros H. now rewrite H.
    + intros H. now rewrite H.
    + intros order H. rewrite H. cbn [bind_result]. split; intros Hp; now rewrite Hp.
  - intros name cls H. unfold _find_capa_class. now rewrite H.
  - intros name cls H1 H2. unfold _find_capa_class. now rewrite H1, H2.
Qed.

Lemma enum_properties_errors_witness :
  _enum_properties no_class no_keys = Err (KeyError "title") /\
  _enum_properties no_class bare_message = Err NotImplementedError /\
  _enum_properties signatureless_classes bare_message = Err AttributeError /\
  _enum_properties (one_class "Scope" ["a"]) bare_message
  = Err (KeyError "properties") /\
  _enum_properties (one_class "T" ["a"]) (object_definition "T" []) = Ok [] /\
  _find_capa_class signatureless_classes "Scope" = Ok None.
Proof.
  split; [exact (proj1 (enum_properties_errors no_class no_keys) eq_refl)|].
  split.
  { exact (proj1 (proj1 (proj2 (enum_properties_errors no_class bare_message))
                    "Scope" eq_refl) eq_refl). }
  split.
  { exact (proj1 (proj2 (proj1 (proj2 (enum_properties_errors
                    signatureless_classes bare_message)) "Scope" eq_refl))
             eq_refl). }
  split.
  { exact (proj1 (proj2 (proj2 (proj1 (proj2 (enum_properties_errors
                    (one_class "Scope" ["a"]) bare_message)) "Scope" eq_refl))
                    ["a"] eq_refl) eq_refl). }
  split.
  { exact (proj2 (proj2 (proj2 (proj1 (proj2 (enum_properties_errors
                    (one_class "T" ["a"]) (object_definition "T" [])))
                    "T" eq_refl)) ["a"] eq_refl) eq_refl). }
  exact (proj1 (proj2 (proj2 (enum_properties_errors signatureless_classes no_keys)))
           "Scope" None eq_refl).
Defined.

(** ** The counter of a message *)

Lemma numbers_drawn_round (c : nat) (np : string * description) d c' w d' :
  emit_property c np d = Ok (c', w, d') -> c' = c + numbers_drawn (snd np).
Proof.
  destruct np as [raw prop]. cbn [snd]. intros H.
  unfold numbers_drawn, takes_union_branch.
  destruct (is_ref prop) eqn:Hr.
  { rewrite (field_takes_one raw prop c d c' w d' (or_introl Hr) H). cbn. lia. }
  destruct (is_primitive_type prop) eqn:Hp.
  { rewrite (field_takes_one raw prop c d c' w d' (or_intror (or_introl Hp)) H).
    cbn. lia. }
  destruct (is_custom_type prop) eqn:Hc.
  { rewrite (field_takes_one raw prop c d c' w d'
               (or_intror (or_intror (or_introl Hc))) H).
    cbn. lia. }
  destruct (is_union prop) eqn:Hu.
  - cbn [negb andb]. unfold is_union in Hu.
    destruct (d_anyOf prop) as [alts|] eqn:Ha; [|discriminate].
    rewrite (union_takes_one_more raw prop alts c d c' w d' Hr Hp Hc Ha H). lia.
  - rewrite (field_takes_one raw prop c d c' w d'
               (or_intror (or_intror (or_intror Hu))) H).
    cbn. lia.
Qed.

(** X6: the counter of a message advances, over the properties, by one
    for every property that is no union and by the number of its
    alternatives and one for every union: a union of K alternatives
    draws K + 1 numbers. *)
Theorem message_counter (props : list (string * description)) (c : nat) d c' w d' :
  fold_emit emit_property c props d = Ok (c', w, d') ->
  c' = c + list_sum (map (fun np => numbers_drawn (snd np)) props) /\
  c + length props <= c'.
Proof.
  revert c d w. induction props as [|np props IH]; intros c d w H.
  - injection H as <- _ _. cbn. lia.
  - cbn [fold_emit] in H.
    destruct (bind_inv _ _ _ _ _ _ _ _ H) as (c1 & w1 & d1 & w2 & H1 & H2 & _).
    apply numbers_drawn_round in H1. apply IH in H2.
    cbn [map length].
    replace (list_sum (numbers_drawn (snd np)
                         :: map (fun np0 => numbers_drawn (snd np0)) props))
      with (numbers_drawn (snd np)
            + list_sum (map (fun np0 => numbers_drawn (snd np0)) props))
      by reflexivity.
    destruct H2 as [H2 H2']. split; [lia|].
    assert (1 <= numbers_drawn (snd np)).
    { unfold numbers_drawn. destruct (takes_union_branch (snd np)); [|lia].
      destruct (d_anyOf (snd np)); lia. }
    lia.
Qed.

Lemma message_counter_witness :
  exists w d',
    fold_emit emit_property 1
      [ ("a", of_type "string");
        ("u", union_of [ref_to "A"; ref_to "B"; ref_to "C"]);
        ("c", of_type "string") ] []
    = Ok (7, w, d') /\
    7 = 1 + list_sum [1; 4; 1].
Proof.
  eexists. eexists. split; [reflexivity|].
  exact (proj1 (message_counter
                  [ ("a", of_type "string");
                    ("u", union_of [ref_to "A"; ref_to "B"; ref_to "C"]);
                    ("c", of_type "string") ] 1 [] 7 _ _ eq_refl)).
Defined.

(** ** The fields of a union *)

(** The lines of the loop over the alternatives: alternative [j] is the
    field [v<j>] and its number is [j] places after that of the union. *)
Lemma alternatives_lines (alts : list description) (j off : nat) d ic w d' :
  fold_emit emit_alternative (j + off, S (j + off)) (enumerate_from j alts) d
  = Ok (ic, w, d') ->
  exists ptypes,
    Forall2
      (fun alt ptype =>
         (is_ref alt = true /\ get_ref_type_name alt = Ok ptype) \/
         (is_ref alt = false /\ is_primitive_type alt = true /\
          get_primitive_type_name alt = Ok ptype))
      alts ptypes /\
    w = map (fun jp => field_line "    " (snd jp) ("v" ++ str_nat (fst jp))
                         (fst jp + off))
          (enumerate_from j ptypes).
Proof.
  revert j d w. induction alts as [|alt alts IH]; intros j d w H.
  - injection H as _ <- _. exists []. split; [constructor|reflexivity].
  - cbn [enumerate_from fold_emit] in H.
    destruct (bind_inv _ _ _ _ _ _ _ _ H) as (ic1 & w1 & d1 & w2 & H1 & H2 & ->).
    pose proof (emit_alternative_counter _ _ _ _ _ _ _ H1) as ->.
    change (S (j + off), S (S (j + off))) with (S j + off, S (S j + off)) in H2.
    destruct (IH (S j) d1 w2 H2) as (ptypes & HF & ->).
    unfold emit_alternative in H1.
    destruct (bind_inv _ _ _ _ _ _ _ _ H1) as ([] & wa & da & wb & Ha & Hb & ->).
    injection Hb as <- _. rewrite app_nil_r.
    destruct (is_ref alt) eqn:Hr.
    + destruct (get_ref_type_name alt) as [ptype|] eqn:Hn; [|discriminate].
      rewrite bind_lift_ok in Ha. injection Ha as <- _.
      exists (ptype :: ptypes). split; [constructor; [now left|exact HF]|reflexivity].
    + destruct (is_primitive_type alt) eqn:Hp; [|discriminate].
      destruct (get_primitive_type_name alt) as [ptype|] eqn:Hn; [|discriminate].
      rewrite bind_lift_ok in Ha.
      destruct (writeln_bind_inv _ _ _ _ _ _ _ Ha) as (rest & -> & Hrest).
      assert (rest = []) as ->.
      { destruct (is_tuple alt).
        - unfold register_tuple in Hrest.
          destruct (bind_inv _ _ _ _ _ _ _ _ Hrest) as (? & ? & ? & ? & E1 & E2 & ->).
          unfold lift in E1. destruct (getitem _ _) in E1; [|discriminate].
          injection E1 as _ <- _.
          destruct (bind_inv _ _ _ _ _ _ _ _ E2) as (? & ? & ? & ? & E3 & E4 & ->).
          unfold lift in E3. destruct (getitem _ _) in E3; [|discriminate].
          injection E3 as _ <- _. now injection E4 as <- _.
        - now injection Hrest as <- _. }
      exists (ptype :: ptypes).
      split; [constructor; [right; now repeat split|exact HF]|reflexivity].
Qed.

(** X7: a union that is emitted is written as the line [oneof <name> {],
    one field for every alternative and the line [};].  The field of
    alternative [j] is named [v<j>], has the type name of the
    alternative, a reference or a primitive type, and the number that is
    [j] places after the first number of the union. *)
Theorem union_fields (raw : string) (prop : description)
    (alts : list description) (c : nat) d c' w d' :
  is_ref prop = false -> is_primitive_type prop = false ->
  is_custom_type prop = false -> d_anyOf prop = Some alts ->
  emit_property c (raw, prop) d = Ok (c', w, d') ->
  exists ptypes,
    Forall2
      (fun alt ptype =>
         (is_ref alt = true /\ get_ref_type_name alt = Ok ptype) \/
         (is_ref alt = false /\ is_primitive_type alt = true /\
          get_primitive_type_name alt = Ok ptype))
      alts ptypes /\
    w = (("  oneof " ++ sanitize_prop_name raw ++ " {")%string
           :: map (fun jp => field_line "    " (snd jp) ("v" ++ str_nat (fst jp))
                               (fst jp + c))
                (enumerate ptypes)
           ++ [ "  };" ])%list.
Proof.
  intros H1 H2 H3 Ha. unfold emit_property.
  rewrite H1, H2, H3. unfold is_union. rewrite Ha. cbn [contains getitem].
  intros H.
  destruct (writeln_bind_inv _ _ _ _ _ _ _ H) as (rest & -> & H').
  rewrite bind_lift_ok in H'.
  destruct (bind_inv _ _ _ _ _ _ _ _ H') as (ic & w1 & d1 & w2 & Hf & Hk & ->).
  destruct (alternatives_lines alts 0 c d ic w1 d1 Hf) as (ptypes & HF & ->).
  destruct (writeln_bind_inv _ _ _ _ _ _ _ Hk) as (rest' & -> & Hr).
  injection Hr as _ <- _.
  exists ptypes. split; [exact HF|reflexivity].
Qed.

Lemma union_fields_witness :
  exists ptypes,
    Forall2
      (fun alt ptype =>
         (is_ref alt = true /\ get_ref_type_name alt = Ok ptype) \/
         (is_ref alt = false /\ is_primitive_type alt = true /\
          get_primitive_type_name alt = Ok ptype))
      [ref_to "A"; of_type "string"] ptypes /\
    [ "  oneof u {"; "    A v0 = 3;"; "    string v1 = 4;"; "  };" ]
    = (("  oneof " ++ sanitize_prop_name "u" ++ " {")%string
         :: map (fun jp => field_line "    " (snd jp) ("v" ++ str_nat (fst jp))
                             (fst jp + 3))
              (enumerate ptypes)
         ++ [ "  };" ])%list.
Proof.
  exact (union_fields "u" (union_of [ref_to "A"; of_type "string"])
           [ref_to "A"; of_type "string"] 3 [] 6
           [ "  oneof u {"; "    A v0 = 3;"; "    string v1 = 4;"; "  };" ] []
           eq_refl eq_refl eq_refl eq_refl eq_refl).
Defined.

(** ** Fields that are no unions *)

Lemma scalar_type_name (prop : description) (t name : string) :
  d_type prop = Some t -> In (t, name) scalar_types ->
  is_primitive_type prop = true /\ get_primitive_type_name prop = Ok name /\
  is_tuple prop = false /\ is_array prop = Ok false.
Proof.
  intros Ht Hin. rewrite get_primitive_type_name_eq.
  unfold is_primitive_type, is_tuple, is_array. rewrite Ht.
  simpl in Hin.
  destruct Hin as [[= <- <-]|[[= <- <-]|[[= <- <-]|[[= <- <-]|[]]]]];
    repeat split.
Qed.

(** X8: a property that is a reference, a primitive scalar or a custom
    object is written as one field, with its type name and the number of
    the counter; the counter advances by one and the deferred types stay
    as they are.  A reference goes first: a description with [$ref] is
    emitted as a reference whatever its other keys. *)
Theorem single_field (raw : string) (prop : description) (ptype : string)
    (c : nat) (d : registry) :
  (is_ref prop = true /\ get_ref_type_name prop = Ok ptype) \/
  (is_ref prop = false /\
   exists t, d_type prop = Some t /\ In (t, ptype) scalar_types) \/
  (is_ref prop = false /\ is_custom_type prop = true /\ d_title prop = Some ptype) ->
  emit_property c (raw, prop) d
  = Ok (S c, [ field_line "  " ptype (sanitize_prop_name raw) c ], d).
Proof.
  intros [[Hr Hn]|[[Hr (t & Ht & Hin)]|(Hr & Hc & Ht)]]; unfold emit_property.
  - now rewrite Hr, Hn.
  - destruct (scalar_type_name prop t ptype Ht Hin) as (Hp & Hn & Htu & Ha).
    now rewrite Hr, Hp, Hn, Htu, Ha.
  - rewrite Hr, (object_is_not_primitive prop (or_introl Hc)), Hc.
    unfold get_custom_type_name. now rewrite Ht.
Qed.

Lemma single_field_witness :
  emit_property 1 ("scope", ref_to "Scope") []
  = Ok (2, [ "  Scope scope = 1;" ], []) /\
  emit_property 2 ("count", of_type "integer") []
  = Ok (3, [ "  Integer count = 2;" ], []) /\
  emit_property 3 ("file-meta", custom_object "Meta") []
  = Ok (4, [ "  Meta file_meta = 3;" ], []).
Proof.
  split.
  { exact (single_field "scope" (ref_to "Scope") "Scope" 1 []
             (or_introl (conj eq_refl eq_refl))). }
  split.
  { apply (single_field "count" (of_type "integer") "Integer" 2 []).
    right. left. split; [reflexivity|]. exists "integer".
    split; [reflexivity|]. simpl. auto. }
  apply (single_field "file-meta" (custom_object "Meta") "Meta" 3 []).
  right. right. repeat split.
Defined.

(** X9: a tuple property that has a name is written as one field of the
    type of its wrapper, and the wrapper is put in the deferred types
    under its name, with the declared size and the [items] of the tuple
    as they are; the counter advances by one.  The [items] are a list of
    descriptions that all have type names, or a single description
    without keys, and then the name is [Pair_] or [Tuple_]. *)
Theorem tuple_field_registers (raw : string) (prop : description) (name : string)
    (c : nat) (d : registry) :
  is_ref prop = false -> is_tuple prop = true ->
  get_tuple_type_name prop = Ok name ->
  exists count items,
    d_minItems prop = Some count /\ d_items prop = Some items /\
    emit_property c (raw, prop) d
    = Ok (S c,
          [ field_line "  " name (sanitize_prop_name raw) c ],
          setitem name (DeferredTupleType name count items) d) /\
    lookup name (setitem name (DeferredTupleType name count items) d)
    = Some (DeferredTupleType name count items) /\
    match items with
    | inl item => d_keys item = [] /\ (name = "Pair_" \/ name = "Tuple_")
    | inr l =>
        exists names,
          map_result get_type_name l = Ok names /\ length names = length l
    end.
Proof.
  intros Hr Ht Hn.
  destruct (emit_property_tuple raw prop name c d Hr Ht Hn)
    as (count & items & Hc & Hi & He).
  exists count, items. split; [exact Hc|]. split; [exact Hi|]. split; [exact He|].
  split.
  - clear. induction d as [|[k v] d IH]; simpl.
    + now rewrite String.eqb_refl.
    + destruct (String.eqb_spec k name) as [->|Hne]; simpl.
      * now rewrite String.eqb_refl.
      * destruct (String.eqb_spec k name); [contradiction|exact IH].
  - destruct (get_tuple_type_name_inv prop name Hn)
      as (mx & names & _ & -> & [(item & Hi' & Hk & ->)|(l & Hi' & Hnames)]);
      rewrite Hi in Hi'; injection Hi' as ->.
    + split; [exact Hk|]. destruct (Z.eqb mx 2); [now left|now right].
    + exists names. split; [exact Hnames|].
      exact (map_result_length _ _ get_type_name l names Hnames).
Qed.

Lemma tuple_field_registers_witness :
  (exists count items,
     d_minItems (tuple_of 2 [ref_to "Address"; ref_to "Match"]) = Some count /\
     d_items (tuple_of 2 [ref_to "Address"; ref_to "Match"]) = Some items /\
     emit_property 5 ("pair", tuple_of 2 [ref_to "Address"; ref_to "Match"]) []
     = Ok (6,
           [ field_line "  " "Pair_Address_Match" (sanitize_prop_name "pair") 5 ],
           setitem "Pair_Address_Match"
             (DeferredTupleType "Pair_Address_Match" count items) []) /\
     lookup "Pair_Address_Match"
       (setitem "Pair_Address_Match"
          (DeferredTupleType "Pair_Address_Match" count items) [])
     = Some (DeferredTupleType "Pair_Address_Match" count items) /\
     match items with
     | inl item =>
         d_keys item = [] /\
         ("Pair_Address_Match" = "Pair_" \/ "Pair_Address_Match" = "Tuple_")
     | inr l =>
         exists names,
           map_result get_type_name l = Ok names /\ length names = length l
     end) /\
  (exists count items,
     d_minItems (tuple_of_dict 3 no_keys) = Some count /\
     d_items (tuple_of_dict 3 no_keys) = Some items /\
     emit_property 1 ("any", tuple_of_dict 3 no_keys) []
     = Ok (2,
           [ field_line "  " "Tuple_" (sanitize_prop_name "any") 1 ],
           setitem "Tuple_" (DeferredTupleType "Tuple_" count items) []) /\
     lookup "Tuple_" (setitem "Tuple_" (DeferredTupleType "Tuple_" count items) [])
     = Some (DeferredTupleType "Tuple_" count items) /\
     match items with
     | inl item => d_keys item = [] /\ ("Tuple_" = "Pair_" \/ "Tuple_" = "Tuple_")
     | inr l =>
         exists names,
           map_result get_type_name l = Ok names /\ length names = length l
     end).
Proof.
  split.
  - exact (tuple_field_registers "pair" (tuple_of 2 [ref_to "Address"; ref_to "Match"])
             "Pair_Address_Match" 5 [] eq_refl eq_refl eq_refl).
  - exact (tuple_field_registers "any" (tuple_of_dict 3 no_keys)
             "Tuple_" 1 [] eq_refl eq_refl eq_refl).
Defined.

(** ** The outcomes of the type-name functions *)

(** X10: [get_primitive_type_name] fails its assertion on a description
    that has no [type] or is an object.  When it returns, the name is one
    of the four scalar names, by [type]; or the description is a tuple
    and the name starts with [Pair_] where [maxItems] is 2 and with
    [Tuple_] otherwise; or the description is an array and the name
    starts with [repeated].  For a tuple whose [items] are a single
    description the loop over the items goes over the keys of the
    description: without keys the name is [Pair_] or [Tuple_], and
    otherwise the first key ends the call, with [TypeError] where it has
    [type] or [$ref] in it and with [NotImplementedError] where not. *)
Theorem primitive_type_name_outcomes (prop : description) :
  (is_primitive_type prop = false ->
   get_primitive_type_name prop = Err AssertionError) /\
  (forall name,
     get_primitive_type_name prop = Ok name ->
     (exists t, d_type prop = Some t /\ In (t, name) scalar_types) \/
     (is_tuple prop = true /\
      exists mx, d_maxItems prop = Some mx /\
        startswith (if Z.eqb mx 2 then "Pair_" else "Tuple_") name = true) \/
     (is_tuple prop = false /\ is_array prop = Ok true /\
      startswith "repeated " name = true)) /\
  (forall item mx,
     is_tuple prop = true -> d_maxItems prop = Some mx ->
     d_items prop = Some (inl item) ->
     get_primitive_type_name prop
     = match d_keys item with
       | [] => Ok ((if Z.eqb mx 2 then "Pair" else "Tuple") ++ "_")
       | key :: _ =>
           Err (if occurs "type" key || occurs "$ref" key
                then TypeError else NotImplementedError)
       end).
Proof.
  split; [|split].
  - intros H. rewrite get_primitive_type_name_eq. now rewrite H.
  - intros name. rewrite get_primitive_type_name_eq.
    destruct (is_primitive_type prop); [|discriminate]. cbn [negb].
    destruct (d_type prop) as [t|] eqn:Ht; [|discriminate].
    destruct (String.eqb_spec t "string") as [->|_].
    { intros [= <-]. left. exists "string". split; [reflexivity|]. simpl. auto. }
    destruct (String.eqb_spec t "boolean") as [->|_].
    { intros [= <-]. left. exists "boolean". split; [reflexivity|]. simpl. auto. }
    destruct (String.eqb_spec t "integer") as [->|_].
    { intros [= <-]. left. exists "integer". split; [reflexivity|]. simpl. auto. }
    destruct (String.eqb_spec t "number") as [->|_].
    { intros [= <-]. left. exists "number". split; [reflexivity|]. simpl. auto. }
    destruct (is_tuple prop) eqn:Htu.
    + intros H. right. left. split; [reflexivity|].
      destruct (get_tuple_type_name_inv prop name H) as (mx & names & Hm & -> & _).
      exists mx. split; [exact Hm|]. destruct (Z.eqb mx 2); reflexivity.
    + destruct (is_array prop) as [[|]|]; try discriminate.
      destruct (d_items prop) as [[item|items]|]; try discriminate.
      destruct (if is_primitive_type item then _ else _) as [atype|]; [|discriminate].
      intros [= <-]. right. right. repeat split.
  - intros item mx Ht Hm Hi.
    rewrite (get_primitive_type_name_tuple prop Ht).
    unfold get_tuple_type_name, tuple_type_name_with. rewrite Ht, Hm, Hi.
    cbn [negb]. destruct (d_keys item) as [|key keys]; [reflexivity|].
    cbn [map_result]. unfold get_type_name_of_key.
    destruct (occurs "type" key); [reflexivity|].
    destruct (occurs "$ref" key); reflexivity.
Qed.

Lemma primitive_type_name_outcomes_witness :
  get_primitive_type_name (custom_object "Meta") = Err AssertionError /\
  ((exists t, d_type (tuple_of 3 [ref_to "A"; ref_to "B"; ref_to "C"]) = Some t /\
      In (t, "Tuple_A_B_C") scalar_types) \/
   (is_tuple (tuple_of 3 [ref_to "A"; ref_to "B"; ref_to "C"]) = true /\
    exists mx,
      d_maxItems (tuple_of 3 [ref_to "A"; ref_to "B"; ref_to "C"]) = Some mx /\
      startswith (if Z.eqb mx 2 then "Pair_" else "Tuple_") "Tuple_A_B_C" = true) \/
   (is_tuple (tuple_of 3 [ref_to "A"; ref_to "B"; ref_to "C"]) = false /\
    is_array (tuple_of 3 [ref_to "A"; ref_to "B"; ref_to "C"]) = Ok true /\
    startswith "repeated " "Tuple_A_B_C" = true)) /\
  get_primitive_type_name (tuple_of_dict 2 no_keys) = Ok "Pair_" /\
  get_primitive_type_name (tuple_of_dict 2 (of_type "string")) = Err TypeError /\
  get_primitive_type_name (tuple_of_dict 2 (enum_definition "T" ["a"]))
  = Err NotImplementedError.
Proof.
  split.
  { exact (proj1 (primitive_type_name_outcomes (custom_object "Meta")) eq_refl). }
  split.
  { exact (proj1 (proj2 (primitive_type_name_outcomes
                           (tuple_of 3 [ref_to "A"; ref_to "B"; ref_to "C"])))
             "Tuple_A_B_C" eq_refl). }
  split.
  { exact (proj2 (proj2 (primitive_type_name_outcomes (tuple_of_dict 2 no_keys)))
             no_keys 2%Z eq_refl eq_refl eq_refl). }
  split.
  { exact (proj2 (proj2 (primitive_type_name_outcomes
                           (tuple_of_dict 2 (of_type "string"))))
             (of_type "string") 2%Z eq_refl eq_refl eq_refl). }
  exact (proj2 (proj2 (primitive_type_name_outcomes
                         (tuple_of_dict 2 (enum_definition "T" ["a"]))))
           (enum_definition "T" ["a"]) 2%Z eq_refl eq_refl eq_refl).
Defined.

(** X11: [get_type_name] names a description by its primitive type if it
    has one, else by its title if it is a custom object, else by its
    reference; a map without [$ref] and a description without [type]
    and [$ref] have no type name; and a description that has a type
    name is of a primitive type, a custom object or a reference. *)
Theorem type_name_outcomes (prop : description) :
  (is_primitive_type prop = true ->
   get_type_name prop = get_primitive_type_name prop) /\
  (is_custom_type prop = true ->
   get_type_name prop = getitem "title" (d_title prop)) /\
  (is_primitive_type prop = false -> is_custom_type prop = false ->
   is_ref prop = true -> get_type_name prop = get_ref_type_name prop) /\
  (is_ref prop = false ->
   is_map prop = true \/ d_type prop = None ->
   get_type_name prop = Err NotImplementedError) /\
  (forall name,
     get_type_name prop = Ok name ->
     is_primitive_type prop = true \/ is_custom_type prop = true \/
     is_ref prop = true).
Proof.
  unfold get_type_name, type_name_with. repeat split.
  - intros H. now rewrite H.
  - intros H. now rewrite (object_is_not_primitive prop (or_introl H)), H.
  - intros H1 H2 H3. now rewrite H1, H2, H3.
  - intros Hr [Hm|Ht].
    + destruct (map_is_not_primitive prop Hm) as [Hp Hc]. now rewrite Hp, Hc, Hr.
    + unfold is_primitive_type, is_custom_type. now rewrite Ht, Hr.
  - intros name. destruct (is_primitive_type prop); [now left|].
    destruct (is_custom_type prop); [right; now left|].
    destruct (is_ref prop); [right; now right|discriminate].
Qed.

Lemma type_name_outcomes_witness :
  get_type_name (of_type "number") = get_primitive_type_name (of_type "number") /\
  get_type_name (custom_object "Meta") = Ok "Meta" /\
  get_type_name (ref_to "Scope") = get_ref_type_name (ref_to "Scope") /\
  get_type_name (map_of (of_type "string")) = Err NotImplementedError /\
  get_type_name no_keys = Err NotImplementedError.
Proof.
  split; [exact (proj1 (type_name_outcomes (of_type "number")) eq_refl)|].
  split.
  { exact (proj1 (proj2 (type_name_outcomes (custom_object "Meta"))) eq_refl). }
  split.
  { exact (proj1 (proj2 (proj2 (type_name_outcomes (ref_to "Scope"))))
             eq_refl eq_refl eq_refl). }
  split.
  { exact (proj1 (proj2 (proj2 (proj2 (type_name_outcomes
                    (map_of (of_type "string"))))))
             eq_refl (or_introl eq_refl)). }
  exact (proj1 (proj2 (proj2 (proj2 (type_name_outcomes no_keys))))
           eq_refl (or_intror eq_refl)).
Defined.

(** ** The entry of a definition *)

(** X12: the outcomes of [emit_proto_entry], in the order the source
    meets them.  A name without the definitions prefix is a [ValueError];
    a title that the schema does not define is a [KeyError] of that
    title; a definition without [title] is a [KeyError], and so is, for a
    matching title, one without [type].  A string definition with [enum]
    is emitted as an enum, an object definition as a message, and any
    other definition is a [NotImplementedError]. *)
Theorem entry_outcomes (capa : capa_modules) (schema : schema) (d : registry) :
  (forall name,
     startswith definitions_prefix name = false ->
     emit_proto_entry capa schema name d
     = Err (ValueError ("unexpected name: " ++ name))) /\
  (forall title,
     lookup title (definitions schema) = None ->
     emit_proto_entry capa schema (definitions_prefix ++ title) d
     = Err (KeyError title)) /\
  (forall title definition,
     lookup title (definitions schema) = Some definition ->
     (d_title definition = None ->
      emit_proto_entry capa schema (definitions_prefix ++ title) d
      = Err (KeyError "title")) /\
     (d_title definition = Some title ->
      (d_type definition = None ->
       emit_proto_entry capa schema (definitions_prefix ++ title) d
       = Err (KeyError "type")) /\
      (forall values,
         d_type definition = Some "string" -> d_enum definition = Some values ->
         emit_proto_entry capa schema (definitions_prefix ++ title) d
         = emit_proto_enum definition d) /\
      (d_type definition = Some "object" ->
       emit_proto_entry capa schema (definitions_prefix ++ title) d
       = emit_proto_message capa definition d) /\
      (forall t,
         d_type definition = Some t -> t <> "object" ->
         t <> "string" \/ d_enum definition = None ->
         emit_proto_entry capa schema (definitions_prefix ++ title) d
         = Err NotImplementedError))).
Proof.
  split; [|split].
  - intros name H. unfold emit_proto_entry. now rewrite H.
  - intros title H. unfold emit_proto_entry.
    rewrite startswith_app, drop_app, H. reflexivity.
  - intros title definition Hl. unfold emit_proto_entry.
    rewrite startswith_app, drop_app, Hl. cbn [negb getitem]. rewrite bind_lift_ok.
    split.
    + intros H. now rewrite H.
    + intros H. rewrite H. cbn [getitem]. rewrite bind_lift_ok, String.eqb_refl.
      cbn [negb].
      split; [|split; [|split]].
      * intros Ht. now rewrite Ht.
      * intros values Ht He. rewrite Ht, He. cbn [getitem].
        now rewrite bind_lift_ok.
      * intros Ht. rewrite Ht. cbn [getitem]. now rewrite bind_lift_ok.
      * intros t Ht Hobj Henum. rewrite Ht. cbn [getitem]. rewrite bind_lift_ok.
        destruct (String.eqb_spec t "object") as [->|_]; [contradiction|].
        destruct Henum as [Hs|He].
        -- destruct (String.eqb_spec t "string") as [->|_]; [contradiction|].
           reflexivity.
        -- rewrite He. cbn [contains]. now rewrite andb_false_r.
Qed.

Lemma entry_outcomes_witness :
  emit_proto_entry no_class (Schema [("Scope", scope_enum)]) "Scope" []
  = Err (ValueError "unexpected name: Scope") /\
  emit_proto_entry no_class (Schema [("Scope", scope_enum)]) "#/definitions/Match" []
  = Err (KeyError "Match") /\
  emit_proto_entry no_class (Schema [("Scope", of_type "string")]) "#/definitions/Scope" []
  = Err (KeyError "title") /\
  emit_proto_entry no_class (Schema [("Scope", scope_enum)]) "#/definitions/Scope" []
  = emit_proto_enum scope_enum [] /\
  emit_proto_entry no_class
    (Schema [("Count",
              Description ["type"; "title"] None (Some "integer") (Some "Count")
                None None None None None None None)])
    "#/definitions/Count" []
  = Err NotImplementedError.
Proof.
  split.
  { exact (proj1 (entry_outcomes no_class (Schema [("Scope", scope_enum)]) [])
             "Scope" eq_refl). }
  split.
  { exact (proj1 (proj2 (entry_outcomes no_class (Schema [("Scope", scope_enum)]) []))
             "Match" eq_refl). }
  split.
  { exact (proj1 (proj2 (proj2 (entry_outcomes no_class
                                  (Schema [("Scope", of_type "string")]) []))
                    "Scope" (of_type "string") eq_refl) eq_refl). }
  split.
  { exact (proj1 (proj2 (proj2 (proj2 (proj2
             (entry_outcomes no_class (Schema [("Scope", scope_enum)]) []))
               "Scope" scope_enum eq_refl) eq_refl))
             ["file"; "function"] eq_refl eq_refl). }
  refine (proj2 (proj2 (proj2 (proj2 (proj2 (proj2
            (entry_outcomes no_class
               (Schema [("Count",
                         Description ["type"; "title"] None (Some "integer") (Some "Count")
                           None None None None None None None)]) []))
            "Count"
            (Description ["type"; "title"] None (Some "integer") (Some "Count")
               None None None None None None None) eq_refl) eq_refl)))
            "integer" eq_refl _ _).
  - discriminate.
  - left. discriminate.
Defined.

(** ** The deferred types of a run *)

(** X13: the run fails exactly where the loop over the definitions
    fails, with the same exception.  When that loop returns, the deferred
    types it leaves are well formed: their keys are distinct and each is
    a tuple or an array under the name of its wrapper; the loop over the
    deferred types returns, writes the wrapper of every entry in
    ascending order of name, and leaves the deferred types as they are;
    and the run returns the three lines of the header, the lines of the
    definitions, the lines of the wrappers and the two helper types
    [Integer] and [Number]. *)
Theorem run_follows_definitions (capa : capa_modules) (schema : schema) :
  (forall e,
     for_each (sorted_strings (map fst (definitions schema)))
       (fun name => emit_proto_entry capa schema (definitions_prefix ++ name)) []
     = Err e ->
     generate_proto_from_pydantic capa schema = Err e) /\
  (forall u primary deferred_types,
     for_each (sorted_strings (map fst (definitions schema)))
       (fun name => emit_proto_entry capa schema (definitions_prefix ++ name)) []
     = Ok (u, primary, deferred_types) ->
     well_formed deferred_types /\
     StronglySorted (fun a b => String.leb (fst a) (fst b) = true)
       (sorted_items deferred_types) /\
     exists deferred_blocks,
       Forall2 wrapper_lines (sorted_items deferred_types) deferred_blocks /\
       (forall D, for_each (sorted_items deferred_types) emit_deferred D
                  = Ok (tt, concat deferred_blocks, D)) /\
       generate_proto_from_pydantic capa schema
       = Ok (getvalue
               ([ "// Generated by the capa.render.proto translator. DO NOT EDIT!";
                  ("syntax = " ++ String "034"%char "proto3"
                     ++ String "034"%char ";")%string;
                  "" ]
                ++ primary ++ concat deferred_blocks
                ++ [ ("message Integer { oneof value { uint64 u = 1; int64 i = 2; } }"
                        ++ String "010"%char "")%string;
                     ("message Number { oneof value { uint64 u = 1; int64 i = 2; "
                        ++ "double f = 3; } }" ++ String "010"%char "")%string ])%list)).
Proof.
  split.
  - intros e H. unfold generate_proto_from_pydantic, generate_commands.
    rewrite (bind_ok _ _ _ _ [] tt header [] (for_each_writeln_id header [])).
    unfold bind at 1. now rewrite H.
  - intros u primary d H.
    destruct (generate_returns capa schema u primary d H)
      as (Hwf & blocks & HF & Hl & Hrun).
    split; [exact Hwf|]. split; [apply sorted_items_sorted|].
    exists blocks. split; [exact (wrapper_lines_only _ _ HF)|].
    split; [exact Hl|exact Hrun].
Qed.

Lemma run_follows_definitions_witness :
  generate_proto_from_pydantic no_class mismatch_schema
  = Err (ValueError "title mismatch: Scopes") /\
  (exists primary deferred_types deferred_blocks,
     well_formed deferred_types /\
     registered "Pair_Address_Match" deferred_types /\
     Forall2 wrapper_lines (sorted_items deferred_types) deferred_blocks /\
     generate_proto_from_pydantic pair_classes pair_schema
     = Ok (getvalue
             ([ "// Generated by the capa.render.proto translator. DO NOT EDIT!";
                ("syntax = " ++ String "034"%char "proto3"
                   ++ String "034"%char ";")%string;
                "" ]
              ++ primary ++ concat deferred_blocks
              ++ [ ("message Integer { oneof value { uint64 u = 1; int64 i = 2; } }"
                      ++ String "010"%char "")%string;
                   ("message Number { oneof value { uint64 u = 1; int64 i = 2; "
                      ++ "double f = 3; } }" ++ String "010"%char "")%string ])%list)) /\
  generate_proto_from_pydantic pair_classes pair_schema
  = Ok (String.concat (String "010"%char "")
          [ "// Generated by the capa.render.proto translator. DO NOT EDIT!";
            ("syntax = " ++ String "034"%char "proto3" ++ String "034"%char ";")%string;
            "";
            "message Match {";
            "  Pair_Address_Match first = 1;";
            "  Pair_Address_Match second = 2;";
            "}";
            "";
            "message Pair_Address_Match {";
            "  Address v0 = 1;";
            "  Match v1 = 2;";
            ("}" ++ String "010"%char "")%string;
            ("message Integer { oneof value { uint64 u = 1; int64 i = 2; } }"
               ++ String "010"%char "")%string;
            ("message Number { oneof value { uint64 u = 1; int64 i = 2; "
               ++ "double f = 3; } }" ++ String "010"%char "")%string ]
        ++ String "010"%char "").
Proof.
  split.
  { exact (proj1 (run_follows_definitions no_class mismatch_schema) _ eq_refl). }
  split.
  - destruct (proj2 (run_follows_definitions pair_classes pair_schema) tt _ _ eq_refl)
      as (Hwf & _ & blocks & HF & _ & Hrun).
    eexists _, _, blocks. split; [exact Hwf|]. split; [left; reflexivity|].
    split; [exact HF|exact Hrun].
  - reflexivity.
Defined.

(** ** What a run that returns says of the schema *)

Lemma fold_emit_rounds (S X : Type) (body : S -> X -> emit S) (l : list X) :
  forall s d r,
    fold_emit body s l d = Ok r ->
    forall x, In x l -> exists s1 d1 r1, body s1 x d1 = Ok r1.
Proof.
  induction l as [|y l IH]; intros s d [[s' w] d'] H x Hin; [contradiction|].
  cbn [fold_emit] in H.
  destruct (bind_inv _ _ _ _ _ _ _ _ H) as (s1 & w1 & d1 & w2 & H1 & H2 & _).
  destruct Hin as [<-|Hin].
  - now exists s, d, (s1, w1, d1).
  - exact (IH s1 d1 _ H2 x Hin).
Qed.

Lemma emit_property_classified (c : nat) (raw : string) (prop : description) d r :
  emit_property c (raw, prop) d = Ok r -> is_classified prop = true.
Proof.
  intros H. unfold is_classified.
  destruct (is_ref prop) eqn:H1; [reflexivity|].
  destruct (is_primitive_type prop) eqn:H2; [reflexivity|].
  destruct (is_custom_type prop) eqn:H3; [reflexivity|].
  destruct (is_union prop) eqn:H4; [reflexivity|].
  destruct (is_map prop) eqn:H5; [reflexivity|].
  rewrite (emit_property_shapeless raw prop H1 H2 H3 H4 H5 c d) in H. discriminate.
Qed.

Lemma emit_proto_message_inv (capa : capa_modules) (message : description) d r :
  emit_proto_message capa message d = Ok r ->
  exists title order declared,
    d_title message = Some title /\
    _find_capa_class capa title = Ok (Some order) /\
    d_properties message = Some declared /\
    forall np, In np declared -> is_classified (snd np) = true.
Proof.
  destruct r as [[u w] d']. unfold emit_proto_message. intros H.
  destruct (d_title message) as [title|] eqn:Ht; [|discriminate].
  cbn [getitem] in H. rewrite bind_lift_ok in H.
  destruct (writeln_bind_inv _ _ _ _ _ _ _ H) as (rest & _ & H1).
  destruct (bind_inv _ _ _ _ _ _ _ _ H1) as (props & w1 & d1 & w2 & Hp & H2 & _).
  destruct (_enum_properties capa message) as [props'|e] eqn:Hprops; [|discriminate].
  injection Hp as <- _ <-.
  destruct (bind_inv _ _ _ _ _ _ _ _ H2) as (c & w3 & d3 & w4 & Hfold & _ & _).
  assert (Hsame := Hprops). unfold _enum_properties in Hsame. rewrite Ht in Hsame.
  cbn [getitem bind_result] in Hsame.
  destruct (_find_capa_class capa title) as [[order|]|] eqn:Hc; try discriminate.
  cbn [bind_result] in Hsame.
  destruct (d_properties message) as [declared|] eqn:Hd; [|discriminate].
  exists title, order, declared.
  split; [reflexivity|]. split; [exact Hc|]. split; [reflexivity|].
  intros [raw prop] Hin.
  assert (Hin' : In (raw, prop) props').
  { eapply Permutation_in; [|exact Hin].
    apply Permutation_sym. exact (enum_properties_perm capa message declared props' Hd Hprops). }
  destruct (fold_emit_rounds _ _ emit_property props' 1 d _ Hfold _ Hin')
    as (c1 & dx & r1 & Hr).
  exact (emit_property_classified c1 raw prop dx r1 Hr).
Qed.

Lemma Forall2_in_left (X Y : Type) (R : X -> Y -> Prop) (l : list X) (l' : list Y) :
  Forall2 R l l' -> forall x, In x l -> exists y, R x y.
Proof.
  induction 1 as [|a b l l' Hab _ IH]; intros x Hin; [contradiction|].
  destruct Hin as [<-|Hin]; [now exists b|exact (IH x Hin)].
Qed.

(** X14: a run that returns has checked the schema.  Every definition
    carries its key as [title]; it is a string definition with [enum] or
    an object definition; and an object definition has its title in the
    capa modules with a signature, has [properties], and each of its
    properties is a reference, of a primitive type, a custom object, a
    union or a map. *)
Theorem returned_run_certifies (capa : capa_modules) (schema : schema) (text : string) :
  generate_proto_from_pydantic capa schema = Ok text ->
  forall title definition,
    lookup title (definitions schema) = Some definition ->
    d_title definition = Some title /\
    ((d_type definition = Some "string" /\
      exists values, d_enum definition = Some values) \/
     (d_type definition = Some "object" /\
      exists order declared,
        _find_capa_class capa title = Ok (Some order) /\
        d_properties definition = Some declared /\
        forall np, In np declared -> is_classified (snd np) = true)).
Proof.
  intros Hrun title definition Hl.
  destruct (generate_inv capa schema text Hrun) as (primary & d & lines & H1 & _ & _).
  destruct (for_each_blocks _ _ _ _ _ _ _ H1) as (blocks & _ & HF).
  destruct (Forall2_in_left _ _ _ _ _ HF title) as (block & d1 & d2 & He).
  { apply in_sorted_by. exact (lookup_in_keys _ title _ definition Hl). }
  unfold emit_proto_entry in He.
  rewrite startswith_app, drop_app, Hl in He. cbn [negb getitem] in He.
  rewrite bind_lift_ok in He.
  destruct (d_title definition) as [stored|] eqn:Ht; [|discriminate].
  cbn [getitem] in He. rewrite bind_lift_ok in He.
  destruct (String.eqb_spec stored title) as [->|Hne]; [|discriminate].
  cbn [negb] in He. split; [reflexivity|].
  destruct (d_type definition) as [t|] eqn:Hty; [|discriminate].
  cbn [getitem] in He. rewrite bind_lift_ok in He.
  destruct (String.eqb_spec t "string") as [->|Hs].
  - destruct (d_enum definition) as [values|] eqn:Henum.
    + left. split; [reflexivity|]. now exists values.
    + discriminate.
  - cbn [andb] in He.
    destruct (String.eqb_spec t "object") as [->|Ho]; [|discriminate].
    right. split; [reflexivity|].
    destruct (emit_proto_message_inv capa definition d1 _ He)
      as (title' & order & declared & Ht' & Hc & Hd & Hall).
    assert (E : title' = title) by congruence. subst title'.
    now exists order, declared.
Qed.

Lemma returned_run_certifies_witness :
  d_title scope_enum = Some "Scope" /\
  ((d_type scope_enum = Some "string" /\
    exists values, d_enum scope_enum = Some values) \/
   (d_type scope_enum = Some "object" /\
    exists order declared,
      _find_capa_class match_classes "Scope" = Ok (Some order) /\
      d_properties scope_enum = Some declared /\
      forall np, In np declared -> is_classified (snd np) = true)).
Proof.
  exact (returned_run_certifies match_classes schema_one_way _ eq_refl
           "Scope" scope_enum eq_refl).
Defined.

(** ** Padding of a table cell *)

Lemma width_length (s : code_points) (n : nat) :
  length (width s n) = Nat.max (length s) n.
Proof.
  unfold width. destruct (Nat.ltb_spec (length s) n).
  - rewrite length_app, repeat_length. lia.
  - lia.
Qed.

(** X15: [width] pads a string with spaces on the right up to the given
    count of characters and never shortens it: the result is the string
    followed by spaces only, its length is the larger of the length of
    the string and the count, a string that is long enough comes back as
    it is, and padding twice is padding once to the larger count. *)
Theorem width_pads (s : code_points) (n m : nat) :
  width s n = (s ++ repeat 32%N (n - length s))%list /\
  length (width s n) = Nat.max (length s) n /\
  (n <= length s -> width s n = s) /\
  width (width s n) m = width s (Nat.max n m).
Proof.
  assert (Hpad : forall k, width s k = (s ++ repeat 32%N (k - length s))%list).
  { intros k. unfold width, space.
    destruct (Nat.ltb_spec (length s) k) as [Hlt|Hge]; [reflexivity|].
    replace (k - length s) with 0 by lia. simpl. now rewrite app_nil_r. }
  split; [apply Hpad|]. split; [apply width_length|]. split.
  - intros Hle. unfold width.
    destruct (Nat.ltb_spec (length s) n); [lia|reflexivity].
  - unfold width at 1. rewrite width_length.
    destruct (Nat.ltb_spec (Nat.max (length s) n) m) as [Hlt|Hge].
    + rewrite (Hpad n), (Hpad (Nat.max n m)), <- app_assoc, <- repeat_app.
      do 2 f_equal. lia.
    + rewrite (Hpad n), (Hpad (Nat.max n m)). do 2 f_equal. lia.
Qed.

Lemma width_pads_witness :
  width (of_ascii_text "capa") 2 = of_ascii_text "capa" /\
  width (width (of_ascii_text "md5") 5) 8 = width (of_ascii_text "md5") 8 /\
  width [99; 97; 102; 233]%N 6 = [99; 97; 102; 233; 32; 32]%N.
Proof.
  split.
  { apply (proj1 (proj2 (proj2 (width_pads (of_ascii_text "capa") 2 0)))).
    simpl. lia. }
  split.
  { exact (proj2 (proj2 (proj2 (width_pads (of_ascii_text "md5") 5 8)))). }
  exact (proj1 (width_pads [99; 97; 102; 233]%N 6 0)).
Defined.

(** ** Shapes without a translation *)

Lemma no_type_name (inner : description) :
  is_ref inner = false -> is_map inner = true \/ d_type inner = None ->
  is_primitive_type inner = false /\ is_custom_type inner = false /\
  get_type_name inner = Err NotImplementedError.
Proof.
  intros Hr H.
  assert (Hpc : is_primitive_type inner = false /\ is_custom_type inner = false).
  { destruct H as [Hm|Ht]; [exact (map_is_not_primitive inner Hm)|].
    unfold is_primitive_type, is_custom_type. now rewrite Ht. }
  destruct Hpc as [Hp Hc]. split; [exact Hp|]. split; [exact Hc|].
  unfold get_type_name, type_name_with. now rewrite Hp, Hc, Hr.
Qed.

Lemma not_array_inside (inner : description) :
  is_map inner = true \/ d_type inner = None -> is_array inner = Ok false.
Proof.
  unfold is_array, is_map. intros [H|H].
  - destruct (d_type inner) as [t|] eqn:Ht; [|reflexivity].
    destruct (String.eqb_spec t "object") as [E|_]; [|discriminate].
    rewrite E. reflexivity.
  - now rewrite H.
Qed.

(** X16: a map and a description that has none of [$ref] and [type] (a
    union, for one) have no type name, so they cannot be nested: a map
    property with such values, an array property with such an item and
    a tuple property with such a first element raise
    [NotImplementedError]. *)
Theorem nested_shape_unsupported (inner : description) :
  is_ref inner = false -> is_map inner = true \/ d_type inner = None ->
  (forall raw prop c d,
     is_ref prop = false -> is_union prop = false -> is_map prop = true ->
     d_additionalProperties prop = Some inner ->
     emit_property c (raw, prop) d = Err NotImplementedError) /\
  (forall raw prop c d,
     is_ref prop = false -> is_array prop = Ok true ->
     d_items prop = Some (inl inner) ->
     get_primitive_type_name prop = Err NotImplementedError /\
     emit_property c (raw, prop) d = Err NotImplementedError) /\
  (forall raw prop rest c d,
     is_ref prop = false -> is_tuple prop = true ->
     d_items prop = Some (inr (inner :: rest)) ->
     get_tuple_type_name prop = Err NotImplementedError /\
     emit_property c (raw, prop) d = Err NotImplementedError).
Proof.
  intros Hr Hshape.
  destruct (no_type_name inner Hr Hshape) as (Hp & Hc & Hn).
  split; [|split].
  - intros raw prop c d H1 H2 H3 H4.
    destruct (map_is_not_primitive prop H3) as [H5 H6].
    unfold emit_property. rewrite H1, H5, H6, H2, H3, H4. cbn [getitem].
    rewrite bind_lift_ok, (not_array_inside inner Hshape), bind_lift_ok, Hn.
    reflexivity.
  - intros raw prop c d H1 H2 H3.
    destruct (is_array_inv prop H2) as (Ht & Htu & _).
    assert (Hprim : is_primitive_type prop = true).
    { unfold is_primitive_type. now rewrite Ht. }
    assert (Hname : get_primitive_type_name prop = Err NotImplementedError).
    { rewrite get_primitive_type_name_eq, Hprim, Ht, Htu, H2, H3, Hp, Hr, Hc.
      reflexivity. }
    split; [exact Hname|].
    unfold emit_property. rewrite H1, Hprim, Hname. reflexivity.
  - intros raw prop rest c d H1 H2 H3.
    assert (Hname : get_tuple_type_name prop = Err NotImplementedError).
    { unfold get_tuple_type_name, tuple_type_name_with. rewrite H2, H3.
      cbn [negb map_result]. rewrite Hn.
      unfold is_tuple in H2.
      destruct (d_type prop) as [t|]; [|discriminate].
      destruct (negb (String.eqb t "array")); [discriminate|].
      destruct (d_maxItems prop); [reflexivity|discriminate]. }
    split; [exact Hname|].
    unfold emit_property.
    rewrite H1, (tuple_is_primitive prop H2), (get_primitive_type_name_tuple prop H2),
      Hname.
    reflexivity.
Qed.

Lemma nested_shape_unsupported_witness :
  emit_property 1 ("m", map_of (map_of (of_type "string"))) []
  = Err NotImplementedError /\
  emit_property 1 ("a", array_of (union_of [ref_to "A"; ref_to "B"])) []
  = Err NotImplementedError /\
  emit_property 1 ("t", tuple_of 2 [map_of (ref_to "A"); ref_to "B"]) []
  = Err NotImplementedError.
Proof.
  split.
  { exact (proj1 (nested_shape_unsupported (map_of (of_type "string"))
                    eq_refl (or_introl eq_refl))
             "m" (map_of (map_of (of_type "string"))) 1 []
             eq_refl eq_refl eq_refl eq_refl). }
  split.
  { exact (proj2 (proj1 (proj2 (nested_shape_unsupported
                                  (union_of [ref_to "A"; ref_to "B"])
                                  eq_refl (or_intror eq_refl)))
                    "a" (array_of (union_of [ref_to "A"; ref_to "B"])) 1 []
                    eq_refl eq_refl eq_refl)). }
  exact (proj2 (proj2 (proj2 (nested_shape_unsupported (map_of (ref_to "A"))
                                eq_refl (or_introl eq_refl)))
                  "t" (tuple_of 2 [map_of (ref_to "A"); ref_to "B"]) [ref_to "B"] 1 []
                  eq_refl eq_refl eq_refl)).
Defined.

(** X17: the [items] of an array.  An array that is no tuple and has no
    [items] raises [KeyError] in [is_array], and so do its type name and
    its emission; an array that is no tuple and whose [items] is a list
    is no array for [is_array] and has no type name.  A tuple without
    [items] raises [KeyError] when it is named.  An array with only one
    of [minItems] and [maxItems], or with two different ones, is no
    tuple. *)
Theorem array_items_edge (prop : description) :
  d_type prop = Some "array" ->
  (is_tuple prop = false -> d_items prop = None ->
   is_array prop = Err (KeyError "items") /\
   get_primitive_type_name prop = Err (KeyError "items") /\
   forall raw c d,
     is_ref prop = false ->
     emit_property c (raw, prop) d = Err (KeyError "items")) /\
  (forall items,
     is_tuple prop = false -> d_items prop = Some (inr items) ->
     is_array prop = Ok false /\
     get_primitive_type_name prop = Err NotImplementedError) /\
  (is_tuple prop = true -> d_items prop = None ->
   get_tuple_type_name prop = Err (KeyError "items")) /\
  (is_tuple prop = true <->
   exists n, d_minItems prop = Some n /\ d_maxItems prop = Some n).
Proof.
  intros Ht.
  assert (Hprim : is_primitive_type prop = true).
  { unfold is_primitive_type. now rewrite Ht. }
  assert (Hflag : is_tuple prop
                  = match d_maxItems prop, d_minItems prop with
                    | Some mx, Some mn => Z.eqb mx mn
                    | _, _ => false
                    end).
  { unfold is_tuple. now rewrite Ht. }
  split; [|split; [|split]].
  - intros Htu Hi.
    assert (Ha : is_array prop = Err (KeyError "items")).
    { unfold is_array. rewrite Ht. cbn [String.eqb Ascii.eqb Bool.eqb negb].
      rewrite <- Hflag, Htu, Hi. reflexivity. }
    assert (Hn : get_primitive_type_name prop = Err (KeyError "items")).
    { rewrite get_primitive_type_name_eq, Hprim, Ht, Htu, Ha. reflexivity. }
    split; [exact Ha|]. split; [exact Hn|].
    intros raw c d Hr. unfold emit_property. now rewrite Hr, Hprim, Hn.
  - intros items Htu Hi.
    assert (Ha : is_array prop = Ok false).
    { unfold is_array. rewrite Ht. cbn [String.eqb Ascii.eqb Bool.eqb negb].
      rewrite <- Hflag, Htu, Hi. reflexivity. }
    split; [exact Ha|].
    rewrite get_primitive_type_name_eq, Hprim, Ht, Htu, Ha. reflexivity.
  - intros Htu Hi. unfold get_tuple_type_name, tuple_type_name_with.
    rewrite Htu, Hi. cbn [negb]. rewrite Hflag in Htu.
    destruct (d_maxItems prop); [reflexivity|discriminate].
  - rewrite Hflag. split.
    + destruct (d_maxItems prop) as [mx|]; [|discriminate].
      destruct (d_minItems prop) as [mn|]; [|discriminate].
      intros H. apply Z.eqb_eq in H. subst mn. now exists mx.
    + intros (n & -> & ->). apply Z.eqb_refl.
Qed.

Lemma array_items_edge_witness :
  is_array (of_type "array") = Err (KeyError "items") /\
  emit_property 1 ("a", of_type "array") [] = Err (KeyError "items") /\
  (is_tuple (tuple_of 2 [ref_to "A"; ref_to "B"]) = true <->
   exists n, d_minItems (tuple_of 2 [ref_to "A"; ref_to "B"]) = Some n /\
             d_maxItems (tuple_of 2 [ref_to "A"; ref_to "B"]) = Some n).
Proof.
  split.
  { exact (proj1 (proj1 (array_items_edge (of_type "array") eq_refl)
                    eq_refl eq_refl)). }
  split.
  { exact (proj2 (proj2 (proj1 (array_items_edge (of_type "array") eq_refl)
                           eq_refl eq_refl)) "a" 1 [] eq_refl). }
  exact (proj2 (proj2 (proj2 (array_items_edge (tuple_of 2 [ref_to "A"; ref_to "B"])
                                eq_refl)))).
Defined.
